(** * go-virtualbox: the codec layer, embedded and verified

    A shallow embedding of the parts of the Go package [virtualbox] that
    turn VBoxManage text into typed values and typed values into
    command-line arguments:

    - [natnet.go]  : [CmdArg], [CmdArgs], [CmdArgs.Args], [NATNets];
    - [dhcp.go]    : [DHCPs];
    - [uart.go]    : UART keys, types, modes, [NewUARTs], [NewUART],
                     [UART.commandParameters]; the storage controller
                     decoder [NewStorageControllersFromProps];
    - machine file : [Flag], [Flag.Get], the toggles of [Machine.Modify].

    Go values are modelled as follows.  A [string] is a Rocq [string]
    (a sequence of bytes).  A [map[string]T] is a [gmap string T]; reading
    a missing key gives the zero value, as in Go.  [uint] and [int] are
    the 64-bit types of the platforms VirtualBox runs on, modelled in [N]
    and [Z] with their range checks written out.  A function returning
    [(T, error)] returns an [outcome T]; a run-time panic is the third
    constructor of [outcome]. *)

From Stdlib Require Import ZArith NArith Ascii String List Lia Bool.
From stdpp Require Import base option list gmap strings fin_maps sorting.

Set Warnings "-register-all".
Open Scope string_scope.
Open Scope list_scope.

(** ** Errors and outcomes *)

(** The errors the modelled functions build.  Each constructor stands for
    one [fmt.Errorf]/[errors.Errorf] call site (or one library error) and
    carries the values the message is formatted from. *)
Inductive error : Type :=
| ErrSyntax (fn s : string)              (* strconv.ErrSyntax *)
| ErrRange (fn s : string)               (* strconv.ErrRange *)
| ErrScanf (s : string)                  (* fmt.Sscanf: input does not match format *)
| ErrTooLong                             (* bufio.ErrTooLong *)
| ErrCIDR (s : string)                   (* net.ParseCIDR: invalid CIDR address *)
| ErrRank (rank : N)                     (* "rank (%d) not allowed. Valid values are 1,2,3,4" *)
| ErrUartBadFormat (value : string)      (* "bad format ... expected: <IO Base hex>,<IRQ> but got : %s" *)
| ErrUartCouldNotParse (value : string) (splits : list string)
                       (errIOBase errIRQ : option error)
| ErrUartModeUnsupported (mode value : string)  (* "unsupported mode: %s, original vm info value:%s" *)
| ErrUartModeFormat (name value key : string)   (* "unsupported format (expetec is: ...) for uart mode" *)
| ErrUartTypeNotSupported (t : string)          (* "UARTType not supported: %s, supported are: %s" *)
| ErrKeyNotSupported (keyStr : string)          (* "key(original string value:%s, ...) is not supported" *)
| ErrModeFromString (modeStr : string)          (* "unsupported uart mode[%s]; supported are: %s" *)
| ErrTypeFromString (typeStr : string)          (* "uart type(%s) not supported; supported are:%s" *)
| ErrPortIrqPairing (portStr irqStr : string)   (* "port and irq must all be empty or all non empty" *)
| ErrPortCount (portCountStr : string) (cause : error)
                                                (* "could not convert portCount(%s) from string to integer" *)
| ErrControllerType (scType : string)           (* "controller type from vminfo not supported yet:%s" *)
| ErrDhcpAlreadyParsed (name : string) (known : list string) (out : string)
                                                (* "DHCPs -- illegal state, dhcp server already parse" *)
| ErrModifyUARTs (cause : error)                (* "Error getting UARTs Modify VM Command Parameters" *)
| ErrMulti (errs : list error).                 (* *multierror.Error *)

Inductive outcome (A : Type) : Type :=
| Ret (a : A)
| Fail (e : error)
| Crash.
Arguments Ret {A} a.
Arguments Fail {A} e.
Arguments Crash {A}.

#[global] Instance outcome_bind : MBind outcome := λ A B f x,
  match x with
  | Ret a => f a
  | Fail e => Fail e
  | Crash => Crash
  end.

Definition is_ret {A} (x : outcome A) : bool :=
  match x with Ret _ => true | _ => false end.
Definition is_fail {A} (x : outcome A) : bool :=
  match x with Fail _ => true | _ => false end.

(** ** Go's [strings] and [strconv] on byte strings *)

Module GoStr.

(** [strings.Split(s, sep)] for a one-byte separator: the parts between
    the occurrences of [sep]; always at least one part. *)
Fixpoint Split (sep : ascii) (s : string) : list string :=
  match s with
  | EmptyString => [EmptyString]
  | String c r =>
      if Ascii.eqb c sep then EmptyString :: Split sep r
      else match Split sep r with
           | h :: t => String c h :: t
           | [] => [String c EmptyString]
           end
  end.

(** [s[n:]], which panics when [n > len(s)]. *)
Fixpoint sliceFrom (n : nat) (s : string) : outcome string :=
  match n, s with
  | O, _ => Ret s
  | S n', String _ r => sliceFrom n' r
  | S _, EmptyString => Crash
  end.

Definition digitChar (d : N) : ascii :=
  match d with
  | 0 => "0" | 1 => "1" | 2 => "2" | 3 => "3" | 4 => "4" | 5 => "5"
  | 6 => "6" | 7 => "7" | 8 => "8" | 9 => "9" | 10 => "a" | 11 => "b"
  | 12 => "c" | 13 => "d" | 14 => "e" | _ => "f"
  end%N%char.

(** The digit loop of [fmt]'s [fmtInteger] / [strconv.FormatUint]: the
    digits of [n] in [base], most significant first, [n = 0] giving one
    digit.  [fuel] bounds the number of digits. *)
Fixpoint fmtDigits (base : N) (fuel : nat) (n : N) (acc : string) : string :=
  match fuel with
  | O => acc
  | S f =>
      let acc' := String (digitChar (n mod base)) acc in
      if (n / base =? 0)%N then acc' else fmtDigits base f (n / base) acc'
  end.

Definition fmtUint (base : N) (n : N) : string :=
  fmtDigits base (S (N.to_nat (N.log2 n))) n EmptyString.

Fixpoint zeros (k : nat) : string :=
  match k with O => EmptyString | S k' => String "0"%char (zeros k') end.

(** [%0<w>x] and [%d] of an unsigned value. *)
Definition fmtHexPad (w : nat) (n : N) : string :=
  let d := fmtUint 16 n in zeros (w - String.length d) +:+ d.
Definition fmtDec (n : N) : string := fmtUint 10 n.

(** The value of a digit byte in [strconv.ParseUint]:
    ['0'..'9'], and letters of either case from 10 on. *)
Definition digitVal (c : ascii) : option N :=
  let n := N_of_ascii c in
  if ((48 <=? n) && (n <=? 57))%N then Some (n - 48)%N
  else if ((97 <=? n) && (n <=? 122))%N then Some (n - 97 + 10)%N
  else if ((65 <=? n) && (n <=? 90))%N then Some (n - 65 + 10)%N
  else None.

(** The loop of [strconv.ParseUint(s, base, bitSize)] for an explicit
    base: a byte that is no digit of the base is a syntax error, a value
    above [maxVal] a range error, whichever comes first. *)
Fixpoint parseLoop (fn s0 : string) (base maxVal : N) (s : string) (n : N)
  : outcome N :=
  match s with
  | EmptyString => Ret n
  | String c r =>
      match digitVal c with
      | None => Fail (ErrSyntax fn s0)
      | Some d =>
          if (base <=? d)%N then Fail (ErrSyntax fn s0)
          else if (maxVal <? n * base + d)%N then Fail (ErrRange fn s0)
          else parseLoop fn s0 base maxVal r (n * base + d)%N
      end
  end.

Definition ParseUint (s : string) (base : N) (bitSize : N) : outcome N :=
  match s with
  | EmptyString => Fail (ErrSyntax "ParseUint" s)
  | _ => parseLoop "ParseUint" s base (2 ^ bitSize - 1)%N s 0%N
  end.

(** [strconv.Atoi]: an optional sign, then decimal digits, within the
    range of a 64-bit [int]. *)
Definition Atoi (s : string) : outcome Z :=
  match s with
  | EmptyString => Fail (ErrSyntax "Atoi" s)
  | String c r =>
      let neg := Ascii.eqb c "-"%char in
      let body := if (Ascii.eqb c "-" || Ascii.eqb c "+")%char then r else s in
      match body with
      | EmptyString => Fail (ErrSyntax "Atoi" s)
      | _ =>
          match parseLoop "Atoi" s 10 (2 ^ 64 - 1)%N body 0%N with
          | Ret un =>
              if neg then
                if (2 ^ 63 <? un)%N then Fail (ErrRange "Atoi" s)
                else Ret (- Z.of_N un)%Z
              else
                if (2 ^ 63 <=? un)%N then Fail (ErrRange "Atoi" s)
                else Ret (Z.of_N un)
          | Fail e => Fail e
          | Crash => Crash
          end
      end
  end.

(** [strconv.Itoa] on the non-negative indices the code formats. *)
Definition Itoa (n : nat) : string := fmtDec (N.of_nat n).

(** [%d] of an [int]. *)
Definition fmtInt (z : Z) : string :=
  if (z <? 0)%Z then "-" +:+ fmtDec (Z.to_N (- z)) else fmtDec (Z.to_N z).

Definition hasByte (c : ascii) (s : string) : bool :=
  existsb (Ascii.eqb c) (list_ascii_of_string s).

(** Used in the proofs: hexadecimal digit bytes, a test on every byte
    of a string, and the value of a digit string read after [a], without
    range check. *)
Definition isHexDigit (c : ascii) : bool :=
  match digitVal c with Some d => (d <? 16)%N | None => false end.

Fixpoint allBytes (P : ascii → bool) (s : string) : bool :=
  match s with
  | EmptyString => true
  | String c r => P c && allBytes P r
  end.

Fixpoint evalDigits (base : N) (s : string) (a : N) : option N :=
  match s with
  | EmptyString => Some a
  | String c r =>
      match digitVal c with
      | Some d => if (base <=? d)%N then None else evalDigits base r (a * base + d)%N
      | None => None
      end
  end.

End GoStr.

(** ** The command argument builder ([natnet.go], second part) *)

Module CmdLine.

(** [CmdArg]: [V = None] is Go's nil pointer (an argument without a
    value); [ToCmdArgParts = None] is the nil function. *)
Record CmdArg : Type := mkCmdArg {
  K : string;
  V : option string;
  ToCmdArgParts : option (string → string → list string);
  Del : bool
}.

Record CmdArgs : Type := mkCmdArgs {
  args : list CmdArg;
  overrides : list CmdArg
}.

(** The zero values [CmdArg{}] and [CmdArgs{}]. *)
Definition zeroCmdArg : CmdArg := mkCmdArg "" None None false.
Definition emptyCmdArgs : CmdArgs := mkCmdArgs [] [].

Definition NewCmdArgNoValue (k : string) : CmdArg := mkCmdArg k None None false.
Definition NewCmdArg (k v : string) : CmdArg := mkCmdArg k (Some v) None false.
Definition NewCmdArgDeleted (k : string) : CmdArg := mkCmdArg k None None true.

Definition AppendNoValue (key : string) (c : CmdArgs) : CmdArgs :=
  mkCmdArgs (args c ++ [NewCmdArgNoValue key]) (overrides c).

Definition Append (key value : string) (c : CmdArgs) : CmdArgs :=
  mkCmdArgs (args c ++ [NewCmdArg key value]) (overrides c).

Definition AppendCmdArgs (arg : list CmdArg) (c : CmdArgs) : CmdArgs :=
  match arg with
  | [] => c
  | _ => mkCmdArgs (args c ++ arg) (overrides c)
  end.

Definition AppendOverride (arg : list CmdArg) (c : CmdArgs) : CmdArgs :=
  match arg with
  | [] => c
  | _ => mkCmdArgs (args c) (overrides c ++ arg)
  end.

(** The state of the first loop of [Args]: the map [m] and the slice
    [orderK]. *)
Definition scanState : Type := gmap string CmdArg * list string.

(** One iteration of the inner loop. *)
Definition scanArg (st : scanState) (arg : CmdArg) : scanState :=
  let '(m, orderK) := st in
  let orderK' :=
    match m !! K arg with
    | Some _ => orderK
    | None => orderK ++ [K arg]
    end in
  (<[K arg := arg]> m, orderK').

(** Both loops: the base sequence, then the overrides. *)
Definition scanAll (c : CmdArgs) : scanState :=
  fold_left scanArg (overrides c) (fold_left scanArg (args c) (∅, [])).

(** What one argument contributes to the command line. *)
Definition render (arg : CmdArg) : list string :=
  match V arg with
  | None => [K arg]
  | Some v =>
      match ToCmdArgParts arg with
      | None => [K arg; v]
      | Some f => f (K arg) v
      end
  end.

(** The second loop of [Args]; [m[k]] of a missing key is the zero
    argument. *)
Fixpoint emit (m : gmap string CmdArg) (orderK : list string) : list string :=
  match orderK with
  | [] => []
  | k :: ks =>
      let arg := default zeroCmdArg (m !! k) in
      if Del arg then emit m ks else render arg ++ emit m ks
  end.

Definition Args (c : CmdArgs) : list string :=
  let '(m, orderK) := scanAll c in emit m orderK.

(** The calls a client can make on a [CmdArgs] value. *)
Inductive call : Type :=
| CallAppend (key value : string)
| CallAppendNoValue (key : string)
| CallAppendCmdArgs (arg : list CmdArg)
| CallAppendOverride (arg : list CmdArg).

Definition doCall (c : CmdArgs) (x : call) : CmdArgs :=
  match x with
  | CallAppend k v => Append k v c
  | CallAppendNoValue k => AppendNoValue k c
  | CallAppendCmdArgs l => AppendCmdArgs l c
  | CallAppendOverride l => AppendOverride l c
  end.

Definition runCalls (calls : list call) : CmdArgs :=
  fold_left doCall calls emptyCmdArgs.

(** The base sequence and the override sequence a list of calls builds. *)
Definition baseOf (x : call) : list CmdArg :=
  match x with
  | CallAppend k v => [NewCmdArg k v]
  | CallAppendNoValue k => [NewCmdArgNoValue k]
  | CallAppendCmdArgs l => l
  | CallAppendOverride _ => []
  end.

Definition overrideOf (x : call) : list CmdArg :=
  match x with
  | CallAppendOverride l => l
  | _ => []
  end.

(** *** Reading the result of [Args] key by key *)

(** The last argument with key [k] in a sequence. *)
Fixpoint lastWithKey (k : string) (l : list CmdArg) : option CmdArg :=
  match l with
  | [] => None
  | a :: r =>
      match lastWithKey k r with
      | Some b => Some b
      | None => if String.eqb (K a) k then Some a else None
      end
  end.

(** The argument that [Args] ends up storing for [k]: the last override
    with that key, or else the last base argument with it. *)
Definition winner (c : CmdArgs) (k : string) : option CmdArg :=
  match lastWithKey k (overrides c) with
  | Some o => Some o
  | None => lastWithKey k (args c)
  end.

(** The fragments of the command line: one per surviving key, in the
    order of [orderK]. *)
Definition fragments (c : CmdArgs) : list (string * list string) :=
  let '(m, orderK) := scanAll c in
  omap (λ k, let arg := default zeroCmdArg (m !! k) in
             if Del arg then None else Some (k, render arg)) orderK.

(** The invariant of the first loop of [Args]: [orderK] lists the keys
    of [m], each once. *)
Definition scanInv (st : scanState) : Prop :=
  NoDup st.2 ∧ ∀ k, k ∈ st.2 ↔ is_Some (st.1 !! k).

(** Two base arguments and an override that deletes the first. *)
Definition deletedOverride : CmdArgs :=
  runCalls [CallAppend "--vram" "16"; CallAppend "--cpus" "2";
            CallAppendOverride [NewCmdArgDeleted "--vram"]].

(** The same, with a boot slot whose value is the string of the deleted
    key; and an override that deletes a key, followed by one that sets
    it again. *)
Definition deletedButRendered : CmdArgs :=
  runCalls [CallAppend "--vram" "16"; CallAppend "--boot1" "--vram";
            CallAppendOverride [NewCmdArgDeleted "--vram"]].

Definition deletedThenSet : CmdArgs :=
  runCalls [CallAppend "--vram" "16";
            CallAppendOverride [NewCmdArgDeleted "--vram"; NewCmdArg "--vram" "32"]].

(** Two arguments, the value of the first being the key of the second. *)
Definition valueIsKey : list call :=
  [CallAppend "--a" "--b"; CallAppend "--b" "x"].

(** Two [Append] calls with one key, then an override with that key. *)
Definition twiceThenOverride : list call :=
  [CallAppend "--memory" "512"; CallAppend "--memory" "1024";
   CallAppendOverride [NewCmdArg "--memory" "2048"]].

(** The keys of a sequence, each at its first occurrence. *)
Fixpoint firstOccurrences (ks : list string) : list string :=
  match ks with
  | [] => []
  | k :: r => k :: filter (λ x, x ≠ k) (firstOccurrences r)
  end.

(** Whether the argument stored for [k] survives: it is there and not
    deleted. *)
Definition survives (c : CmdArgs) (k : string) : bool :=
  match winner c k with
  | Some a => negb (Del a)
  | None => false
  end.

(** The fragment [Args] emits for the key [k], if any. *)
Definition fragmentAt (c : CmdArgs) (k : string) : option (string * list string) :=
  match winner c k with
  | Some b => if Del b then None else Some (k, render b)
  | None => None
  end.

(** Three arguments with distinct keys, one of them an override. *)
Definition distinctArgs : CmdArgs :=
  runCalls [CallAppend "--cpus" "1"; CallAppendNoValue "--nested";
            CallAppendOverride [NewCmdArg "--vram" "16"]].

End CmdLine.

(** ** UARTs ([uart.go], first part) *)

Module Uart.
Import GoStr.

(** [UARTKey], [UARTType] and [UARTMode] are Go string types: any string
    inhabits them, the supported ones are the constants below. *)
Definition UARTKey : Type := string.
Definition UARTType : Type := string.
Definition UARTMode : Type := string.

Definition UART1 : UARTKey := "uart1".
Definition UART2 : UARTKey := "uart2".
Definition UART3 : UARTKey := "uart3".
Definition UART4 : UARTKey := "uart4".

Definition KnownUARTKeys : list UARTKey := [UART1; UART2; UART3; UART4].

Definition IsSupportedKey (key : UARTKey) : bool :=
  String.eqb key UART1 || String.eqb key UART2 ||
  String.eqb key UART3 || String.eqb key UART4.

(** [ToRank] panics on an unknown key. *)
Definition ToRank (key : UARTKey) : outcome N :=
  if String.eqb key UART1 then Ret 1%N
  else if String.eqb key UART2 then Ret 2%N
  else if String.eqb key UART3 then Ret 3%N
  else if String.eqb key UART4 then Ret 4%N
  else Crash.

Definition UARTKeyFromRank (rank : N) : outcome UARTKey :=
  match rank with
  | 1 => Ret UART1
  | 2 => Ret UART2
  | 3 => Ret UART3
  | 4 => Ret UART4
  | _ => Fail (ErrRank rank)
  end%N.

Record BasicSerialComConfig : Type := mkComConfig {
  Port : N;
  IRQ : N
}.

Definition zeroComConfig : BasicSerialComConfig := mkComConfig 0 0.

Definition comConfig_eqb (a b : BasicSerialComConfig) : bool :=
  (Port a =? Port b)%N && (IRQ a =? IRQ b)%N.

Definition PortAsIoBaseHexString (cc : BasicSerialComConfig) : string :=
  "0x" +:+ fmtHexPad 4 (Port cc).
Definition IRQAsString (cc : BasicSerialComConfig) : string := fmtDec (IRQ cc).

Definition COM1 : BasicSerialComConfig := mkComConfig 0x3F8 4.
Definition COM2 : BasicSerialComConfig := mkComConfig 0x2F8 3.
Definition COM3 : BasicSerialComConfig := mkComConfig 0x3E8 4.
Definition COM4 : BasicSerialComConfig := mkComConfig 0x2E8 3.

Definition errOf {A} (x : outcome A) : option error :=
  match x with Fail e => Some e | _ => None end.

(** [initFromVMInfoValue]: the configuration the receiver holds after a
    nil return.  [splits[0][2:]] panics when the first part is shorter
    than two bytes. *)
Definition initFromVMInfoValue (vmInfoValue : string)
  : outcome BasicSerialComConfig :=
  match Split "," vmInfoValue with
  | [s0; s1] =>
      hex ← sliceFrom 2 s0;
      let ioBase := ParseUint hex 16 64 in
      let irq := ParseUint s1 10 32 in
      match ioBase, irq with
      | Ret p, Ret i => Ret (mkComConfig p i)
      | _, _ => Fail (ErrUartCouldNotParse vmInfoValue [s0; s1]
                                           (errOf ioBase) (errOf irq))
      end
  | _ => Fail (ErrUartBadFormat vmInfoValue)
  end.

Definition UARTT16450 : UARTType := "16450".
Definition UARTT16550A : UARTType := "16550A".
Definition UARTT16750 : UARTType := "16750".
Definition UARTTDefault : UARTType := UARTT16550A.

Definition UARTTypeAllSupported : list UARTType :=
  [UARTT16450; UARTT16550A; UARTT16750].

Definition IsSupportedUARTType (uartType : UARTType) : bool :=
  String.eqb uartType UARTT16450 || String.eqb uartType UARTT16550A ||
  String.eqb uartType UARTT16750.

(** A Go pair [(value, err)]. *)
Definition UARTTypeFromStringIfSupported (uartTypeStr : string)
  : UARTType * option error :=
  (uartTypeStr,
   if IsSupportedUARTType uartTypeStr then None
   else Some (ErrTypeFromString uartTypeStr)).

Definition UARTModeServer : UARTMode := "server".
Definition UARTModeClient : UARTMode := "client".
Definition UARTModeTCPServer : UARTMode := "tcpserver".
Definition UARTModeTCPClient : UARTMode := "tcpclient".
Definition UARTModeFile : UARTMode := "file".
Definition UARTModeDisconnected : UARTMode := "disconnected".

Definition UARTModelAllSupported : list UARTMode :=
  [UARTModeServer; UARTModeClient; UARTModeTCPClient; UARTModeServer;
   UARTModeFile; UARTModeDisconnected].

(** As in the source, ["client"] is answered with [UARTModeServer]. *)
Definition UARTModeFromStringIfSupported (uartModeStr : string)
  : UARTMode * option error :=
  if String.eqb uartModeStr "server" then (UARTModeServer, None)
  else if String.eqb uartModeStr "client" then (UARTModeServer, None)
  else if String.eqb uartModeStr "tcpserver" then (UARTModeTCPServer, None)
  else if String.eqb uartModeStr "tcpclient" then (UARTModeTCPClient, None)
  else if String.eqb uartModeStr "file" then (UARTModeFile, None)
  else if String.eqb uartModeStr "disconnected" then (UARTModeDisconnected, None)
  else ("", Some (ErrModeFromString uartModeStr)).

Record UART : Type := mkUART {
  ComConfig : BasicSerialComConfig;
  Type_ : UARTType;
  Mode : UARTMode;
  ModeData : string;
  Key : UARTKey
}.

Definition UARTs : Type := list UART.

Definition UARTOffFromKey (key : UARTKey) : UART :=
  mkUART zeroComConfig "" "" "" key.

Definition IsOff (uart : UART) : bool :=
  comConfig_eqb zeroComConfig (ComConfig uart).

(** [WithoutUARTHavingStateOff] compacts the slice in place.  The state
    of its loop is the backing array and the write index [n]; iteration
    [i] reads element [i] of the array and, unless that UART is off,
    writes it at [n].  Reading or writing past the end of the slice
    panics.  The result is the slice cut to [n]. *)
Definition compactStep (st : outcome (list UART * nat)) (i : nat)
  : outcome (list UART * nat) :=
  st ← st;
  match st.1 !! i with
  | None => Crash
  | Some uart =>
      if IsOff uart then Ret st
      else if decide (st.2 < length st.1)%nat
           then Ret (<[st.2 := uart]> st.1, S st.2)
           else Crash
  end.

Definition WithoutUARTHavingStateOff (uarts : UARTs) : outcome UARTs :=
  st ← fold_left compactStep (seq 0 (length uarts)) (Ret (uarts, 0%nat));
  Ret (take st.2 st.1).

(** [fmt.Sprintf("--uart%d", rank)] and its siblings. *)
Definition withRank (prefix : string) (rank : N) : string :=
  prefix +:+ fmtDec rank.

Definition commandParameterUartN (uart : UART) : outcome (string * string) :=
  if IsOff uart then
    rank ← ToRank (Key uart); Ret (withRank "--uart" rank, "off")
  else
    rank ← ToRank (Key uart);
    Ret (withRank "--uart" rank,
         "0x" +:+ fmtHexPad 4 (Port (ComConfig uart)) +:+ " " +:+
         fmtDec (IRQ (ComConfig uart))).

Definition commandParameterUARTModeN (uart : UART) : outcome (string * string) :=
  if IsOff uart then Ret ("", "")
  else if String.eqb (Mode uart) UARTModeDisconnected then
    rank ← ToRank (Key uart);
    Ret (withRank "--uartmode" rank, UARTModeDisconnected)
  else
    rank ← ToRank (Key uart);
    Ret (withRank "--uartmode" rank, Mode uart +:+ " " +:+ ModeData uart).

Definition commandParameterUARTTypeN (uart : UART) : outcome (string * string) :=
  if IsOff uart then Ret ("", "")
  else
    rank ← ToRank (Key uart);
    Ret (withRank "--uarttype" rank, Type_ uart).

Definition validate (uart : UART) : option error := None.

(** The three (name, value) pairs [commandParameters] asks for, in the
    order of [commandFuncs]. *)
Definition commandFuncs (uart : UART) : list (outcome (string * string)) :=
  [commandParameterUartN uart; commandParameterUARTModeN uart;
   commandParameterUARTTypeN uart].

(** The loop of [commandParameters] over the remaining functions. *)
Fixpoint appendCommands (funcs : list (outcome (string * string)))
         (commands : list string) : outcome (list string) :=
  match funcs with
  | [] => Ret commands
  | f :: rest =>
      p ← f;
      if String.eqb p.1 "" then appendCommands rest commands
      else appendCommands rest (commands ++ [p.1] ++ Split " " p.2)
  end.

Definition commandParameters (uart : UART) : outcome (list string) :=
  match validate uart with
  | Some err => Fail err
  | None => appendCommands (commandFuncs uart) []
  end.

Fixpoint ModifyVMCommandParameters_loop (uarts : UARTs) (cmdParams : list string)
  : outcome (list string) :=
  match uarts with
  | [] => Ret cmdParams
  | uartn :: rest =>
      cmdParamsUARTn ← commandParameters uartn;
      ModifyVMCommandParameters_loop rest (cmdParams ++ cmdParamsUARTn)
  end.

Definition ModifyVMCommandParameters (uarts : UARTs) : outcome (list string) :=
  ModifyVMCommandParameters_loop uarts [].

Definition NewUARTsAllOff : UARTs :=
  [UARTOffFromKey UART1; UARTOffFromKey UART2;
   UARTOffFromKey UART3; UARTOffFromKey UART4].

Definition isKnownMode (mode : string) : bool :=
  String.eqb mode UARTModeClient || String.eqb mode UARTModeDisconnected ||
  String.eqb mode UARTModeFile || String.eqb mode UARTModeServer ||
  String.eqb mode UARTModeTCPClient || String.eqb mode UARTModeTCPServer.

Definition initUARTModeFromVMInfoMap (uart : UART) (vmPropMap : gmap string string)
  : outcome UART :=
  rank ← ToRank (Key uart);
  let modeName := withRank "uartmode" rank in
  match vmPropMap !! modeName with
  | None => Ret uart
  | Some modeStrValue =>
      if String.eqb UARTModeDisconnected modeStrValue then
        Ret (mkUART (ComConfig uart) (Type_ uart) UARTModeDisconnected
                    (ModeData uart) (Key uart))
      else
        match Split "," modeStrValue with
        | [mode; data] =>
            if isKnownMode mode then
              Ret (mkUART (ComConfig uart) (Type_ uart) mode data (Key uart))
            else Fail (ErrUartModeUnsupported mode modeStrValue)
        | _ => Fail (ErrUartModeFormat modeName modeStrValue (Key uart))
        end
  end.

Definition initUARTTypeFromVMInfoMap (uart : UART) (vmPropMap : gmap string string)
  : outcome UART :=
  rank ← ToRank (Key uart);
  let typeName := withRank "uarttype" rank in
  match vmPropMap !! typeName with
  | None => Ret uart
  | Some typeValue =>
      if IsSupportedUARTType typeValue then
        Ret (mkUART (ComConfig uart) typeValue (Mode uart) (ModeData uart) (Key uart))
      else Fail (ErrUartTypeNotSupported typeValue)
  end.

(** The body of the loop of [NewUARTs] for rank [i]. *)
Definition newUARTAt (vmPropMap : gmap string string) (i : N) : outcome UART :=
  key ← UARTKeyFromRank i;
  let uart := UARTOffFromKey key in
  match vmPropMap !! key with
  | Some uartI =>
      if String.eqb uartI "off" then Ret uart
      else
        cc ← initFromVMInfoValue uartI;
        let uart := mkUART cc (Type_ uart) (Mode uart) (ModeData uart) (Key uart) in
        uart ← initUARTModeFromVMInfoMap uart vmPropMap;
        initUARTTypeFromVMInfoMap uart vmPropMap
  | None => Ret uart
  end.

Fixpoint NewUARTs_loop (vmPropMap : gmap string string) (ranks : list N)
         (uarts : UARTs) : outcome UARTs :=
  match ranks with
  | [] => Ret uarts
  | i :: rest =>
      uart ← newUARTAt vmPropMap i;
      NewUARTs_loop vmPropMap rest (uarts ++ [uart])
  end.

Definition NewUARTs (vmPropMap : gmap string string) : outcome UARTs :=
  NewUARTs_loop vmPropMap [1; 2; 3; 4]%N [].

(** [multierror.Append] skips nil errors; [ErrorOrNil] is nil for an
    empty collection. *)
Definition multiAppend (errs : list error) (err : option error) : list error :=
  match err with Some e => errs ++ [e] | None => errs end.

Definition ErrorOrNil (errs : list error) : option error :=
  match errs with [] => None | _ => Some (ErrMulti errs) end.

(** The value [strconv.ParseUint] returns next to its error: the
    maximum on a range error, zero on a syntax error. *)
Definition parsedValue (bitSize : N) (r : outcome N) : N :=
  match r with
  | Ret n => n
  | Fail (ErrRange _ _) => (2 ^ bitSize - 1)%N
  | _ => 0%N
  end.

(** [port] after [Sscanf]: the scanned value, or the zero it was declared
    with when scanning failed. *)
Definition scannedValue (r : outcome N) : N :=
  match r with
  | Ret n => n
  | _ => 0%N
  end.

Section NewUART.
(** [fmt.Sscanf(portStr, "0x%x", &port)] belongs to Go's library: it is
    a parameter here, giving the scanned value or the error. *)
Variable Sscanf0x : string → outcome N.

(** Go returns a pointer to the UART and an error; both can be non-nil. *)
Definition NewUART (keyStr typeStr portStr irqStr modeStr modeDataStr : string)
  : option UART * option error :=
  if negb (IsSupportedKey keyStr) then
    (None, Some (ErrKeyNotSupported keyStr))
  else
    let '(mode, err) := UARTModeFromStringIfSupported modeStr in
    let multierr := multiAppend [] err in
    let '(cc, multierr) :=
      if negb (String.eqb portStr "") && negb (String.eqb irqStr "") then
        let scanned := Sscanf0x portStr in
        let multierr := multiAppend multierr (errOf scanned) in
        let irq := ParseUint irqStr 10 64 in
        let multierr := multiAppend multierr (errOf irq) in
        (mkComConfig (scannedValue scanned) (parsedValue 64 irq), multierr)
      else if (negb (String.eqb portStr "") && String.eqb irqStr "")
              || (String.eqb portStr "" && negb (String.eqb irqStr "")) then
        (zeroComConfig, multiAppend multierr (Some (ErrPortIrqPairing portStr irqStr)))
      else (zeroComConfig, multierr) in
    let '(ty, err) := UARTTypeFromStringIfSupported typeStr in
    let multierr := multiAppend multierr err in
    (Some (mkUART cc ty mode modeDataStr keyStr), ErrorOrNil multierr).
End NewUART.

(** The errors [NewUART] collects for a supported key, by source: the
    mode, the port and IRQ (or their pairing), the type. *)
Definition modeErrors (modeStr : string) : list error :=
  multiAppend [] (UARTModeFromStringIfSupported modeStr).2.

Definition comErrors (Sscanf0x : string → outcome N) (portStr irqStr : string)
  : list error :=
  if negb (String.eqb portStr "") && negb (String.eqb irqStr "") then
    multiAppend (multiAppend [] (errOf (Sscanf0x portStr)))
                (errOf (ParseUint irqStr 10 64))
  else if String.eqb portStr "" && String.eqb irqStr "" then []
  else [ErrPortIrqPairing portStr irqStr].

Definition typeErrors (typeStr : string) : list error :=
  multiAppend [] (UARTTypeFromStringIfSupported typeStr).2.

(** [Sscanf] on an input of the form [0x<hex digits>], for the examples:
    whatever else it is given is reported as not matching. *)
Definition scanHex (portStr : string) : outcome N :=
  match portStr with
  | String "0" (String "x" r) =>
      match ParseUint r 16 64 with
      | Ret n => Ret n
      | _ => Fail (ErrScanf portStr)
      end
  | _ => Fail (ErrScanf portStr)
  end.

(** The tokens that follow [--uartmode<N>]. *)
Definition modeTokens (uart : UART) : list string :=
  if String.eqb (Mode uart) UARTModeDisconnected then [UARTModeDisconnected]
  else [Mode uart; ModeData uart].

(** *** The machine-readable form of a UART

    [showvminfo --machinereadable] prints a serial port as the properties
    [uart<N>="0x03f8,4"], [uartmode<N>="file,/tmp/x"] (or
    ["disconnected"]) and [uarttype<N>="16550A"]: the formats quoted in
    the comments of [initFromVMInfoValue], [initUARTModeFromVMInfoMap] and
    [initUARTTypeFromVMInfoMap].  [toVMInfoValueUARTn] is the helper of
    the package's tests. *)
Definition toVMInfoValueUARTn (comConfig : BasicSerialComConfig) : string :=
  "0x" +:+ fmtHexPad 4 (Port comConfig) +:+ "," +:+ fmtDec (IRQ comConfig).

Definition vmInfoModeValue (uart : UART) : string :=
  if String.eqb (Mode uart) UARTModeDisconnected then UARTModeDisconnected
  else Mode uart +:+ "," +:+ ModeData uart.

Definition vmInfoProps (rank : N) (uart : UART) : gmap string string :=
  <[withRank "uart" rank := toVMInfoValueUARTn (ComConfig uart)]>
    (<[withRank "uartmode" rank := vmInfoModeValue uart]>
       (<[withRank "uarttype" rank := Type_ uart]> ∅)).

(** The (name, value) pairs [commandParameters] serializes, read as a
    property map. *)
Definition commandPairs (uart : UART) : outcome (list (string * string)) :=
  a ← commandParameterUartN uart;
  b ← commandParameterUARTModeN uart;
  c ← commandParameterUARTTypeN uart;
  Ret [a; b; c].

Definition propsOfPairs (pairs : list (string * string)) : gmap string string :=
  list_to_map pairs.

(** The same pairs with the leading ["--"] of each name removed. *)
Definition dropDashes (name : string) : string :=
  match name with
  | String "-" (String "-" r) => r
  | _ => name
  end.

Definition propsOfStrippedPairs (pairs : list (string * string)) : gmap string string :=
  list_to_map ((λ p, (dropDashes p.1, p.2)) <$> pairs).

(** Serializing with [commandParameters], then decoding with [NewUARTs]. *)
Definition decodePairs (uart : UART) : outcome UARTs :=
  pairs ← commandPairs uart; NewUARTs (propsOfPairs pairs).

Definition decodeStrippedPairs (uart : UART) : outcome UARTs :=
  pairs ← commandPairs uart; NewUARTs (propsOfStrippedPairs pairs).

(** The UART of the package's tests: COM2 in slot 2, writing to a file. *)
Definition uart2File : UART :=
  mkUART COM2 UARTT16550A UARTModeFile "/tmp/uart1" UART2.

(** COM1 in slot 1, writing to a file whose name holds a blank. *)
Definition uart1FileWithBlank : UART :=
  mkUART COM1 UARTT16550A UARTModeFile "/tmp/my file" UART1.

(** [NewUARTsFromUARTMap] ranges over a Go map, whose iteration order is
    not specified: [NewUARTsFromUARTMap_in] runs the loop over the entries
    in a given order.  The error of an unsupported key names the key.
    [uarts[key.ToRank()-1] = uart] panics outside the slice. *)
Inductive mapKeyError : Type :=
| ErrMapKeyUnsupported (key : UARTKey).

Definition fromMapStep (st : outcome (UARTs * list mapKeyError))
           (entry : UARTKey * UART) : outcome (UARTs * list mapKeyError) :=
  st ← st;
  if negb (IsSupportedKey entry.1) then
    Ret (st.1, st.2 ++ [ErrMapKeyUnsupported entry.1])
  else
    rank ← ToRank entry.1;
    let i := (N.to_nat rank - 1)%nat in
    if decide (i < length st.1)%nat then Ret (<[i := entry.2]> st.1, st.2)
    else Crash.

Definition NewUARTsFromUARTMap_in (entries : list (UARTKey * UART))
  : outcome (UARTs * list mapKeyError) :=
  fold_left fromMapStep entries (Ret (NewUARTsAllOff, [])).

Definition NewUARTsFromUARTMap (uartMap : gmap UARTKey UART)
  : outcome (UARTs * list mapKeyError) :=
  NewUARTsFromUARTMap_in (map_to_list uartMap).

(** The UART a slot holds after [NewUARTsFromUARTMap]. *)
Definition slotOf (uartMap : gmap UARTKey UART) (key : UARTKey) : UART :=
  default (UARTOffFromKey key) (uartMap !! key).

(** The four slots. *)
Definition slots (m : gmap UARTKey UART) : UARTs :=
  [slotOf m UART1; slotOf m UART2; slotOf m UART3; slotOf m UART4].

(** The map of the package's test, and one with a key outside the four. *)
Definition uartMapTest : gmap UARTKey UART :=
  {[ UART2 := uart2File ]}.
Definition uartMapBadKey : gmap UARTKey UART :=
  <[ "uart7" := uart2File ]> {[ UART3 := mkUART COM3 UARTT16450 UARTModeDisconnected "" UART3 ]}.

(** What [NewUARTs] guarantees of a UART it returns: a type and a mode
    that are empty or in the vocabulary, mode data without comma, an I/O
    base of 64 and an IRQ of 32 bits. *)
Definition inVocabulary (u : UART) : bool :=
  (String.eqb (Type_ u) "" || IsSupportedUARTType (Type_ u)) &&
  (String.eqb (Mode u) "" || isKnownMode (Mode u)) &&
  negb (hasByte "," (ModeData u)) &&
  (Port (ComConfig u) <? 2 ^ 64)%N && (IRQ (ComConfig u) <? 2 ^ 32)%N.

(** Properties that switch every serial port off, with settings left
    behind for ports 1 and 3 and an unrelated key. *)
Definition propsAllOff : gmap string string :=
  list_to_map [("uart1", "off"); ("uartmode1", "no,such,mode");
               ("uart2", "off"); ("uarttype3", "8250"); ("name", "vm")].

(** Properties of a machine with COM1 on a pipe, as client, and COM2
    disconnected. *)
Definition propsTwoPorts : gmap string string :=
  list_to_map [("uart1", "0x03f8,4"); ("uartmode1", "client,/tmp/pipe");
               ("uarttype1", "16550A");
               ("uart2", "0x02f8,3"); ("uartmode2", "disconnected")].

End Uart.

(** ** Storage controllers ([uart.go], second part) *)

Module Storage.
Import GoStr.

Definition SystemBus : Type := string.
Definition StorageControllerChipset : Type := string.

Definition SysBusIDE : SystemBus := "ide".
Definition SysBusSATA : SystemBus := "sata".
Definition SysBusSCSI : SystemBus := "scsi".
Definition SysBusFloppy : SystemBus := "floppy".
Definition SysBusSAS : SystemBus := "sas".
Definition SysBusUSB : SystemBus := "usb".
Definition SysBusPCI : SystemBus := "pcie".
Definition SysBusVirtioSCSI : SystemBus := "virtio".

Definition CtrlLSILogic : StorageControllerChipset := "LSILogic".
Definition CtrlLSILogicSAS : StorageControllerChipset := "LSILogicSAS".
Definition CtrlBusLogic : StorageControllerChipset := "BusLogic".
Definition CtrlIntelAHCI : StorageControllerChipset := "IntelAHCI".
Definition CtrlPIIX3 : StorageControllerChipset := "PIIX3".
Definition CtrlPIIX4 : StorageControllerChipset := "PIIX4".
Definition CtrlICH6 : StorageControllerChipset := "ICH6".
Definition CtrlI82078 : StorageControllerChipset := "I82078".
Definition CtlrUSB : StorageControllerChipset := "USB".
Definition CtlrNVMe : StorageControllerChipset := "NVMe".
Definition CtrlVirtioSCSI : StorageControllerChipset := "VirtIO".

Record StorageMedium : Type := mkMedium {
  Port : N;
  Device : N;
  DriveType : string;
  Medium : string;
  UUID : string
}.

Record StorageController : Type := mkController {
  Name : string;
  SysBus : SystemBus;
  Ports : N;
  Chipset : StorageControllerChipset;
  HostIOCache : bool;
  Bootable : bool;
  Devices : list StorageMedium
}.

Definition StorageControllers : Type := list StorageController.

Definition IsNone (sm : StorageMedium) : bool :=
  String.eqb (UUID sm) "" && String.eqb (Medium sm) "none".

(** [vmPropMap[k]]: the empty string for a missing key. *)
Definition prop (vmPropMap : gmap string string) (k : string) : string :=
  default "" (vmPropMap !! k).

Definition maxDevicePerPort (bus : SystemBus) : nat :=
  if String.eqb bus SysBusIDE || String.eqb bus SysBusFloppy then 2 else 1.

(** The body of the inner loop of [findStorageMedia] for port [p] and
    device [d]: the medium to append, if any. *)
Definition mediumAt (name : string) (vmPropMap : gmap string string) (p d : nat)
  : option StorageMedium :=
  let indexSuffix := "-" +:+ Itoa p +:+ "-" +:+ Itoa d in
  match vmPropMap !! (name +:+ indexSuffix) with
  | None => None
  | Some medium =>
      let uuid := prop vmPropMap (name +:+ "-ImageUUID" +:+ indexSuffix) in
      let sm := mkMedium (N.of_nat p) (N.of_nat d) "" medium uuid in
      if IsNone sm then None else Some sm
  end.

(** [int] arithmetic wraps around at 64 bits. *)
Definition wrapInt (z : Z) : Z := ((z + 2 ^ 63) mod 2 ^ 64 - 2 ^ 63)%Z.

Section Alloc.
(** The largest capacity [make([]StorageMedium, 0, cap)] can get from
    the run-time; it depends on the platform and on the memory left. *)
Variable maxCap : Z.

(** [findStorageMedia]: [make] panics on a capacity that is negative
    or out of range; the loops run over [0 <= p < portCount] and
    [0 <= d < maxDevicePerPort]. *)
Definition findStorageMedia (name : string) (bus : SystemBus) (portCount : Z)
           (vmPropMap : gmap string string) : outcome (list StorageMedium) :=
  let cap := wrapInt (portCount * 2) in
  if ((cap <? 0) || (maxCap <? cap))%Z then Crash
  else
    Ret (omap (λ pd : nat * nat, mediumAt name vmPropMap pd.1 pd.2)
              (p ← seq 0 (Z.to_nat portCount);
               d ← seq 0 (maxDevicePerPort bus);
               [(p, d)])).

Definition vmInfogStrorageControllerTypeToBusAndChipset (scType : string)
: outcome (SystemBus * StorageControllerChipset) :=
if String.eqb scType "IntelAhci" then Ret (SysBusSATA, CtrlIntelAHCI)
else if String.eqb scType "LsiLogic" then Ret (SysBusSCSI, CtrlLSILogic)
else if String.eqb scType "BusLogic" then Ret (SysBusSCSI, CtrlBusLogic)
else if String.eqb scType "PIIX3" then Ret (SysBusIDE, CtrlPIIX3)
else if String.eqb scType "PIIX4" then Ret (SysBusIDE, CtrlPIIX4)
else if String.eqb scType "ICH6" then Ret (SysBusIDE, CtrlICH6)
else if String.eqb scType "I82078" then Ret (SysBusFloppy, CtrlI82078)
else if String.eqb scType "LsiLogicSas" then Ret (SysBusSAS, CtrlLSILogicSAS)
else if String.eqb scType "USB" then Ret (SysBusUSB, CtlrUSB)
else if String.eqb scType "NVMe" then Ret (SysBusPCI, CtlrNVMe)
else if String.eqb scType "VirtioSCSI" then Ret (SysBusVirtioSCSI, CtrlVirtioSCSI)
else if String.eqb scType "unknown" then Ret (scType, scType)
else Fail (ErrControllerType scType).

(** [uint(portCount)] of a 64-bit [int]. *)
Definition uintOfInt (z : Z) : N := Z.to_N (z mod 2 ^ 64).

Definition findStorageControllerByIndex (name iStr : string)
         (vmPropMap : gmap string string) : outcome StorageController :=
let scType := prop vmPropMap ("storagecontrollertype" +:+ iStr) in
let portCountStr := prop vmPropMap ("storagecontrollerportcount" +:+ iStr) in
match Atoi portCountStr with
| Fail e => Fail (ErrPortCount portCountStr e)
| Crash => Crash
| Ret portCount =>
    let bootableStr := prop vmPropMap ("storagecontrollerbootable" +:+ iStr) in
    bc ← vmInfogStrorageControllerTypeToBusAndChipset scType;
    media ← findStorageMedia name bc.1 portCount vmPropMap;
    Ret (mkController name bc.1 (uintOfInt portCount) bc.2 false
                      (String.eqb bootableStr "on") media)
end.

Fixpoint NewStorageControllers_loop (vmPropMap : gmap string string)
       (indices : list nat) (ctrls : StorageControllers)
: outcome StorageControllers :=
match indices with
| [] => Ret ctrls
| i :: rest =>
    let iStr := Itoa i in
    match vmPropMap !! ("storagecontrollername" +:+ iStr) with
    | None => NewStorageControllers_loop vmPropMap rest ctrls
    | Some name =>
        sc ← findStorageControllerByIndex name iStr vmPropMap;
        NewStorageControllers_loop vmPropMap rest (ctrls ++ [sc])
    end
end.

Definition NewStorageControllersFromProps (vmPropMap : gmap string string)
: outcome StorageControllers :=
NewStorageControllers_loop vmPropMap (seq 0 8) [].

End Alloc.

(** The scenario of the package's test data: controller 5, ["NVMe"],
    reported with type ["unknown"]. *)
Definition nvmeProps : gmap string string :=
  {[ "storagecontrollername5" := "NVMe";
     "storagecontrollertype5" := "unknown";
     "storagecontrollerportcount5" := "1";
     "storagecontrollerbootable5" := "on" ]}.

(** The same controller with a port count of [-1], which [Atoi] reads. *)
Definition nvmeNegativeProps : gmap string string :=
  {[ "storagecontrollername5" := "NVMe";
     "storagecontrollertype5" := "unknown";
     "storagecontrollerportcount5" := "-1";
     "storagecontrollerbootable5" := "on" ]}.

(** The order in which [findStorageMedia] visits the slots of a
    controller: by port, then by device. *)
Definition slotLt (a b : StorageMedium) : Prop :=
  (Port a < Port b)%N ∨ (Port a = Port b ∧ (Device a < Device b)%N).

(** The same order on the (port, device) pairs of the two loops. *)
Definition lexLt (x y : nat * nat) : Prop :=
  (x.1 < y.1)%nat ∨ (x.1 = y.1 ∧ (x.2 < y.2)%nat).

(** A failure, carried over to another result type. *)
Definition failureOf {A B : Type} (x : outcome A) : outcome B :=
  match x with
  | Fail e => Fail e
  | _ => Crash
  end.

(** [DeviceMedia]: the two nested loops, appending to [media]. *)
Definition DeviceMedia (scs : StorageControllers) : list string :=
  fold_left
    (λ media sc,
       fold_left (λ media d,
                    if negb (String.eqb (Medium d) "") then media ++ [Medium d]
                    else media)
                 (Devices sc) media)
    scs [].

(** An IDE controller with a disk, an empty drive and two slots without
    medium; a SATA controller whose port count is negative. *)
Definition ideProps : gmap string string :=
  list_to_map
    [("storagecontrollername0", "IDE"); ("storagecontrollertype0", "PIIX4");
     ("storagecontrollerportcount0", "2"); ("storagecontrollerbootable0", "on");
     ("IDE-0-0", "/vm/disk.vdi"); ("IDE-ImageUUID-0-0", "8c80c269");
     ("IDE-0-1", "none"); ("IDE-1-0", "emptydrive"); ("IDE-1-1", "none")].

Definition negativePortCountProps : gmap string string :=
  list_to_map
    [("storagecontrollername1", "SATA"); ("storagecontrollertype1", "IntelAhci");
     ("storagecontrollerportcount1", "-1")].

Definition badTypeAndCountProps : gmap string string :=
  list_to_map
    [("storagecontrollername0", "IDE"); ("storagecontrollertype0", "PIIX4");
     ("storagecontrollerportcount0", "2");
     ("storagecontrollername3", "X"); ("storagecontrollertype3", "NoSuchType");
     ("storagecontrollername4", "SATA"); ("storagecontrollertype4", "IntelAhci");
     ("storagecontrollerportcount4", "1")].

End Storage.

(** ** Machine flags and [Machine.Modify] *)

Module Machine.
Import CmdLine.

(** [Flag] is a Go [int] used as a bit mask. *)
Definition Flag : Type := Z.

Definition ACPI : Flag := Z.shiftl 1 0.
Definition IOAPIC : Flag := Z.shiftl 1 1.
Definition RTCUSEUTC : Flag := Z.shiftl 1 2.
Definition CPUHOTPLUG : Flag := Z.shiftl 1 3.
Definition PAE : Flag := Z.shiftl 1 4.
Definition LONGMODE : Flag := Z.shiftl 1 5.
Definition SYNTHCPU : Flag := Z.shiftl 1 6.
Definition HPET : Flag := Z.shiftl 1 7.
Definition HWVIRTEX : Flag := Z.shiftl 1 8.
Definition TRIPLEFAULTRESET : Flag := Z.shiftl 1 9.
Definition NESTEDPAGING : Flag := Z.shiftl 1 10.
Definition LARGEPAGES : Flag := Z.shiftl 1 11.
Definition VTXVPID : Flag := Z.shiftl 1 12.
Definition VTXUX : Flag := Z.shiftl 1 13.
Definition ACCELERATE3D : Flag := Z.shiftl 1 14.
Definition NESTED_HW_VIRT : Flag := Z.shiftl 1 15.
Definition X2APIC : Flag := Z.shiftl 1 16.

Definition flagConstants : list Flag :=
  [ACPI; IOAPIC; RTCUSEUTC; CPUHOTPLUG; PAE; LONGMODE; SYNTHCPU; HPET;
   HWVIRTEX; TRIPLEFAULTRESET; NESTEDPAGING; LARGEPAGES; VTXVPID; VTXUX;
   ACCELERATE3D; NESTED_HW_VIRT; X2APIC].

Definition bool2string (b : bool) : string := if b then "on" else "off".

Definition Get (f o : Flag) : string := bool2string (Z.land f o =? o)%Z.

(** [NIC]: the struct and the constants of its networks are not among
    the given sources.  The fields are those [Modify], [SetNIC] and
    [GetMachine] read and write, all of them strings; the constants are
    parameters below. *)
Record NIC : Type := mkNIC {
  Network : string;
  Hardware : string;
  HostInterface : string;
  MacAddr : string;
  NetworkName : string
}.

Record Machine : Type := mkMachine {
  Name : string;
  UUID : string;
  State : string;
  CPUs : N;
  Memory : N;
  VRAM : N;
  CfgFile : string;
  BaseFolder : string;
  OSType : string;
  Flag_ : Flag;
  BootOrder : list string;
  NICs : list NIC;
  UARTs : Uart.UARTs;
  StorageControllers : Storage.StorageControllers
}.

(** The feature toggles [Modify] appends, in its order. *)
Definition appendToggles (f : Flag) (c : CmdArgs) : CmdArgs :=
  let c := Append "--acpi" (Get f ACPI) c in
  let c := Append "--ioapic" (Get f IOAPIC) c in
  let c := Append "--rtcuseutc" (Get f RTCUSEUTC) c in
  let c := Append "--cpuhotplug" (Get f CPUHOTPLUG) c in
  let c := Append "--pae" (Get f PAE) c in
  let c := Append "--longmode" (Get f LONGMODE) c in
  let c := Append "--hpet" (Get f HPET) c in
  let c := Append "--hwvirtex" (Get f HWVIRTEX) c in
  let c := Append "--triplefaultreset" (Get f TRIPLEFAULTRESET) c in
  let c := Append "--nestedpaging" (Get f NESTEDPAGING) c in
  let c := Append "--largepages" (Get f LARGEPAGES) c in
  let c := Append "--vtxvpid" (Get f VTXVPID) c in
  let c := Append "--vtxux" (Get f VTXUX) c in
  let c := Append "--accelerate3d" (Get f ACCELERATE3D) c in
  Append "--nested-hw-virt" (Get f NESTED_HW_VIRT) c.

(** The loop over [m.BootOrder]: only the first four slots count. *)
Fixpoint appendBoot (i : nat) (devs : list string) (c : CmdArgs) : CmdArgs :=
  match devs with
  | [] => c
  | dev :: rest =>
      if (3 <? i)%nat then c
      else appendBoot (S i) rest
             (Append ("--boot" +:+ GoStr.fmtDec (N.of_nat (i + 1))) dev c)
  end.

(** The first part of [Modify], up to the boot order: the arguments
    built from the machine's own fields.  [modifyCmdArgs] below goes on
    with the NIC and UART arguments and the overrides. *)
Definition modifyMachineArgs (m : Machine) : CmdArgs :=
  let c := emptyCmdArgs in
  let c := Append "--firmware" "bios" c in
  let c := Append "--bioslogofadein" "off" c in
  let c := Append "--bioslogofadeout" "off" c in
  let c := Append "--bioslogodisplaytime" "0" c in
  let c := Append "--biosbootmenu" "disabled" c in
  let c := Append "--ostype" (OSType m) c in
  let c := Append "--cpus" (GoStr.fmtDec (CPUs m)) c in
  let c := Append "--memory" (GoStr.fmtDec (Memory m)) c in
  let c := Append "--vram" (GoStr.fmtDec (VRAM m)) c in
  let c := appendToggles (Flag_ m) c in
  appendBoot 0 (BootOrder m) c.

Section Modify.
(** The network constants of [NIC], and [UARTs.ModifyVMCmdArgs], which
    [Modify] calls: neither is defined in the given sources. *)
Variable NICNetHostonly NICNetBridged NICNetNAT NICNetNATNetwork NICNetInternal : string.
Variable ModifyVMCmdArgs : Uart.UARTs → outcome (list CmdArg).

(** [appendNicParams]; its error is always nil. *)
Definition appendNicParams (n : Z) (nic : NIC) (c : CmdArgs) : CmdArgs :=
  let c := Append ("--nic" +:+ GoStr.fmtInt n) (Network nic) c in
  let c := Append ("--nictype" +:+ GoStr.fmtInt n) (Hardware nic) c in
  let c := Append ("--cableconnected" +:+ GoStr.fmtInt n) "on" c in
  let c := if negb (String.eqb (MacAddr nic) "")
           then Append ("--macaddress" +:+ GoStr.fmtInt n) (MacAddr nic) c
           else c in
  if String.eqb (Network nic) NICNetHostonly then
    Append ("--hostonlyadapter" +:+ GoStr.fmtInt n) (HostInterface nic) c
  else if String.eqb (Network nic) NICNetBridged then
    Append ("--bridgeadapter" +:+ GoStr.fmtInt n) (HostInterface nic) c
  else if String.eqb (Network nic) NICNetNAT then
    if negb (String.eqb (NetworkName nic) "")
    then Append ("--natnet" +:+ GoStr.fmtInt n) (NetworkName nic) c
    else Append ("--natnet" +:+ GoStr.fmtInt n) "default" c
  else if String.eqb (Network nic) NICNetNATNetwork then
    if negb (String.eqb (NetworkName nic) "")
    then Append ("--nat-network" +:+ GoStr.fmtInt n) (NetworkName nic) c
    else c
  else if String.eqb (Network nic) NICNetInternal then
    if negb (String.eqb (NetworkName nic) "")
    then Append ("--intnet" +:+ GoStr.fmtInt n) (NetworkName nic) c
    else c
  else c.

(** The loop of [Modify] over [m.NICs], [i] being the index. *)
Fixpoint appendNics (i : nat) (nics : list NIC) (c : CmdArgs) : CmdArgs :=
  match nics with
  | [] => c
  | nic :: rest =>
      appendNics (S i) rest (appendNicParams (Z.of_nat i + 1) nic c)
  end.

(** [Modify] up to the call of [VBoxManage]: the [CmdArgs] value it
    builds from the machine, its NICs, its UARTs and the overrides, and
    the argument list it runs [VBoxManage] with. *)
Definition modifyCmdArgs (m : Machine) (override : list CmdArg) : outcome CmdArgs :=
  let c := modifyMachineArgs m in
  let c := appendNics 0 (NICs m) c in
  match ModifyVMCmdArgs (UARTs m) with
  | Fail err => Fail (ErrModifyUARTs err)
  | Crash => Crash
  | Ret uartsCmdArgs =>
      let c := AppendCmdArgs uartsCmdArgs c in
      Ret (AppendOverride override c)
  end.

Definition modifyArgs (m : Machine) (override : list CmdArg) : outcome (list string) :=
  c ← modifyCmdArgs m override;
  Ret (["modifyvm"; Name m] ++ Args c).

(** The argument list of [SetNIC]. *)
Definition setNICArgs (m : Machine) (rank : Z) (nic : NIC) : list string :=
  ["modifyvm"; Name m] ++ Args (appendNicParams rank nic emptyCmdArgs).

End Modify.

(** Each toggle argument with the flag it reports. *)
Definition toggleTable : list (string * Flag) :=
  [("--acpi", ACPI); ("--ioapic", IOAPIC); ("--rtcuseutc", RTCUSEUTC);
   ("--cpuhotplug", CPUHOTPLUG); ("--pae", PAE); ("--longmode", LONGMODE);
   ("--hpet", HPET); ("--hwvirtex", HWVIRTEX);
   ("--triplefaultreset", TRIPLEFAULTRESET); ("--nestedpaging", NESTEDPAGING);
   ("--largepages", LARGEPAGES); ("--vtxvpid", VTXVPID); ("--vtxux", VTXUX);
   ("--accelerate3d", ACCELERATE3D); ("--nested-hw-virt", NESTED_HW_VIRT)].

(** A machine with ACPI on, without NICs, and a UART serializer that
    contributes no argument. *)
Definition acpiMachine : Machine :=
  mkMachine "vm" "" "" 1 512 16 "" "" "Linux_64" ACPI [] []
            Uart.NewUARTsAllOff [].

Definition noUartArgs (uarts : Uart.UARTs) : outcome (list CmdArg) := Ret [].

(** The names of the toggle arguments. *)
Definition toggleKeys : list string :=
  ["--acpi"; "--ioapic"; "--rtcuseutc"; "--cpuhotplug"; "--pae"; "--longmode";
   "--hpet"; "--hwvirtex"; "--triplefaultreset"; "--nestedpaging";
   "--largepages"; "--vtxvpid"; "--vtxux"; "--accelerate3d"; "--nested-hw-virt"].

(** What a call adds to the base sequence, with keys that are no
    toggles. *)
Definition addsNoToggle (c c' : CmdArgs) : Prop :=
  overrides c' = overrides c ∧
  ∃ l, args c' = args c ++ l ∧ Forall (λ a, K a ∉ toggleKeys) l.

End Machine.

(** ** Colon-block listings: [DHCPs] and [NATNets] *)

Module Listing.
Import GoStr.

(** *** [bufio.Scanner] with the default [ScanLines] *)

Definition MaxScanTokenSize : nat := 64 * 1024.

Definition newline : ascii := ascii_of_nat 10.
Definition carriageReturn : ascii := ascii_of_nat 13.

(** [dropCR]: a line loses one trailing carriage return. *)
Fixpoint dropCR (s : string) : string :=
  match s with
  | EmptyString => EmptyString
  | String c EmptyString =>
      if Ascii.eqb c carriageReturn then EmptyString else s
  | String c r => String c (dropCR r)
  end.

(** The pieces between newlines; no token for the empty rest after the
    last newline. *)
Definition rawLines (out : string) : list string :=
  let parts := Split newline out in
  match last parts with
  | Some EmptyString => removelast parts
  | _ => parts
  end.

(** The tokens [s.Scan()] delivers, and [s.Err()]: scanning stops with
    [ErrTooLong] at a line that does not fit the buffer. *)
Fixpoint scanTokens (raw : list string) : list string * option error :=
  match raw with
  | [] => ([], None)
  | l :: rest =>
      if (MaxScanTokenSize <=? String.length l)%nat then ([], Some ErrTooLong)
      else let '(ls, e) := scanTokens rest in (dropCR l :: ls, e)
  end.

Definition scan (out : string) : list string * option error :=
  scanTokens (rawLines out).

(** *** [reColonLine]: a non-empty key, a colon, one or more spaces,
    the value *)

(** [\s] of Go's regular expressions. *)
Definition isSpace (c : ascii) : bool :=
  let n := N_of_ascii c in
  ((n =? 9) || (n =? 10) || (n =? 12) || (n =? 13) || (n =? 32))%N.

Definition startsWithSpace (s : string) : bool :=
  match s with
  | String c _ => isSpace c
  | EmptyString => false
  end.

Fixpoint dropSpaces (s : string) : string :=
  match s with
  | String c r => if isSpace c then dropSpaces r else s
  | EmptyString => EmptyString
  end.

(** The split at the last colon that a space follows: the text before
    the colon and the text after it. *)
Fixpoint lastColon (s : string) : option (string * string) :=
  match s with
  | EmptyString => None
  | String c r =>
      match lastColon r with
      | Some (k, v) => Some (String c k, v)
      | None =>
          if Ascii.eqb c ":" && startsWithSpace r then Some (EmptyString, r)
          else None
      end
  end.

(** [reColonLine.FindStringSubmatch(line)] on a line without newline:
    group 1 is greedy, so it reaches the last colon followed by a space,
    and it is not empty; group 2 starts after the spaces. *)
Definition reColonLine (line : string) : option (string * string) :=
  match lastColon line with
  | Some (String c k, v) => Some (String c k, dropSpaces v)
  | _ => None
  end.

(** [net.IP] and [net.IPMask] are byte slices; nil is the empty list. *)
Definition IP : Type := list N.
Definition IPMask : Type := list N.

Record IPNet : Type := mkIPNet { ipOf : IP; maskOf : IPMask }.
Definition zeroIPNet : IPNet := mkIPNet [] [].

Record DHCP : Type := mkDHCP {
  NetworkName : string;
  dhcpIPv4 : IPNet;
  LowerIP : IP;
  UpperIP : IP;
  dhcpEnabled : bool
}.
Definition zeroDHCP : DHCP := mkDHCP "" zeroIPNet [] [] false.

Record NATNet : Type := mkNATNet {
  Name : string;
  IPv4 : IPNet;
  IPv6 : IPNet;
  natDHCP : bool;
  Enabled : bool
}.
Definition zeroNATNet : NATNet := mkNATNet "" zeroIPNet zeroIPNet false false.

(** The state of the loop of [DHCPs].  The map holds pointers: [dheap]
    is the store of the records allocated so far, [dm] maps a name to
    the address of its record, [dcur] is the address [dhcp] points to.
    A field written through [dhcp] is seen through every name that
    points to the same record. *)
Record dhcpState : Type := mkDhcpState {
  dm : gmap string nat;
  dheap : list DHCP;
  dcur : nat
}.

Definition dhcpInit : dhcpState := mkDhcpState ∅ [zeroDHCP] 0.

Definition dhcpWrite (f : DHCP → DHCP) (st : dhcpState) : dhcpState :=
  mkDhcpState (dm st) (alter f (dcur st) (dheap st)) (dcur st).

Definition setNetworkName (v : string) (d : DHCP) : DHCP :=
  mkDHCP v (dhcpIPv4 d) (LowerIP d) (UpperIP d) (dhcpEnabled d).
Definition setDhcpIP (ip : IP) (d : DHCP) : DHCP :=
  mkDHCP (NetworkName d) (mkIPNet ip (maskOf (dhcpIPv4 d)))
         (LowerIP d) (UpperIP d) (dhcpEnabled d).
Definition setDhcpMask (mk : IPMask) (d : DHCP) : DHCP :=
  mkDHCP (NetworkName d) (mkIPNet (ipOf (dhcpIPv4 d)) mk)
         (LowerIP d) (UpperIP d) (dhcpEnabled d).
Definition setUpperIP (ip : IP) (d : DHCP) : DHCP :=
  mkDHCP (NetworkName d) (dhcpIPv4 d) (LowerIP d) ip (dhcpEnabled d).
Definition setLowerIP (ip : IP) (d : DHCP) : DHCP :=
  mkDHCP (NetworkName d) (dhcpIPv4 d) ip (UpperIP d) (dhcpEnabled d).
Definition setDhcpEnabled (b : bool) (d : DHCP) : DHCP :=
  mkDHCP (NetworkName d) (dhcpIPv4 d) (LowerIP d) (UpperIP d) b.

Definition setName (v : string) (n : NATNet) : NATNet :=
  mkNATNet v (IPv4 n) (IPv6 n) (natDHCP n) (Enabled n).
Definition setIPv4IP (ip : IP) (n : NATNet) : NATNet :=
  mkNATNet (Name n) (mkIPNet ip (maskOf (IPv4 n))) (IPv6 n) (natDHCP n) (Enabled n).
Definition setIPv4Mask (mk : IPMask) (n : NATNet) : NATNet :=
  mkNATNet (Name n) (mkIPNet (ipOf (IPv4 n)) mk) (IPv6 n) (natDHCP n) (Enabled n).
Definition setIPv6Mask (mk : IPMask) (n : NATNet) : NATNet :=
  mkNATNet (Name n) (IPv4 n) (mkIPNet (ipOf (IPv6 n)) mk) (natDHCP n) (Enabled n).
Definition setNatDHCP (b : bool) (n : NATNet) : NATNet :=
  mkNATNet (Name n) (IPv4 n) (IPv6 n) b (Enabled n).
Definition setEnabled (b : bool) (n : NATNet) : NATNet :=
  mkNATNet (Name n) (IPv4 n) (IPv6 n) (natDHCP n) b.

Section Parsers.
(** Go's library, and two names of the package that the given source
    files use but do not define: [ParseIPv4Mask] and [stringYes]. *)
Variable ToLower : string → string.          (* strings.ToLower *)
Variable ParseIP : string → IP.              (* net.ParseIP *)
Variable To4 : IP → IP.                      (* net.IP.To4 *)
Variable ParseCIDRMask : string → outcome IPMask.  (* the mask of net.ParseCIDR *)
Variable ParseIPv4Mask : string → IPMask.
Variable stringYes : string.

(** One iteration of the loop of [DHCPs]; [out] is only quoted in the
    error. *)
Definition dhcpLine (out : string) (st : dhcpState) (line : string)
  : outcome dhcpState :=
  if String.eqb line "" then
    Ret (mkDhcpState (dm st) (dheap st ++ [zeroDHCP]) (length (dheap st)))
  else
    match reColonLine line with
    | None => Ret st
    | Some (k, val) =>
        let key := ToLower k in
        if String.eqb key "networkname" then
          let st := dhcpWrite (setNetworkName val) st in
          match dm st !! val with
          | Some _ =>
              Fail (ErrDhcpAlreadyParsed val (fst <$> map_to_list (dm st)) out)
          | None =>
              Ret (mkDhcpState (<[val := dcur st]> (dm st)) (dheap st) (dcur st))
          end
        else if String.eqb key "ip" || String.eqb key "dhcpd ip" then
          Ret (dhcpWrite (setDhcpIP (To4 (ParseIP val))) st)
        else if String.eqb key "upperipaddress" then
          Ret (dhcpWrite (setUpperIP (To4 (ParseIP val))) st)
        else if String.eqb key "loweripaddress" then
          Ret (dhcpWrite (setLowerIP (To4 (ParseIP val))) st)
        else if String.eqb key "networkmask" then
          Ret (dhcpWrite (setDhcpMask (ParseIPv4Mask val)) st)
        else if String.eqb key "enabled" then
          Ret (dhcpWrite (setDhcpEnabled (String.eqb val stringYes)) st)
        else Ret st
    end.

Fixpoint dhcpLoop (out : string) (lines : list string) (st : dhcpState)
  : outcome dhcpState :=
  match lines with
  | [] => Ret st
  | line :: rest => st' ← dhcpLine out st line; dhcpLoop out rest st'
  end.

(** The map the caller reads: each name with the record its pointer
    leads to. *)
Definition derefDHCPs (st : dhcpState) : gmap string DHCP :=
  omap (λ p, dheap st !! p) (dm st).

(** [DHCPs], given what [Manage().runOut("list", "dhcpservers")]
    returned. *)
Definition DHCPs (run : outcome string) : outcome (gmap string DHCP) :=
  out ← run;
  let '(lines, scanErr) := scan out in
  st ← dhcpLoop out lines dhcpInit;
  match scanErr with
  | Some err => Fail err
  | None => Ret (derefDHCPs st)
  end.

(** The state of the loop of [NATNets]: the map of records (held by
    value) and the record [n] being filled. *)
Definition natState : Type := gmap string NATNet * NATNet.

Definition natLine (st : natState) (line : string) : outcome natState :=
  let '(m, n) := st in
  if String.eqb line "" then Ret (<[Name n := n]> m, zeroNATNet)
  else
    match reColonLine line with
    | None => Ret st
    | Some (key, val) =>
        if String.eqb key "Name" || String.eqb key "NetworkName" then
          Ret (m, setName val n)
        else if String.eqb key "IP" || String.eqb key "Gateway" then
          Ret (m, setIPv4IP (ParseIP val) n)
        else if String.eqb key "Network" then
          mk ← ParseCIDRMask val; Ret (m, setIPv4Mask mk n)
        else if String.eqb key "IPv6 Prefix" then
          mk ← ParseCIDRMask val; Ret (m, setIPv6Mask mk n)
        else if String.eqb key "DHCP Enabled" then
          Ret (m, setNatDHCP (String.eqb val stringYes) n)
        else if String.eqb key "Enabled" then
          Ret (m, setEnabled (String.eqb val stringYes) n)
        else Ret st
    end.

Fixpoint natLoop (lines : list string) (st : natState) : outcome natState :=
  match lines with
  | [] => Ret st
  | line :: rest => st' ← natLine st line; natLoop rest st'
  end.

(** [NATNets], given what [Manage().runOut("list", "natnets")]
    returned. *)
Definition NATNets (run : outcome string) : outcome (gmap string NATNet) :=
  out ← run;
  let '(lines, scanErr) := scan out in
  st ← natLoop lines (∅, zeroNATNet);
  match scanErr with
  | Some err => Fail err
  | None => Ret st.1
  end.

End Parsers.

(** [strings.ToLower] on ASCII text. *)
Definition lowerByte (c : ascii) : ascii :=
  let n := N_of_ascii c in
  if ((65 <=? n) && (n <=? 90))%N then ascii_of_N (n + 32) else c.

Fixpoint asciiToLower (s : string) : string :=
  match s with
  | EmptyString => EmptyString
  | String c r => String (lowerByte c) (asciiToLower r)
  end.

(** The record [dhcp] points to. *)
Definition current (st : dhcpState) : option DHCP := dheap st !! dcur st.

Section Records.
Variable ToLower : string → string.
Variable ParseIP : string → IP.
Variable To4 : IP → IP.
Variable ParseIPv4Mask : string → IPMask.
Variable stringYes : string.

(** The name a line of a DHCP listing gives to its record, if any. *)
Definition dhcpNameOf (line : string) : option string :=
  match reColonLine line with
  | Some (k, val) =>
      if String.eqb (ToLower k) "networkname" then Some val else None
  | None => None
  end.

(** What a line of a DHCP listing writes into the record [dhcp]
    points to. *)
Definition dhcpField (d : DHCP) (line : string) : DHCP :=
  match reColonLine line with
  | None => d
  | Some (k, val) =>
      let key := ToLower k in
      if String.eqb key "networkname" then setNetworkName val d
      else if String.eqb key "ip" || String.eqb key "dhcpd ip" then
        setDhcpIP (To4 (ParseIP val)) d
      else if String.eqb key "upperipaddress" then setUpperIP (To4 (ParseIP val)) d
      else if String.eqb key "loweripaddress" then setLowerIP (To4 (ParseIP val)) d
      else if String.eqb key "networkmask" then setDhcpMask (ParseIPv4Mask val) d
      else if String.eqb key "enabled" then
        setDhcpEnabled (String.eqb val stringYes) d
      else d
  end.

(** The record a block of lines describes. *)
Definition dhcpRecordOf (block : list string) : DHCP :=
  fold_left dhcpField block zeroDHCP.

(** The names given in a listing, in order. *)
Definition dhcpNames (lines : list string) : list string :=
  omap dhcpNameOf lines.
(** Used in the proofs: what a line that is not blank does to the
    state of the loop of [DHCPs]. *)
Definition stepsTo (st : dhcpState) (line : string) (st' : dhcpState) : Prop :=
  dcur st' = dcur st ∧
  length (dheap st') = length (dheap st) ∧
  (∀ d, current st = Some d → current st' = Some (dhcpField d line)) ∧
  (∀ p, p ≠ dcur st → dheap st' !! p = dheap st !! p) ∧
  dm st' = match dhcpNameOf line with
           | Some v => <[v := dcur st]> (dm st)
           | None => dm st
           end ∧
  (∀ v, dhcpNameOf line = Some v → dm st !! v = None).
End Records.

(** Two DHCP servers, the second record without a blank line after it
    (the field names of VirtualBox 6 and 7 mixed), and the same for two
    NAT networks. *)
Definition nl : string := String newline EmptyString.

Definition dhcpListing : string :=
  "NetworkName:    HostInterfaceNetworking-vboxnet0" +:+ nl +:+
  "IP:             192.168.56.100" +:+ nl +:+
  "NetworkMask:    255.255.255.0" +:+ nl +:+
  "lowerIPAddress: 192.168.56.101" +:+ nl +:+
  "upperIPAddress: 192.168.56.254" +:+ nl +:+
  "Enabled:        No" +:+ nl +:+
  nl +:+
  "NetworkName:    HostInterfaceNetworking-vboxnet5" +:+ nl +:+
  "Dhcpd IP:       192.168.61.1" +:+ nl +:+
  "LowerIPAddress: 192.168.61.50" +:+ nl +:+
  "UpperIPAddress: 192.168.61.200" +:+ nl +:+
  "NetworkMask:    255.255.255.0" +:+ nl +:+
  "Enabled:        Yes".

Definition natListing : string :=
  "Name:         natnet1" +:+ nl +:+
  "Enabled:      Yes" +:+ nl +:+
  "Gateway:      10.0.2.1" +:+ nl +:+
  "DHCP Server:  Yes" +:+ nl +:+
  nl +:+
  "Name:         natnet2" +:+ nl +:+
  "Enabled:      Yes" +:+ nl +:+
  "Gateway:      10.0.3.1" +:+ nl +:+
  "DHCP Server:  Yes".

(** Two records with the same name, each followed by a blank line. *)
Definition natListingDuplicate : string :=
  "Name:         natnet1" +:+ nl +:+
  "Enabled:      Yes" +:+ nl +:+
  "Gateway:      10.0.2.1" +:+ nl +:+
  nl +:+
  "Name:         natnet1" +:+ nl +:+
  "Enabled:      No" +:+ nl +:+
  "Gateway:      10.0.3.1" +:+ nl +:+
  nl.

Definition dhcpListingDuplicate : string :=
  "NetworkName:    HostInterfaceNetworking-vboxnet0" +:+ nl +:+
  "Enabled:        Yes" +:+ nl +:+
  nl +:+
  "NetworkName:    HostInterfaceNetworking-vboxnet0" +:+ nl +:+
  "Enabled:        No" +:+ nl +:+
  nl.

(** The pointer [dhcp] leads to the record allocated last, and every
    pointer in the map leads to an allocated record. *)
Definition lastPtr (st : dhcpState) : Prop := S (dcur st) = length (dheap st).
Definition ptrsValid (st : dhcpState) : Prop :=
  ∀ v p, dm st !! v = Some p → (p < length (dheap st))%nat.

(** The name a line of a NAT network listing gives to the record being
    filled, if any. *)
Definition natNameOf (line : string) : option string :=
  match reColonLine line with
  | Some (key, val) =>
      if String.eqb key "Name" || String.eqb key "NetworkName" then Some val
      else None
  | None => None
  end.

(** A listing that starts with a heading and a blank line. *)
Definition natListingHeading : string :=
  "NAT Networks:" +:+ nl +:+
  nl +:+
  "Name:         natnet1" +:+ nl +:+
  "Enabled:      Yes" +:+ nl +:+
  nl.

End Listing.

Module VMInfo.
Import GoStr Listing.

(** *** [reVMInfoLine]: a key and a value around an equals sign, each
    bare or in double quotes *)

Definition quote : ascii := ascii_of_nat 34.

(** The last position of [s] at which [delim] matches: the text before
    it and what [delim] leaves. *)
Fixpoint lastSplit (delim : string → option string) (s : string)
  : option (string * string) :=
  match s with
  | EmptyString => None
  | String c r =>
      match lastSplit delim r with
      | Some (k, v) => Some (String c k, v)
      | None =>
          match delim s with
          | Some v => Some (EmptyString, v)
          | None => None
          end
      end
  end.

Definition afterByte (b : ascii) (s : string) : option string :=
  match s with
  | String c r => if Ascii.eqb c b then Some r else None
  | EmptyString => None
  end.

Definition afterQuoteEquals (s : string) : option string :=
  match afterByte quote s with
  | Some r => afterByte "=" r
  | None => None
  end.

(** Groups 3 and 4: the quoted alternative is tried first and, being
    greedy, ends at the last quote; otherwise group 4 is the rest of
    the line. *)
Definition valueGroups (r : string) : string * string :=
  match afterByte quote r with
  | Some r' =>
      match lastSplit (afterByte quote) r' with
      | Some (v, _) => (v, "")
      | None => ("", r)
      end
  | None => ("", r)
  end.

(** [reVMInfoLine.FindStringSubmatch(line)] on a line without newline:
    the groups 1 to 4, an unmatched group being the empty string.  The
    key groups are greedy and not empty: group 1 ends at the last quote
    that an equals sign follows, group 2 at the last equals sign.  A
    match, if there is one, starts at the first byte. *)
Definition reVMInfoLine (line : string)
  : option ((string * string) * (string * string)) :=
  let quoted :=
    match afterByte quote line with
    | Some t =>
        match lastSplit afterQuoteEquals t with
        | Some (String c k, r) => Some (String c k, r)
        | _ => None
        end
    | None => None
    end in
  match quoted with
  | Some (k, r) => Some ((k, ""), valueGroups r)
  | None =>
      match lastSplit (afterByte "=") line with
      | Some (String c k, r) => Some (("", String c k), valueGroups r)
      | _ => None
      end
  end.

(** The key and the value the loop of [vminfoAsPropMap] takes from a
    line. *)
Definition vminfoKeyVal (line : string) : option (string * string) :=
  match reVMInfoLine line with
  | None => None
  | Some (r12, r34) =>
      let key := if String.eqb r12.1 "" then r12.2 else r12.1 in
      let val := if String.eqb r34.1 "" then r34.2 else r34.1 in
      Some (key, val)
  end.

Definition vminfoStep (propMap : gmap string string) (line : string)
  : gmap string string :=
  match vminfoKeyVal line with
  | None => propMap
  | Some kv => <[kv.1 := kv.2]> propMap
  end.

(** The result of [vminfoAsPropMap]: the map, or the error of the
    scanner wrapped. *)
Inductive vminfoResult : Type :=
| PropMap (propMap : gmap string string)
| ErrParsingVMInfo (cause : error).

Definition vminfoAsPropMap (vmInfo : string) : vminfoResult :=
  let s := scan vmInfo in
  let propMap := fold_left vminfoStep s.1 ∅ in
  match s.2 with
  | Some err => ErrParsingVMInfo err
  | None => PropMap propMap
  end.

(** A line [key="value"], and the same with the key in quotes. *)
Definition q : string := String quote "".
Definition bareLine (k v : string) : string := k +:+ "=" +:+ q +:+ v +:+ q.
Definition quotedLine (k v : string) : string :=
  q +:+ k +:+ q +:+ "=" +:+ q +:+ v +:+ q.

End VMInfo.

(** * Proofs *)

(** ** Strings and numbers *)

Module GoStrFacts.
Import GoStr.

Lemma app_cons c r b : String c r +:+ b = String c (r +:+ b).
Proof. reflexivity. Qed.

Lemma app_nil b : "" +:+ b = b.
Proof. reflexivity. Qed.

Ltac str_simpl := rewrite ?app_cons, ?app_nil; simpl.

#[local] Arguments digitVal : simpl never.
#[local] Arguments digitChar : simpl never.

Lemma Split_nonempty sep s : Split sep s ≠ [].
Proof.
  destruct s as [|c r]; simpl; [done|].
  destruct (Ascii.eqb c sep); [done|]. by destruct (Split sep r).
Qed.

(** Splitting at a separator that joins two texts. *)
Lemma Split_app sep a b :
  Split sep (a +:+ String sep b) = Split sep a ++ Split sep b.
Proof.
  induction a as [|c r IH]; str_simpl.
  - by rewrite Ascii.eqb_refl.
  - rewrite IH. destruct (Ascii.eqb c sep); [done|].
    pose proof (Split_nonempty sep r). by destruct (Split sep r).
Qed.

Lemma Split_absent sep s : hasByte sep s = false → Split sep s = [s].
Proof.
  unfold hasByte. induction s as [|c r IH]; simpl; [done|].
  rewrite (Ascii.eqb_sym sep c). destruct (Ascii.eqb c sep); simpl; [done|].
  intros H. by rewrite IH.
Qed.

Lemma hasByte_app c a b : hasByte c (a +:+ b) = hasByte c a || hasByte c b.
Proof.
  unfold hasByte. induction a as [|x r IH]; str_simpl; [done|].
  rewrite IH. by rewrite orb_assoc.
Qed.

Lemma length_app a b : String.length (a +:+ b) = (String.length a + String.length b)%nat.
Proof. induction a as [|x r IH]; str_simpl; [done|]. by rewrite IH. Qed.

Lemma app_assoc_str a b c : (a +:+ b) +:+ c = a +:+ (b +:+ c).
Proof. induction a as [|x r IH]; str_simpl; [done|]. by rewrite IH. Qed.

Lemma app_empty_r a : a +:+ "" = a.
Proof. induction a as [|x r IH]; str_simpl; [done|]. by rewrite IH. Qed.

(** *** Digits *)

Lemma digitVal_digitChar d : (d < 16)%N → digitVal (digitChar d) = Some d.
Proof.
  intros H. destruct d as [|p]; [reflexivity|].
  do 4 (destruct p as [p|p|]; try reflexivity); lia.
Qed.

Lemma isHexDigit_digitChar d : isHexDigit (digitChar d) = true.
Proof.
  destruct d as [|p]; [reflexivity|].
  do 4 (destruct p as [p|p|]; try reflexivity).
Qed.

Lemma allBytes_app P a b : allBytes P (a +:+ b) = allBytes P a && allBytes P b.
Proof. induction a as [|x r IH]; str_simpl; [done|]. by rewrite IH, andb_assoc. Qed.

Lemma allBytes_hasByte P c s :
  P c = false → allBytes P s = true → hasByte c s = false.
Proof.
  intros Hc. unfold hasByte. induction s as [|x r IH]; simpl; [done|].
  intros [Hx Hr]%andb_true_iff. rewrite IH by done.
  destruct (Ascii.eqb_spec c x) as [->|]; [congruence|done].
Qed.

Lemma fmtDigits_app base fuel n acc :
  fmtDigits base fuel n acc = fmtDigits base fuel n "" +:+ acc.
Proof.
  revert n acc. induction fuel as [|f IH]; intros n acc; simpl; [done|].
  destruct (n / base =? 0)%N; [done|].
  rewrite (IH _ (String _ acc)), (IH _ (String _ "")).
  by rewrite app_assoc_str.
Qed.

Lemma fmtDigits_hex base fuel n acc :
  allBytes isHexDigit acc = true →
  allBytes isHexDigit (fmtDigits base fuel n acc) = true.
Proof.
  revert n acc. induction fuel as [|f IH]; intros n acc Hacc; simpl; [done|].
  destruct (n / base =? 0)%N.
  - simpl. by rewrite isHexDigit_digitChar.
  - apply IH. simpl. by rewrite isHexDigit_digitChar.
Qed.

Lemma fmtUint_hex base n : allBytes isHexDigit (fmtUint base n) = true.
Proof. by apply fmtDigits_hex. Qed.

Lemma zeros_hex k : allBytes isHexDigit (zeros k) = true.
Proof. induction k; simpl; [done|]. by rewrite IHk. Qed.

Lemma fmtHexPad_hex w n : allBytes isHexDigit (fmtHexPad w n) = true.
Proof.
  unfold fmtHexPad. by rewrite allBytes_app, zeros_hex, fmtUint_hex.
Qed.

(** A formatted number holds neither a space nor a comma. *)
Lemma fmtHexPad_no c w n : isHexDigit c = false → hasByte c (fmtHexPad w n) = false.
Proof. intros H. eapply allBytes_hasByte; [done|apply fmtHexPad_hex]. Qed.

Lemma fmtDec_no c n : isHexDigit c = false → hasByte c (fmtDec n) = false.
Proof. intros H. eapply allBytes_hasByte; [done|apply fmtUint_hex]. Qed.

Lemma fmtHexPad_length n : (4 ≤ String.length (fmtHexPad 4 n))%nat.
Proof.
  unfold fmtHexPad. rewrite length_app.
  assert (String.length (zeros (4 - String.length (fmtUint 16 n)))
          = (4 - String.length (fmtUint 16 n))%nat) as ->; [|lia].
  generalize (4 - String.length (fmtUint 16 n))%nat as k.
  induction k; simpl; congruence.
Qed.

(** *** Reading back what was formatted *)

Lemma evalDigits_cons base c r a :
  evalDigits base (String c r) a =
  match digitVal c with
  | Some d => if (base <=? d)%N then None else evalDigits base r (a * base + d)%N
  | None => None
  end.
Proof. reflexivity. Qed.

Lemma evalDigits_app base s1 s2 a :
  evalDigits base (s1 +:+ s2) a =
  match evalDigits base s1 a with
  | Some v => evalDigits base s2 v
  | None => None
  end.
Proof.
  revert a. induction s1 as [|c r IH]; intros a; str_simpl; [done|].
  destruct (digitVal c); [|done]. destruct (base <=? n)%N; [done|]. apply IH.
Qed.

Lemma evalDigits_ge base s a v :
  (0 < base)%N → evalDigits base s a = Some v → (a ≤ v)%N.
Proof.
  intros Hb. revert a. induction s as [|c r IH]; intros a; simpl.
  - intros [= <-]. lia.
  - destruct (digitVal c); [|done]. destruct (base <=? n)%N; [done|].
    intros H%IH. nia.
Qed.

Lemma parseLoop_eval fn s0 base maxVal s a v :
  (0 < base)%N → evalDigits base s a = Some v → (v ≤ maxVal)%N →
  parseLoop fn s0 base maxVal s a = Ret v.
Proof.
  intros Hb. revert a. induction s as [|c r IH]; intros a; simpl.
  - by intros [= <-].
  - destruct (digitVal c) as [d|]; [|done]. destruct (base <=? d)%N; [done|].
    intros He Hv. pose proof (evalDigits_ge _ _ _ _ Hb He).
    destruct (N.ltb_spec maxVal (a * base + d)); [lia|]. by apply IH.
Qed.

Lemma evalDigits_zeros base k :
  (1 < base)%N → evalDigits base (zeros k) 0 = Some 0%N.
Proof.
  intros Hb. induction k as [|k IH]; [done|].
  change (zeros (S k)) with (String "0"%char (zeros k)).
  rewrite evalDigits_cons. replace (digitVal "0"%char) with (Some 0%N) by reflexivity.
  destruct (N.leb_spec base 0); [lia|].
  by replace (0 * base + 0)%N with 0%N by lia.
Qed.

Lemma evalDigits_fmtDigits base fuel n a :
  (1 < base ≤ 16)%N → (n < base ^ N.of_nat fuel)%N →
  ∃ k, evalDigits base (fmtDigits base fuel n "") a = Some (a * base ^ k + n)%N.
Proof.
  intros Hb. revert n. induction fuel as [|f IH]; intros n Hn.
  - simpl in *. exists 0%N. f_equal. lia.
  - simpl. assert (n mod base < base)%N by (apply N.mod_lt; lia).
    destruct (N.eqb_spec (n / base) 0) as [Hz|Hz].
    + exists 1%N. simpl. rewrite digitVal_digitChar by lia.
      destruct (N.leb_spec base (n mod base)); [lia|].
      f_equal. rewrite N.pow_1_r.
      rewrite (N.div_mod n base) at 2 by lia. rewrite Hz. lia.
    + rewrite fmtDigits_app, evalDigits_app.
      destruct (IH (n / base)%N) as [k Hk].
      { apply N.Div0.div_lt_upper_bound.
        replace (N.of_nat (S f)) with (N.succ (N.of_nat f)) in Hn by lia.
        by rewrite N.pow_succ_r' in Hn. }
      rewrite Hk. exists (N.succ k). simpl. rewrite digitVal_digitChar by lia.
      destruct (N.leb_spec base (n mod base)); [lia|].
      f_equal. rewrite N.pow_succ_r'.
      rewrite (N.div_mod n base) at 3 by lia. lia.
Qed.

Lemma fmtUint_fuel base n :
  (1 < base)%N → (n < base ^ N.of_nat (S (N.to_nat (N.log2 n))))%N.
Proof.
  intros Hb. rewrite Nat2N.inj_succ, N2Nat.id.
  destruct (N.eq_dec n 0%N) as [->|Hn].
  - simpl. lia.
  - destruct (N.log2_spec n) as [_ H]; [lia|].
    eapply N.lt_le_trans; [exact H|].
    apply N.pow_le_mono_l. lia.
Qed.

Lemma evalDigits_fmtUint base n :
  (1 < base ≤ 16)%N → evalDigits base (fmtUint base n) 0 = Some n.
Proof.
  intros Hb. unfold fmtUint.
  destruct (evalDigits_fmtDigits base (S (N.to_nat (N.log2 n))) n 0 Hb) as [k Hk].
  { apply fmtUint_fuel. lia. }
  rewrite Hk; f_equal; lia.
Qed.

Lemma fmtUint_nonempty base n : fmtUint base n ≠ "".
Proof.
  unfold fmtUint. simpl. destruct (n / base =? 0)%N; [done|].
  rewrite fmtDigits_app. destruct (fmtDigits _ _ _ ""); done.
Qed.

(** [ParseUint] reads back a decimal number within the bit size. *)
Lemma ParseUint_fmtDec n bitSize :
  (n < 2 ^ bitSize)%N → ParseUint (fmtDec n) 10 bitSize = Ret n.
Proof.
  intros Hn. unfold ParseUint, fmtDec.
  pose proof (fmtUint_nonempty 10 n).
  destruct (fmtUint 10 n) eqn:E; [done|]. rewrite <- E.
  apply parseLoop_eval; [lia|apply evalDigits_fmtUint; lia|lia].
Qed.

(** [ParseUint] reads back a zero-padded hexadecimal number. *)
Lemma ParseUint_fmtHexPad w n bitSize :
  (n < 2 ^ bitSize)%N → ParseUint (fmtHexPad w n) 16 bitSize = Ret n.
Proof.
  intros Hn. unfold ParseUint.
  assert (fmtHexPad w n ≠ "") as Hne.
  { unfold fmtHexPad. pose proof (fmtUint_nonempty 16 n).
    destruct (zeros _); simpl; [done|done]. }
  destruct (fmtHexPad w n) eqn:E; [done|]. rewrite <- E.
  apply parseLoop_eval; [lia| |lia].
  unfold fmtHexPad. rewrite evalDigits_app, (evalDigits_zeros 16) by lia.
  apply evalDigits_fmtUint. lia.
Qed.

End GoStrFacts.

(** ** The command argument builder *)

Module CmdLineFacts.
Import CmdLine.

Lemma String_eqb_true (a b : string) : String.eqb a b = true ↔ a = b.
Proof. apply String.eqb_eq. Qed.

Lemma lastWithKey_key k l a : lastWithKey k l = Some a → K a = k.
Proof.
  induction l as [|b r IH]; simpl; [done|].
  destruct (lastWithKey k r) eqn:E.
  - intros [= <-]. by apply IH.
  - destruct (String.eqb (K b) k) eqn:Eb; [|done].
    intros [= <-]. by apply String.eqb_eq.
Qed.

Lemma lastWithKey_elem k l a : lastWithKey k l = Some a → a ∈ l.
Proof.
  induction l as [|b r IH]; simpl; [done|].
  destruct (lastWithKey k r) eqn:E.
  - intros [= <-]. right. by apply IH.
  - destruct (String.eqb (K b) k); [|done]. intros [= <-]. left.
Qed.

Lemma lastWithKey_None k l : lastWithKey k l = None ↔ ∀ a, a ∈ l → K a ≠ k.
Proof.
  induction l as [|b r IH]; simpl.
  - split; [|done]. intros _ a Ha. inversion Ha.
  - destruct (lastWithKey k r) eqn:E.
    + split; [done|]. intros H. exfalso.
      apply (H c); [right; by eapply lastWithKey_elem|by eapply lastWithKey_key].
    + destruct (String.eqb (K b) k) eqn:Eb.
      * split; [done|]. intros H. exfalso. apply (H b); [left|by apply String.eqb_eq].
      * split; [|done]. intros _ a Ha. apply elem_of_cons in Ha as [->|Ha].
        -- intros Hk. apply String.eqb_eq in Hk. congruence.
        -- by apply IH.
Qed.

Lemma lastWithKey_app k l1 l2 :
  lastWithKey k (l1 ++ l2) =
  match lastWithKey k l2 with Some b => Some b | None => lastWithKey k l1 end.
Proof.
  induction l1 as [|a r IH]; simpl.
  - by destruct (lastWithKey k l2).
  - rewrite IH. by destruct (lastWithKey k l2).
Qed.

Lemma scanInv_init : scanInv (∅, []).
Proof.
  split; [constructor|]. intros k; simpl. rewrite lookup_empty.
  split; [intros H; inversion H|intros [? ?]; done].
Qed.

Lemma scanArg_inv st a : scanInv st → scanInv (scanArg st a).
Proof.
  destruct st as [m o]. intros [Hnd Hdom]. simpl in *.
  unfold scanInv, scanArg. destruct (m !! K a) eqn:E; simpl; split.
  - done.
  - intros k. rewrite Hdom. destruct (decide (K a = k)) as [<-|Hne].
    + rewrite lookup_insert_eq, E. split; eauto.
    + by rewrite lookup_insert_ne.
  - apply NoDup_app. split_and!; [done| |apply NoDup_singleton].
    intros k Hk ->%list_elem_of_singleton. apply Hdom in Hk as [? ?]. congruence.
  - intros k. rewrite elem_of_app, list_elem_of_singleton, Hdom.
    destruct (decide (K a = k)) as [<-|Hne].
    + rewrite lookup_insert_eq. split; eauto.
    + rewrite lookup_insert_ne by done. split; [intros [?|?]; [done|congruence]|eauto].
Qed.

Lemma scan_inv l st : scanInv st → scanInv (fold_left scanArg l st).
Proof.
  revert st. induction l as [|a r IH]; simpl; [done|].
  intros st H. apply IH. by apply scanArg_inv.
Qed.

Lemma scan_lookup l st k :
  (fold_left scanArg l st).1 !! k =
  match lastWithKey k l with Some a => Some a | None => st.1 !! k end.
Proof.
  revert st. induction l as [|a r IH]; intros [m o]; simpl; [done|].
  rewrite IH. simpl. destruct (lastWithKey k r); [done|].
  destruct (String.eqb (K a) k) eqn:Eb.
  - apply String.eqb_eq in Eb as <-. by rewrite lookup_insert_eq.
  - rewrite lookup_insert_ne; [done|]. intros Hk. apply String.eqb_eq in Hk. congruence.
Qed.

(** The map built by [Args] holds, for each key, its [winner]. *)
Lemma scanAll_lookup c k : (scanAll c).1 !! k = winner c k.
Proof.
  unfold scanAll, winner. rewrite scan_lookup.
  destruct (lastWithKey k (overrides c)); [done|].
  rewrite scan_lookup. simpl. rewrite lookup_empty.
  by destruct (lastWithKey k (args c)).
Qed.

Lemma scanAll_inv c : scanInv (scanAll c).
Proof. unfold scanAll. do 2 apply scan_inv. apply scanInv_init. Qed.

Lemma winner_key c k a : winner c k = Some a → K a = k.
Proof.
  unfold winner. destruct (lastWithKey k (overrides c)) eqn:E.
  - intros [= <-]. by eapply lastWithKey_key.
  - by apply lastWithKey_key.
Qed.

Lemma winner_elem c k a : winner c k = Some a → a ∈ args c ++ overrides c.
Proof.
  unfold winner. rewrite elem_of_app. destruct (lastWithKey k (overrides c)) eqn:E.
  - intros [= <-]. right. by eapply lastWithKey_elem.
  - left. by eapply lastWithKey_elem.
Qed.

(** [Args] is the concatenation of the fragments. *)
Lemma emit_fragments m o :
  emit m o =
  concat (snd <$> omap (λ k, let arg := default zeroCmdArg (m !! k) in
                             if Del arg then None else Some (k, render arg)) o).
Proof.
  induction o as [|k ks IH]; simpl; [done|].
  destruct (Del (default zeroCmdArg (m !! k))); simpl; [done|]. by rewrite IH.
Qed.

Lemma Args_fragments c : Args c = concat (snd <$> fragments c).
Proof.
  unfold Args, fragments. destruct (scanAll c) as [m o]. apply emit_fragments.
Qed.

Lemma fragments_elem c k toks :
  (k, toks) ∈ fragments c ↔
  ∃ a, winner c k = Some a ∧ Del a = false ∧ toks = render a.
Proof.
  unfold fragments. pose proof (scanAll_inv c) as [Hnd Hdom].
  pose proof (scanAll_lookup c) as Hlk.
  destruct (scanAll c) as [m o]. simpl in *.
  rewrite list_elem_of_omap. split.
  - intros (k' & Hk' & Hsome). apply Hdom in Hk' as [a Ha]. rewrite Ha in Hsome.
    simpl in Hsome. destruct (Del a) eqn:Ed; [done|].
    injection Hsome as <- <-. exists a. by rewrite <- Hlk.
  - intros (a & Ha & Hd & ->). exists k. rewrite <- Hlk in Ha. split.
    + apply Hdom. eauto.
    + rewrite Ha. simpl. by rewrite Hd.
Qed.

Lemma fragments_keys_NoDup c : NoDup (fst <$> fragments c).
Proof.
  unfold fragments. pose proof (scanAll_inv c) as [Hnd _].
  destruct (scanAll c) as [m o]. simpl in *. clear -Hnd.
  induction o as [|k ks IH]; simpl; [constructor|].
  apply NoDup_cons in Hnd as [Hk Hnd].
  destruct (Del (default zeroCmdArg (m !! k))); simpl; [by apply IH|].
  apply NoDup_cons. split; [|by apply IH].
  intros Hin. apply Hk. apply list_elem_of_fmap in Hin as ([k' t] & -> & Hin).
  apply list_elem_of_omap in Hin as (k'' & Hk'' & Hs).
  destruct (Del (default zeroCmdArg (m !! k''))); [done|]. by injection Hs as -> _.
Qed.

Lemma fragments_key_elem c k :
  k ∈ (fst <$> fragments c) ↔ ∃ a, winner c k = Some a ∧ Del a = false.
Proof.
  rewrite list_elem_of_fmap. split.
  - intros ([k' t] & -> & Hin). apply fragments_elem in Hin as (a & ? & ? & ?). eauto.
  - intros (a & Ha & Hd). exists (k, render a). split; [done|].
    apply fragments_elem. eauto.
Qed.


Lemma lastWithKey_Some_iff k l : is_Some (lastWithKey k l) ↔ k ∈ (K <$> l).
Proof.
  split.
  - intros [a Ha]. apply list_elem_of_fmap. exists a. split.
    + symmetry. by eapply lastWithKey_key.
    + by eapply lastWithKey_elem.
  - intros (a & -> & Ha)%list_elem_of_fmap.
    destruct (lastWithKey (K a) l) eqn:E; [eauto|].
    exfalso. eapply lastWithKey_None in E; eauto.
Qed.

Lemma doCall_seqs c x :
  args (doCall c x) = args c ++ baseOf x ∧
  overrides (doCall c x) = overrides c ++ overrideOf x.
Proof.
  destruct x as [k v|k|l|l]; simpl; rewrite ?app_nil_r; try done;
    destruct l; simpl; by rewrite ?app_nil_r.
Qed.

Lemma fold_doCall_seqs calls c :
  args (fold_left doCall calls c) = args c ++ flat_map baseOf calls ∧
  overrides (fold_left doCall calls c) = overrides c ++ flat_map overrideOf calls.
Proof.
  revert c. induction calls as [|x r IH]; intros c; simpl.
  - by rewrite !app_nil_r.
  - destruct (IH (doCall c x)) as [-> ->].
    destruct (doCall_seqs c x) as [-> ->]. by rewrite <- !app_assoc.
Qed.

Lemma runCalls_seqs calls :
  args (runCalls calls) = flat_map baseOf calls ∧
  overrides (runCalls calls) = flat_map overrideOf calls.
Proof. apply (fold_doCall_seqs calls emptyCmdArgs). Qed.

(** Counting a token in a concatenation of fragments with distinct keys. *)
Lemma count_fragments_absent (k : string) (frs : list (string * list string)) :
  (∀ k' t, (k', t) ∈ frs → k ∉ t) →
  count_occ string_dec (concat (snd <$> frs)) k = 0.
Proof.
  induction frs as [|[k' t] r IH]; intros H; [done|].
  rewrite fmap_cons. cbn [concat snd]. rewrite count_occ_app, IH.
  - rewrite Nat.add_0_r. apply count_occ_not_In. rewrite <- list_elem_of_In.
    apply (H k'). left.
  - intros k'' t' Hin. apply (H k''). by right.
Qed.

Lemma count_fragments_le1 (k : string) (frs : list (string * list string)) :
  NoDup (fst <$> frs) →
  (∀ k' t, (k', t) ∈ frs → k' ≠ k → k ∉ t) →
  (∀ t, (k, t) ∈ frs → (count_occ string_dec t k ≤ 1)%nat) →
  (count_occ string_dec (concat (snd <$> frs)) k ≤ 1)%nat.
Proof.
  induction frs as [|[k' t] r IH]; intros Hnd Hne Heq; [simpl; lia|].
  rewrite fmap_cons in Hnd. cbn [fst] in Hnd.
  apply NoDup_cons in Hnd as [Hk' Hnd].
  rewrite fmap_cons. cbn [concat snd]. rewrite count_occ_app.
  destruct (decide (k' = k)) as [->|Hd].
  - rewrite count_fragments_absent.
    + specialize (Heq t). rewrite Nat.add_0_r. apply Heq. left.
    + intros k'' t' Hin. apply (Hne k''); [by right|].
      intros ->. apply Hk'. apply list_elem_of_fmap. by exists (k, t').
  - assert (count_occ string_dec t k = 0) as ->.
    { apply count_occ_not_In. rewrite <- list_elem_of_In. apply (Hne k'); [left|done]. }
    apply IH; [done| |].
    + intros k'' t' Hin. apply (Hne k''). by right.
    + intros t' Hin. apply Heq. by right.
Qed.

Lemma Args_count_le1 c k :
  (∀ a, a ∈ args c ++ overrides c → K a ≠ k → k ∉ render a) →
  (∀ a, a ∈ args c ++ overrides c → K a = k →
        (count_occ string_dec (render a) k ≤ 1)%nat) →
  (count_occ string_dec (Args c) k ≤ 1)%nat.
Proof.
  intros Hne Heq. rewrite Args_fragments. apply count_fragments_le1.
  - apply fragments_keys_NoDup.
  - intros k' t (a & Ha & _ & ->)%fragments_elem Hk.
    apply Hne; [by eapply winner_elem|]. by rewrite (winner_key _ _ _ Ha).
  - intros t (a & Ha & _ & ->)%fragments_elem.
    apply Heq; [by eapply winner_elem|by eapply winner_key].
Qed.

Lemma Args_absent c k :
  k ∉ (fst <$> fragments c) →
  (∀ a, a ∈ args c ++ overrides c → K a ≠ k → k ∉ render a) →
  k ∉ Args c.
Proof.
  intros Hk Hne. rewrite Args_fragments. rewrite list_elem_of_In.
  apply (count_occ_not_In string_dec). apply count_fragments_absent.
  intros k' t Hin. pose proof Hin as (a & Ha & _ & ->)%fragments_elem.
  apply Hne; [by eapply winner_elem|]. rewrite (winner_key _ _ _ Ha).
  intros ->. apply Hk. apply list_elem_of_fmap. by exists (k, render a).
Qed.







End CmdLineFacts.

(** ** UARTs *)

Module UartFacts.
Import GoStr GoStrFacts Uart.

Lemma ToRank_cases key n :
  ToRank key = Ret n →
  (key = UART1 ∧ n = 1%N) ∨ (key = UART2 ∧ n = 2%N) ∨
  (key = UART3 ∧ n = 3%N) ∨ (key = UART4 ∧ n = 4%N).
Proof.
  unfold ToRank.
  destruct (String.eqb_spec key UART1); [intros [= <-]; auto|].
  destruct (String.eqb_spec key UART2); [intros [= <-]; auto|].
  destruct (String.eqb_spec key UART3); [intros [= <-]; auto|].
  destruct (String.eqb_spec key UART4); [intros [= <-]; auto 6|done].
Qed.

Lemma IsSupportedKey_ToRank key :
  IsSupportedKey key = true ↔ ∃ n, ToRank key = Ret n.
Proof.
  unfold IsSupportedKey, ToRank.
  destruct (String.eqb key UART1); [split; eauto|].
  destruct (String.eqb key UART2); [split; eauto|].
  destruct (String.eqb key UART3); [split; eauto|].
  destruct (String.eqb key UART4); [split; eauto|].
  split; [done|]. by intros [? ?].
Qed.

Lemma withRank_nonempty c p n : String.eqb (withRank (String c p) n) "" = false.
Proof. reflexivity. Qed.

Lemma comValue_split (cc : BasicSerialComConfig) :
  Split " " ("0x" +:+ fmtHexPad 4 (Port cc) +:+ " " +:+ fmtDec (IRQ cc)) =
  ["0x" +:+ fmtHexPad 4 (Port cc); fmtDec (IRQ cc)].
Proof.
  change ("0x" +:+ fmtHexPad 4 (Port cc) +:+ " " +:+ fmtDec (IRQ cc))
    with (("0x" +:+ fmtHexPad 4 (Port cc)) +:+ String " " (fmtDec (IRQ cc))).
  rewrite Split_app, !Split_absent; [done| |].
  - by apply fmtDec_no.
  - rewrite hasByte_app, fmtHexPad_no by done. reflexivity.
Qed.

Lemma modeValue_split (a b : string) :
  hasByte " " a = false → hasByte " " b = false →
  Split " " (a +:+ " " +:+ b) = [a; b].
Proof.
  intros Ha Hb. change (a +:+ " " +:+ b) with (a +:+ String " " b).
  by rewrite Split_app, !Split_absent.
Qed.




(** *** Decoding the machine-readable form *)

Lemma toVMInfoValue_not_off cc : String.eqb (toVMInfoValueUARTn cc) "off" = false.
Proof. reflexivity. Qed.

Lemma initFromVMInfoValue_toVMInfo cc :
  (Port cc < 2 ^ 64)%N → (IRQ cc < 2 ^ 32)%N →
  initFromVMInfoValue (toVMInfoValueUARTn cc) = Ret cc.
Proof.
  intros Hp Hi. unfold initFromVMInfoValue, toVMInfoValueUARTn.
  change ("0x" +:+ fmtHexPad 4 (Port cc) +:+ "," +:+ fmtDec (IRQ cc))
    with (("0x" +:+ fmtHexPad 4 (Port cc)) +:+ String "," (fmtDec (IRQ cc))).
  rewrite Split_app, !Split_absent.
  - cbn -[ParseUint fmtHexPad fmtDec].
    rewrite !app_cons, app_nil. cbn -[ParseUint fmtHexPad fmtDec].
    rewrite ParseUint_fmtHexPad, ParseUint_fmtDec by done. by destruct cc.
  - by apply fmtDec_no.
  - rewrite hasByte_app, fmtHexPad_no by done. reflexivity.
Qed.

Lemma isKnownMode_cases mode :
  isKnownMode mode = true →
  mode = UARTModeClient ∨ mode = UARTModeDisconnected ∨ mode = UARTModeFile ∨
  mode = UARTModeServer ∨ mode = UARTModeTCPClient ∨ mode = UARTModeTCPServer.
Proof.
  unfold isKnownMode. rewrite !orb_true_iff, !String.eqb_eq. tauto.
Qed.

Lemma modeValue_decode u0 u props n :
  ToRank (Key u0) = Ret n →
  props !! withRank "uartmode" n = Some (vmInfoModeValue u) →
  isKnownMode (Mode u) = true →
  hasByte "," (ModeData u) = false →
  (Mode u = UARTModeDisconnected → ModeData u = ModeData u0) →
  initUARTModeFromVMInfoMap u0 props =
    Ret (mkUART (ComConfig u0) (Type_ u0) (Mode u) (ModeData u) (Key u0)).
Proof.
  intros Hrank Hlk Hmode Hdata Hdisc.
  unfold initUARTModeFromVMInfoMap. rewrite Hrank.
  cbn [mbind outcome_bind]. rewrite Hlk. unfold vmInfoModeValue.
  destruct (String.eqb_spec (Mode u) UARTModeDisconnected) as [Heq|Hne].
  - rewrite String.eqb_refl. rewrite <- Hdisc, Heq; done.
  - assert (String.eqb UARTModeDisconnected (Mode u +:+ "," +:+ ModeData u) = false
            ∧ hasByte "," (Mode u) = false) as [-> Hc].
    { destruct (isKnownMode_cases _ Hmode) as [-> | [-> | [-> | [-> | [-> | ->]]]]];
        done. }
    change (Mode u +:+ "," +:+ ModeData u) with (Mode u +:+ String "," (ModeData u)).
    rewrite Split_app, !Split_absent by done. cbn [app]. by rewrite Hmode.
Qed.

Lemma typeValue_decode u0 ty props n :
  ToRank (Key u0) = Ret n →
  props !! withRank "uarttype" n = Some ty →
  IsSupportedUARTType ty = true →
  initUARTTypeFromVMInfoMap u0 props =
    Ret (mkUART (ComConfig u0) ty (Mode u0) (ModeData u0) (Key u0)).
Proof.
  intros Hrank Hlk Hty. unfold initUARTTypeFromVMInfoMap. rewrite Hrank.
  cbn -[withRank]. by rewrite Hlk, Hty.
Qed.

(** The slot of rank [n] decodes to [u]. *)
Lemma newUARTAt_vmInfoProps u n :
  ToRank (Key u) = Ret n →
  IsSupportedUARTType (Type_ u) = true →
  isKnownMode (Mode u) = true →
  (Port (ComConfig u) < 2 ^ 64)%N → (IRQ (ComConfig u) < 2 ^ 32)%N →
  hasByte "," (ModeData u) = false →
  (Mode u = UARTModeDisconnected → ModeData u = "") →
  newUARTAt (vmInfoProps n u) n = Ret u.
Proof.
  intros Hrank Hty Hmode Hp Hi Hdata Hdisc.
  assert (UARTKeyFromRank n = Ret (Key u) ∧
          vmInfoProps n u !! Key u = Some (toVMInfoValueUARTn (ComConfig u)) ∧
          vmInfoProps n u !! withRank "uartmode" n = Some (vmInfoModeValue u) ∧
          vmInfoProps n u !! withRank "uarttype" n = Some (Type_ u))
    as (Hkey & Hk1 & Hk2 & Hk3).
  { unfold vmInfoProps.
    destruct (ToRank_cases _ _ Hrank) as [[-> ->]|[[-> ->]|[[-> ->]|[-> ->]]]];
      (split_and!; [done|by simplify_map_eq..]). }
  unfold newUARTAt. rewrite Hkey. cbn -[initFromVMInfoValue toVMInfoValueUARTn].
  rewrite Hk1, toVMInfoValue_not_off, initFromVMInfoValue_toVMInfo by done.
  cbn -[initUARTModeFromVMInfoMap initUARTTypeFromVMInfoMap].
  erewrite modeValue_decode; [|done|exact Hk2|done..].
  cbn -[initUARTTypeFromVMInfoMap].
  erewrite typeValue_decode; [|done|exact Hk3|done]. by destruct u.
Qed.

(** The other slots stay off. *)
Lemma newUARTAt_other u n i key :
  ToRank (Key u) = Ret n → UARTKeyFromRank i = Ret key → i ≠ n →
  newUARTAt (vmInfoProps n u) i = Ret (UARTOffFromKey key).
Proof.
  intros Hrank Hkey Hne. unfold newUARTAt. rewrite Hkey. cbn.
  assert (vmInfoProps n u !! key = None) as ->; [|done].
  unfold vmInfoProps.
  destruct (ToRank_cases _ _ Hrank) as [[_ ->]|[[_ ->]|[[_ ->]|[_ ->]]]];
    destruct i as [|[[|[]|]|[[]|[]|]|]]; simplify_eq/=; by simplify_map_eq.
Qed.

(** C4, as the code has it.  The command-line pairs a UART serializes
    to do not decode; its machine-readable properties do: for a UART in
    one of the four slots that is not off, with a supported type and
    mode, an IRQ that fits 32 bits, and mode data without comma (none
    for [disconnected]), [NewUARTs] on these properties yields the UART
    in its slot, and off UARTs in the other three. *)
Theorem vmInfoProps_roundtrip (u : UART) (n : N) :
  ToRank (Key u) = Ret n →
  IsOff u = false →
  IsSupportedUARTType (Type_ u) = true →
  isKnownMode (Mode u) = true →
  (Port (ComConfig u) < 2 ^ 64)%N → (IRQ (ComConfig u) < 2 ^ 32)%N →
  hasByte "," (ModeData u) = false →
  (Mode u = UARTModeDisconnected → ModeData u = "") →
  NewUARTs (vmInfoProps n u) = Ret (<[N.to_nat n - 1 := u]> NewUARTsAllOff).
Proof.
  intros Hrank _ Hty Hmode Hp Hi Hdata Hdisc.
  pose proof (newUARTAt_vmInfoProps u n Hrank Hty Hmode Hp Hi Hdata Hdisc) as Hself.
  pose proof (λ i key, newUARTAt_other u n i key Hrank) as Hoth.
  unfold NewUARTs, NewUARTs_loop.
  destruct (ToRank_cases _ _ Hrank) as [[_ ->]|[[_ ->]|[[_ ->]|[_ ->]]]];
    rewrite Hself;
    repeat (first [rewrite (Hoth 1%N UART1) by done
                  |rewrite (Hoth 2%N UART2) by done
                  |rewrite (Hoth 3%N UART3) by done
                  |rewrite (Hoth 4%N UART4) by done]);
    reflexivity.
Qed.

Lemma vmInfoProps_roundtrip_witness :
  NewUARTs (vmInfoProps 2 uart2File) =
    Ret [UARTOffFromKey UART1; uart2File; UARTOffFromKey UART3; UARTOffFromKey UART4].
Proof.
  apply (vmInfoProps_roundtrip uart2File 2); try reflexivity; try (vm_compute; done).
Defined.

(** An IRQ that does not fit 32 bits is not read back: the decoder parses
    it with [bitSize] 32. *)
Lemma vmInfoProps_irq_out_of_range :
  is_fail (NewUARTs (vmInfoProps 2
             (mkUART (mkComConfig 0x2f8 (2 ^ 32)) UARTT16550A UARTModeFile
                     "/tmp/uart1" UART2))) = true.
Proof. vm_compute. reflexivity. Qed.

(** C4, as stated, fails: the pairs [commandParameters] serializes name
    the properties with a leading [--] and separate I/O base and IRQ by
    a blank, so decoding them gives four off UARTs; with the dashes
    removed, decoding is an error. *)
Lemma commandPairs_do_not_decode :
  IsOff uart2File = false ∧
  commandPairs uart2File =
    Ret [("--uart2", "0x02f8 3"); ("--uartmode2", "file /tmp/uart1");
         ("--uarttype2", "16550A")] ∧
  decodePairs uart2File = Ret NewUARTsAllOff ∧
  (uart2File ∉ NewUARTsAllOff) ∧
  decodeStrippedPairs uart2File = Fail (ErrUartBadFormat "0x02f8 3").
Proof.
  split_and!; try (vm_compute; reflexivity).
  unfold NewUARTsAllOff, uart2File. intros H.
  repeat (apply elem_of_cons in H as [H|H]; [discriminate H|]). inversion H.
Qed.

(** C5: what [NewUARTs] does on two malformed values of [uart1].  A
    first part shorter than two bytes makes the slice expression panic;
    a first part without the [0x] prefix loses its first two bytes and
    the rest is accepted as the I/O base. *)
Theorem NewUARTs_malformed_uart_value :
  NewUARTs {[ "uart1" := "1,4" ]} = Crash ∧
  NewUARTs {[ "uart1" := ",4" ]} = Crash ∧
  NewUARTs {[ "uart1" := "zz3f8,4" ]} =
    Ret [mkUART (mkComConfig 0x3f8 4) "" "" "" UART1;
         UARTOffFromKey UART2; UARTOffFromKey UART3; UARTOffFromKey UART4] ∧
  NewUARTs {[ "uart1" := "0x03f8;4" ]} = Fail (ErrUartBadFormat "0x03f8;4").
Proof. split_and!; vm_compute; reflexivity. Qed.

(** *** [NewUART] *)

Lemma multiAppend_app errs err : multiAppend errs err = errs ++ multiAppend [] err.
Proof. destruct err; simpl; [done|by rewrite app_nil_r]. Qed.

(** C9, as the code has it.  An unsupported key is answered at once,
    with an error that names the key alone and without a UART.  For a
    supported key the failures of the mode, of the port and IRQ and of
    the type are all collected, in this order, into one error. *)
Theorem NewUART_errors (Sscanf0x : string → outcome N)
        (keyStr typeStr portStr irqStr modeStr modeDataStr : string) :
  (IsSupportedKey keyStr = false →
     NewUART Sscanf0x keyStr typeStr portStr irqStr modeStr modeDataStr =
       (None, Some (ErrKeyNotSupported keyStr))) ∧
  (IsSupportedKey keyStr = true →
     ∃ u, NewUART Sscanf0x keyStr typeStr portStr irqStr modeStr modeDataStr =
            (Some u, ErrorOrNil (modeErrors modeStr
                                 ++ comErrors Sscanf0x portStr irqStr
                                 ++ typeErrors typeStr)) ∧
          Key u = keyStr ∧ Type_ u = typeStr ∧ ModeData u = modeDataStr ∧
          Mode u = (UARTModeFromStringIfSupported modeStr).1).
Proof.
  unfold NewUART. split; intros ->; [reflexivity|]. cbn [negb].
  unfold modeErrors, typeErrors, comErrors.
  destruct (UARTModeFromStringIfSupported modeStr) as [mode e1].
  destruct (UARTTypeFromStringIfSupported typeStr) as [ty e3] eqn:Ety.
  assert (ty = typeStr) as -> by (unfold UARTTypeFromStringIfSupported in Ety; congruence).
  destruct (String.eqb portStr ""), (String.eqb irqStr ""); cbn [negb andb orb fst snd];
    (eexists; split;
     [apply (f_equal2 pair); [reflexivity|f_equal]|by split_and!]);
    rewrite ?(multiAppend_app (multiAppend _ _)), ?(multiAppend_app (_ ++ _)),
      ?(multiAppend_app [_]), ?app_nil_r, <- ?app_assoc; try done.
Qed.

Lemma NewUART_errors_witness :
  ∃ u, NewUART scanHex "uart1" "bogus" "0x2f8" "3" "nomode" "" =
         (Some u, Some (ErrMulti [ErrModeFromString "nomode";
                                  ErrTypeFromString "bogus"])) ∧
       Key u = UART1.
Proof.
  destruct (NewUART_errors scanHex "uart1" "bogus" "0x2f8" "3" "nomode" "")
    as [_ H].
  destruct (H eq_refl) as (u & Hu & Hk & _). exists u. split; [exact Hu|exact Hk].
Defined.

(** C9, as stated, fails: with an unsupported key and an unsupported
    type, the error names the key only. *)
Lemma NewUART_key_error_alone :
  IsSupportedKey "uart9" = false ∧
  IsSupportedUARTType "8250" = false ∧
  NewUART scanHex "uart9" "8250" "0x2f8" "3" "file" "/tmp/x" =
    (None, Some (ErrKeyNotSupported "uart9")).
Proof. split_and!; reflexivity. Qed.


End UartFacts.

(** ** Storage controllers and machine flags *)

Module StorageFacts.
Import GoStr Storage.

Section WithAlloc.
Variable maxCap : Z.

Lemma wrapInt_small z : (- 2 ^ 63 ≤ z < 2 ^ 63)%Z → wrapInt z = z.
Proof.
  intros H. unfold wrapInt. rewrite Z.mod_small; lia.
Qed.

Lemma findStorageMedia_ok name bus portCount props :
  (0 ≤ portCount)%Z → (portCount * 2 < 2 ^ 63)%Z → (portCount * 2 ≤ maxCap)%Z →
  is_ret (findStorageMedia maxCap name bus portCount props) = true.
Proof.
  intros H0 H1 H2. unfold findStorageMedia. rewrite wrapInt_small by lia.
  destruct (Z.ltb_spec (portCount * 2) 0); [lia|].
  destruct (Z.ltb_spec maxCap (portCount * 2)); [lia|]. done.
Qed.

(** The controllers the loop adds are kept, in order. *)
Lemma loop_acc props idxs acc ctrls :
  NewStorageControllers_loop maxCap props idxs acc = Ret ctrls →
  ∃ more, ctrls = acc ++ more.
Proof.
  revert acc. induction idxs as [|j r IH]; intros acc; simpl.
  - intros [= <-]. exists []. by rewrite app_nil_r.
  - destruct (props !! _) as [nm|]; [|apply IH].
    destruct (findStorageControllerByIndex maxCap nm (Itoa j) props) as [sc| |];
      cbn [mbind outcome_bind]; [|done..].
    intros [more ->]%IH. exists (sc :: more). by rewrite <- app_assoc.
Qed.

Lemma loop_elem props idxs acc ctrls j nm sc :
  NewStorageControllers_loop maxCap props idxs acc = Ret ctrls →
  j ∈ idxs →
  props !! ("storagecontrollername" +:+ Itoa j) = Some nm →
  findStorageControllerByIndex maxCap nm (Itoa j) props = Ret sc →
  sc ∈ ctrls.
Proof.
  revert acc. induction idxs as [|j' r IH]; intros acc Hloop Hj Hnm Hsc.
  - inversion Hj.
  - simpl in Hloop. apply elem_of_cons in Hj as [<-|Hj].
    + rewrite Hnm, Hsc in Hloop. cbn [mbind outcome_bind] in Hloop.
      apply loop_acc in Hloop as [more ->].
      rewrite !elem_of_app, list_elem_of_singleton. auto.
    + destruct (props !! ("storagecontrollername" +:+ Itoa j')) as [nm'|];
        [|by eapply IH].
      destruct (findStorageControllerByIndex maxCap nm' (Itoa j') props);
        cbn [mbind outcome_bind] in Hloop; [by eapply IH|done..].
Qed.

Lemma loop_ok props idxs acc :
  (∀ j nm, j ∈ idxs →
     props !! ("storagecontrollername" +:+ Itoa j) = Some nm →
     is_ret (findStorageControllerByIndex maxCap nm (Itoa j) props) = true) →
  is_ret (NewStorageControllers_loop maxCap props idxs acc) = true.
Proof.
  revert acc. induction idxs as [|j r IH]; intros acc Hall; simpl; [done|].
  destruct (props !! _) as [nm|] eqn:Hnm.
  - pose proof (Hall j nm ltac:(left) Hnm) as Hj.
    destruct (findStorageControllerByIndex maxCap nm (Itoa j) props);
      [|done..]. cbn [mbind outcome_bind]. apply IH.
    intros j' nm' Hj'. apply Hall. by right.
  - apply IH. intros j' nm' Hj'. apply Hall. by right.
Qed.


End WithAlloc.



End StorageFacts.

Module MachineFacts.
Import CmdLine Machine CmdLineFacts.

Lemma land_eq_iff (f o : Z) :
  Z.land f o = o ↔ ∀ i, Z.testbit o i = true → Z.testbit f i = true.
Proof.
  split.
  - intros H i Hi. rewrite <- H in Hi. rewrite Z.land_spec in Hi.
    by apply andb_true_iff in Hi as [? _].
  - intros H. apply Z.bits_inj'. intros i _. rewrite Z.land_spec.
    destruct (Z.testbit o i) eqn:E; [|by rewrite andb_false_r].
    by rewrite (H i E).
Qed.

Lemma Get_on_or_off f o : Get f o = "on" ∨ Get f o = "off".
Proof. unfold Get, bool2string. destruct (Z.land f o =? o)%Z; auto. Qed.

Lemma appendToggles_args f c :
  args (appendToggles f c) =
  args c ++
    [NewCmdArg "--acpi" (Get f ACPI); NewCmdArg "--ioapic" (Get f IOAPIC);
     NewCmdArg "--rtcuseutc" (Get f RTCUSEUTC);
     NewCmdArg "--cpuhotplug" (Get f CPUHOTPLUG);
     NewCmdArg "--pae" (Get f PAE); NewCmdArg "--longmode" (Get f LONGMODE);
     NewCmdArg "--hpet" (Get f HPET); NewCmdArg "--hwvirtex" (Get f HWVIRTEX);
     NewCmdArg "--triplefaultreset" (Get f TRIPLEFAULTRESET);
     NewCmdArg "--nestedpaging" (Get f NESTEDPAGING);
     NewCmdArg "--largepages" (Get f LARGEPAGES);
     NewCmdArg "--vtxvpid" (Get f VTXVPID); NewCmdArg "--vtxux" (Get f VTXUX);
     NewCmdArg "--accelerate3d" (Get f ACCELERATE3D);
     NewCmdArg "--nested-hw-virt" (Get f NESTED_HW_VIRT)].
Proof.
  unfold appendToggles, Append. cbn [args]. by rewrite <- !app_assoc.
Qed.

Lemma boot_key_not_toggle s : ("--boot" +:+ s) ∉ toggleKeys.
Proof.
  change ("--boot" +:+ s)
    with (String "-" (String "-" (String "b" (String "o" (String "o" (String "t" s)))))).
  unfold toggleKeys. intros H.
  repeat (apply elem_of_cons in H as [H|H]; [discriminate H|]). inversion H.
Qed.

Lemma fragment_in_Args c k toks :
  (k, toks) ∈ fragments c → ∃ pre post, Args c = pre ++ toks ++ post.
Proof.
  intros Hin. rewrite Args_fragments.
  apply list_elem_of_split in Hin as (l1 & l2 & ->).
  rewrite fmap_app, concat_app. cbn [fmap list_fmap concat snd]. eauto.
Qed.

Lemma appendBoot_seqs i devs c :
  overrides (appendBoot i devs c) = overrides c ∧
  ∃ boots, args (appendBoot i devs c) = args c ++ boots ∧
           Forall (λ a, ∃ s, K a = "--boot" +:+ s) boots.
Proof.
  revert i c. induction devs as [|dev r IH]; intros i c; cbn [appendBoot].
  - split; [done|]. exists []. by rewrite app_nil_r.
  - destruct (3 <? i)%nat.
    + split; [done|]. exists []. by rewrite app_nil_r.
    + destruct (IH (S i) (Append ("--boot" +:+ GoStr.fmtDec (N.of_nat (i + 1))) dev c))
        as (Ho & boots & Ha & Hall).
      split; [by rewrite Ho|]. eexists (_ :: boots). rewrite Ha. cbn [Append args].
      rewrite <- app_assoc. split; [done|]. constructor; [|done]. cbn. eauto.
Qed.

Lemma prefixed_not_toggle (k : string) :
  (∃ c s, (c = "n" ∨ c = "c" ∨ c = "m" ∨ c = "h" ∨ c = "b" ∨ c = "i")%char ∧
          ∃ d, (d = "i" ∨ d = "a" ∨ d = "o" ∨ d = "r" ∨ d = "n")%char ∧
               k = String "-" (String "-" (String c (String d s))) ∧
               (c = "i" → d = "n")%char ∧ (c = "h" → d = "o")%char ∧
               (c = "c" → d = "a")%char ∧ (c = "n" → d ≠ "e")%char) →
  k ∉ toggleKeys.
Proof.
  intros (c & s & Hc & d & Hd & -> & H1 & H2 & H3 & H4) H.
  unfold toggleKeys in H.
  repeat (apply elem_of_cons in H as [H|H];
          [injection H as -> ->;
           first [ by destruct Hc as [?|[?|[?|[?|[?|?]]]]]
                 | by (specialize (H1 eq_refl))
                 | by (specialize (H2 eq_refl))
                 | by (specialize (H3 eq_refl))
                 | by (specialize (H4 eq_refl) ) ]|]).
  inversion H.
Qed.

Lemma boot_not_toggle a : (∃ s, K a = "--boot" +:+ s) → K a ∉ toggleKeys.
Proof. intros [s ->]. apply boot_key_not_toggle. Qed.

Section WithModify.
Variable NICNetHostonly NICNetBridged NICNetNAT NICNetNATNetwork NICNetInternal : string.
Variable ModifyVMCmdArgs : Uart.UARTs → outcome (list CmdArg).

Abbreviation appendNicParams :=
  (appendNicParams NICNetHostonly NICNetBridged NICNetNAT NICNetNATNetwork NICNetInternal).
Abbreviation appendNics :=
  (appendNics NICNetHostonly NICNetBridged NICNetNAT NICNetNATNetwork NICNetInternal).
Abbreviation modifyCmdArgs :=
  (modifyCmdArgs NICNetHostonly NICNetBridged NICNetNAT NICNetNATNetwork NICNetInternal
                 ModifyVMCmdArgs).
Abbreviation modifyArgs :=
  (modifyArgs NICNetHostonly NICNetBridged NICNetNAT NICNetNATNetwork NICNetInternal
              ModifyVMCmdArgs).

Lemma addsNoToggle_refl c : addsNoToggle c c.
Proof. split; [done|]. exists []. by rewrite app_nil_r. Qed.

Lemma addsNoToggle_trans c1 c2 c3 :
  addsNoToggle c1 c2 → addsNoToggle c2 c3 → addsNoToggle c1 c3.
Proof.
  intros (Ho1 & l1 & Ha1 & Hl1) (Ho2 & l2 & Ha2 & Hl2).
  split; [congruence|]. exists (l1 ++ l2).
  rewrite Ha2, Ha1, <- app_assoc. split; [done|]. by apply Forall_app.
Qed.

Lemma addsNoToggle_Append k v c : k ∉ toggleKeys → addsNoToggle c (Append k v c).
Proof.
  intros Hk. split; [done|]. exists [NewCmdArg k v]. split; [done|].
  by constructor.
Qed.

Ltac nic_key :=
  apply addsNoToggle_Append; apply prefixed_not_toggle;
  rewrite ?GoStrFacts.app_cons, ?GoStrFacts.app_nil;
  do 2 eexists; split; [|eexists; split; [|split; [reflexivity|]]];
  [tauto|tauto|split_and!; intros; done].

Lemma appendNicParams_adds n nic c : addsNoToggle c (appendNicParams n nic c).
Proof.
  unfold Machine.appendNicParams.
  assert (H3 : addsNoToggle c
    (Append ("--cableconnected" +:+ GoStr.fmtInt n) "on"
       (Append ("--nictype" +:+ GoStr.fmtInt n) (Hardware nic)
          (Append ("--nic" +:+ GoStr.fmtInt n) (Network nic) c)))).
  { eapply addsNoToggle_trans; [|nic_key].
    eapply addsNoToggle_trans; [|nic_key]. nic_key. }
  set (c3 := Append ("--cableconnected" +:+ GoStr.fmtInt n) "on" _) in *.
  eapply addsNoToggle_trans; [exact H3|]. clear H3. clearbody c3.
  assert (H4 : addsNoToggle c3
    (if negb (String.eqb (MacAddr nic) "")
     then Append ("--macaddress" +:+ GoStr.fmtInt n) (MacAddr nic) c3 else c3)).
  { destruct (negb _); [nic_key|apply addsNoToggle_refl]. }
  set (c4 := if negb (String.eqb (MacAddr nic) "") then _ else c3) in *.
  eapply addsNoToggle_trans; [exact H4|]. clear H4. clearbody c4.
  repeat match goal with
         | |- addsNoToggle _ (if ?b then _ else _) => destruct b
         end;
    first [apply addsNoToggle_refl | nic_key].
Qed.

Lemma appendNics_adds i nics c : addsNoToggle c (appendNics i nics c).
Proof.
  revert i c. induction nics as [|nic r IH]; intros i c; cbn [Machine.appendNics].
  - apply addsNoToggle_refl.
  - eapply addsNoToggle_trans; [apply appendNicParams_adds|apply IH].
Qed.

Lemma appendBoot_adds i devs c : addsNoToggle c (appendBoot i devs c).
Proof.
  destruct (appendBoot_seqs i devs c) as (Ho & boots & Ha & Hall).
  split; [done|]. exists boots. split; [done|].
  eapply Forall_impl; [exact Hall|]. intros a. apply boot_not_toggle.
Qed.

Lemma lastWithKey_skip k l1 l2 :
  Forall (λ a, K a ≠ k) l2 → lastWithKey k (l1 ++ l2) = lastWithKey k l1.
Proof.
  intros H. rewrite lastWithKey_app.
  assert (lastWithKey k l2 = None) as ->; [|done].
  apply lastWithKey_None. intros a Ha. rewrite list.Forall_forall in H. by apply H.
Qed.

(** The toggle that the base sequence of [Modify] holds for a key. *)
Lemma toggle_in_base m k fl :
  (k, fl) ∈ toggleTable →
  overrides (appendToggles (Flag_ m) (
    Append "--vram" (GoStr.fmtDec (VRAM m))
      (Append "--memory" (GoStr.fmtDec (Memory m))
        (Append "--cpus" (GoStr.fmtDec (CPUs m))
          (Append "--ostype" (OSType m)
            (Append "--biosbootmenu" "disabled"
              (Append "--bioslogodisplaytime" "0"
                (Append "--bioslogofadeout" "off"
                  (Append "--bioslogofadein" "off"
                    (Append "--firmware" "bios" emptyCmdArgs)))))))))) = [] ∧
  lastWithKey k (args (appendToggles (Flag_ m) (
    Append "--vram" (GoStr.fmtDec (VRAM m))
      (Append "--memory" (GoStr.fmtDec (Memory m))
        (Append "--cpus" (GoStr.fmtDec (CPUs m))
          (Append "--ostype" (OSType m)
            (Append "--biosbootmenu" "disabled"
              (Append "--bioslogodisplaytime" "0"
                (Append "--bioslogofadeout" "off"
                  (Append "--bioslogofadein" "off"
                    (Append "--firmware" "bios" emptyCmdArgs))))))))))) =
    Some (NewCmdArg k (Get (Flag_ m) fl)).
Proof.
  intros Hk. split; [done|].
  rewrite appendToggles_args. unfold Append. cbn [args emptyCmdArgs app].
  unfold toggleTable in Hk.
  repeat (apply elem_of_cons in Hk as [Hk|Hk]; [injection Hk as -> ->; reflexivity|]).
  inversion Hk.
Qed.

Lemma toggle_key k fl : (k, fl) ∈ toggleTable → k ∈ toggleKeys.
Proof.
  unfold toggleTable, toggleKeys. intros Hk.
  repeat (apply elem_of_cons in Hk as [Hk|Hk];
          [injection Hk as -> ->;
           repeat first [apply list_elem_of_here | apply list_elem_of_further]|]).
  inversion Hk.
Qed.

(** The sequences [Modify] hands to [Args]. *)
Lemma modifyCmdArgs_seqs m override uartsCmdArgs :
  ModifyVMCmdArgs (UARTs m) = Ret uartsCmdArgs →
  ∃ c tail,
    modifyCmdArgs m override = Ret c ∧
    overrides c = override ∧
    args c = args (appendToggles (Flag_ m) (
      Append "--vram" (GoStr.fmtDec (VRAM m))
        (Append "--memory" (GoStr.fmtDec (Memory m))
          (Append "--cpus" (GoStr.fmtDec (CPUs m))
            (Append "--ostype" (OSType m)
              (Append "--biosbootmenu" "disabled"
                (Append "--bioslogodisplaytime" "0"
                  (Append "--bioslogofadeout" "off"
                    (Append "--bioslogofadein" "off"
                      (Append "--firmware" "bios" emptyCmdArgs))))))))))
             ++ tail ++ uartsCmdArgs ∧
    Forall (λ a, K a ∉ toggleKeys) tail.
Proof.
  intros Hu. unfold Machine.modifyCmdArgs. rewrite Hu.
  set (c0 := appendToggles _ _).
  assert (Hadds : addsNoToggle c0 (appendNics 0 (NICs m) (modifyMachineArgs m))).
  { eapply addsNoToggle_trans; [|apply appendNics_adds].
    unfold modifyMachineArgs. apply appendBoot_adds. }
  destruct Hadds as (Ho & tail & Ha & Htail).
  assert (Ho0 : overrides c0 = []) by done.
  eexists _, tail. split; [reflexivity|].
  split_and!; [| |done].
  - destruct override; destruct uartsCmdArgs; cbn [AppendOverride AppendCmdArgs overrides];
      rewrite ?Ho, ?Ho0; done.
  - destruct override; destruct uartsCmdArgs; cbn [AppendOverride AppendCmdArgs args];
      rewrite Ha, ?app_nil_r, <- ?app_assoc; done.
Qed.


End WithModify.



End MachineFacts.

(** ** Listings *)

Module ListingFacts.
Import Listing.

Section WithParsers.
Variable ToLower : string → string.
Variable ParseIP : string → IP.
Variable To4 : IP → IP.
Variable ParseCIDRMask : string → outcome IPMask.
Variable ParseIPv4Mask : string → IPMask.
Variable stringYes : string.

Abbreviation dhcpLine := (dhcpLine ToLower ParseIP To4 ParseIPv4Mask stringYes).
Abbreviation dhcpLoop := (dhcpLoop ToLower ParseIP To4 ParseIPv4Mask stringYes).
Abbreviation DHCPs := (DHCPs ToLower ParseIP To4 ParseIPv4Mask stringYes).
Abbreviation dhcpField := (dhcpField ToLower ParseIP To4 ParseIPv4Mask stringYes).
Abbreviation dhcpRecordOf := (dhcpRecordOf ToLower ParseIP To4 ParseIPv4Mask stringYes).
Abbreviation dhcpNameOf := (dhcpNameOf ToLower).
Abbreviation dhcpNames := (dhcpNames ToLower).
Abbreviation stepsTo := (stepsTo ToLower ParseIP To4 ParseIPv4Mask stringYes).

Lemma dhcpWrite_current f st d :
  current st = Some d → current (dhcpWrite f st) = Some (f d).
Proof.
  unfold current, dhcpWrite. cbn. intros H.
  rewrite list_lookup_alter_eq. by rewrite H.
Qed.

Lemma dhcpWrite_other f st p :
  p ≠ dcur st → dheap (dhcpWrite f st) !! p = dheap st !! p.
Proof.
  intros H. unfold dhcpWrite. cbn. by rewrite list_lookup_alter_ne.
Qed.

Lemma dhcpWrite_length f st : length (dheap (dhcpWrite f st)) = length (dheap st).
Proof. unfold dhcpWrite. cbn. by rewrite length_alter. Qed.

Lemma stepsTo_refl st line :
  dhcpNameOf line = None → (∀ d, dhcpField d line = d) → stepsTo st line st.
Proof.
  intros Hn Hf. unfold Listing.stepsTo. rewrite Hn. split_and!; try done.
  intros d Hd. by rewrite Hf.
Qed.

Lemma stepsTo_write st line f :
  dhcpNameOf line = None → (∀ d, dhcpField d line = f d) →
  stepsTo st line (dhcpWrite f st).
Proof.
  intros Hn Hf. unfold Listing.stepsTo. rewrite Hn. split_and!; try done.
  - apply dhcpWrite_length.
  - intros d Hd. rewrite Hf. by apply dhcpWrite_current.
  - intros p Hp. by apply dhcpWrite_other.
Qed.

Lemma dhcpLine_nonblank out st line :
  line ≠ "" →
  match dhcpNameOf line with
  | Some v =>
      match dm st !! v with
      | Some _ => ∃ e, dhcpLine out st line = Fail e
      | None => ∃ st', dhcpLine out st line = Ret st' ∧ stepsTo st line st'
      end
  | None => ∃ st', dhcpLine out st line = Ret st' ∧ stepsTo st line st'
  end.
Proof.
  intros Hne. unfold Listing.dhcpLine, Listing.dhcpNameOf.
  destruct (String.eqb_spec line ""); [done|].
  pose proof (stepsTo_refl st line) as Hrefl.
  pose proof (stepsTo_write st line) as Hwrite.
  unfold Listing.stepsTo, Listing.dhcpField, Listing.dhcpNameOf in *.
  destruct (reColonLine line) as [[k val]|]; [|eauto].
  destruct (String.eqb (ToLower k) "networkname") eqn:E1.
  { cbn [dm dhcpWrite]. destruct (dm st !! val) eqn:Em; [eauto|].
    eexists. split; [reflexivity|]. cbn [dm dheap dcur].
    split_and!; try done; [| | |by intros v [= <-]].
    - apply (dhcpWrite_length _ st).
    - intros d Hd. by apply (dhcpWrite_current _ st).
    - intros p Hp. by apply (dhcpWrite_other _ st). }
  destruct (String.eqb (ToLower k) "ip" || String.eqb (ToLower k) "dhcpd ip");
    [eauto|].
  destruct (String.eqb (ToLower k) "upperipaddress"); [eauto|].
  destruct (String.eqb (ToLower k) "loweripaddress"); [eauto|].
  destruct (String.eqb (ToLower k) "networkmask"); [eauto|].
  destruct (String.eqb (ToLower k) "enabled"); eauto.
Qed.

Lemma dhcpNameOf_blank : dhcpNameOf "" = None.
Proof. reflexivity. Qed.

Lemma dhcpLine_blank out st :
  dhcpLine out st "" =
    Ret (mkDhcpState (dm st) (dheap st ++ [zeroDHCP]) (length (dheap st))).
Proof. reflexivity. Qed.

(** *** Duplicate names *)

(** Names already in the map, or given twice, make the loop fail. *)
Lemma dhcpLoop_duplicate out lines st :
  (∃ v, v ∈ dhcpNames lines ∧ is_Some (dm st !! v)) ∨ ¬ NoDup (dhcpNames lines) →
  ∃ e, dhcpLoop out lines st = Fail e.
Proof.
  revert st. induction lines as [|line rest IH]; intros st Hdup.
  { destruct Hdup as [(v & Hv & _)|Hnd]; [inversion Hv|].
    exfalso. apply Hnd. constructor. }
  cbn [Listing.dhcpLoop].
  destruct (decide (line = "")) as [->|Hne].
  - rewrite dhcpLine_blank. cbn [mbind outcome_bind]. apply IH.
    unfold Listing.dhcpNames in *. cbn [omap list_omap] in Hdup.
    rewrite dhcpNameOf_blank in Hdup. exact Hdup.
  - pose proof (dhcpLine_nonblank out st line Hne) as Hstep.
    unfold Listing.dhcpNames in Hdup. cbn [omap list_omap] in Hdup.
    fold (dhcpNames rest) in Hdup.
    destruct (dhcpNameOf line) as [v|] eqn:Hn.
    + destruct (dm st !! v) eqn:Em.
      * destruct Hstep as [e ->]. eauto.
      * destruct Hstep as (st' & -> & Hst'). cbn [mbind outcome_bind].
        apply IH. destruct Hst' as (_ & _ & _ & _ & Hdm & _). rewrite Hn in Hdm. rewrite Hdm.
        destruct Hdup as [(w & Hw & Hin)|Hnd].
        -- apply elem_of_cons in Hw as [->|Hw].
           ++ rewrite Em in Hin. by destruct Hin.
           ++ left. exists w. split; [done|].
              destruct (decide (v = w)) as [->|]; [by rewrite lookup_insert_eq|].
              by rewrite lookup_insert_ne.
        -- destruct (decide (v ∈ dhcpNames rest)) as [Hin|Hnin].
           ++ left. exists v. split; [done|]. by rewrite lookup_insert_eq.
           ++ right. intros Hnd'. apply Hnd. by constructor.
    + destruct Hstep as (st' & -> & Hst'). cbn [mbind outcome_bind].
      apply IH. destruct Hst' as (_ & _ & _ & _ & Hdm & _). rewrite Hn in Hdm. by rewrite Hdm.
Qed.

(** Without them it runs to the end. *)
Lemma dhcpLoop_distinct out lines st :
  NoDup (dhcpNames lines) →
  (∀ v, v ∈ dhcpNames lines → dm st !! v = None) →
  ∃ st', dhcpLoop out lines st = Ret st'.
Proof.
  revert st. induction lines as [|line rest IH]; intros st Hnd Hfresh.
  { by exists st. }
  cbn [Listing.dhcpLoop].
  destruct (decide (line = "")) as [->|Hne].
  - rewrite dhcpLine_blank. cbn [mbind outcome_bind]. by apply IH.
  - pose proof (dhcpLine_nonblank out st line Hne) as Hstep.
    unfold Listing.dhcpNames in Hnd, Hfresh. cbn [omap list_omap] in Hnd, Hfresh.
    fold (dhcpNames rest) in Hnd, Hfresh.
    destruct (dhcpNameOf line) as [v|] eqn:Hn.
    + rewrite (Hfresh v) in Hstep by left.
      destruct Hstep as (st' & -> & Hst'). cbn [mbind outcome_bind].
      apply NoDup_cons in Hnd as [Hv Hnd]. apply IH; [done|].
      destruct Hst' as (_ & _ & _ & _ & Hdm & _). rewrite Hn in Hdm. rewrite Hdm. intros w Hw.
      rewrite lookup_insert_ne by (intros ->; done). apply Hfresh. by right.
    + destruct Hstep as (st' & -> & Hst'). cbn [mbind outcome_bind].
      apply IH; [done|].
      destruct Hst' as (_ & _ & _ & _ & Hdm & _). rewrite Hn in Hdm. by rewrite Hdm.
Qed.

(** [DHCPs] refuses a listing that gives the same name twice. *)
Lemma DHCPs_rejects_duplicates out :
  ¬ NoDup (dhcpNames (scan out).1) → ∃ e, DHCPs (Ret out) = Fail e.
Proof.
  intros Hdup. unfold Listing.DHCPs. cbn [mbind outcome_bind].
  destruct (scan out) as [lines scanErr]. cbn [fst] in Hdup.
  destruct (dhcpLoop_duplicate out lines dhcpInit (or_intror Hdup)) as [e ->].
  eauto.
Qed.

(** *** The last record *)

(** An entry of the map is never replaced. *)
Lemma dhcpLoop_mono out lines st st' v p :
  dhcpLoop out lines st = Ret st' → dm st !! v = Some p → dm st' !! v = Some p.
Proof.
  revert st. induction lines as [|line rest IH]; intros st.
  { by intros [= <-]. }
  cbn [Listing.dhcpLoop].
  destruct (decide (line = "")) as [->|Hne].
  - rewrite dhcpLine_blank. cbn [mbind outcome_bind].
    apply (IH (mkDhcpState _ _ _)).
  - pose proof (dhcpLine_nonblank out st line Hne) as Hstep.
    destruct (dhcpNameOf line) as [w|] eqn:Hn; [destruct (dm st !! w) eqn:Em|].
    + destruct Hstep as [e ->]. done.
    + destruct Hstep as (st1 & -> & Hst1). cbn [mbind outcome_bind].
      intros Hloop Hv. eapply IH; [done|].
      destruct Hst1 as (_ & _ & _ & _ & Hdm & _). rewrite Hn in Hdm. rewrite Hdm.
      rewrite lookup_insert_ne; [done|]. intros ->. congruence.
    + destruct Hstep as (st1 & -> & Hst1). cbn [mbind outcome_bind].
      intros Hloop Hv. eapply IH; [done|].
      destruct Hst1 as (_ & _ & _ & _ & Hdm & _). rewrite Hn in Hdm. by rewrite Hdm.
Qed.

(** Inside a record (no blank line), the loop fills the record [dhcp]
    points to, and files it under the names the block gives. *)
Lemma dhcpLoop_block out block st st' d :
  Forall (λ l, l ≠ "") block →
  current st = Some d →
  dhcpLoop out block st = Ret st' →
  dcur st' = dcur st ∧
  current st' = Some (fold_left dhcpField block d) ∧
  ∀ v, v ∈ dhcpNames block → dm st' !! v = Some (dcur st).
Proof.
  revert st d. induction block as [|line rest IH]; intros st d Hnb Hcur.
  { intros [= <-]. split_and!; [done|done|]. intros v Hv. inversion Hv. }
  apply Forall_cons in Hnb as [Hne Hnb]. cbn [Listing.dhcpLoop fold_left].
  pose proof (dhcpLine_nonblank out st line Hne) as Hstep.
  unfold Listing.dhcpNames. cbn [omap list_omap]. fold (dhcpNames rest).
  assert (∀ st1, stepsTo st line st1 → dhcpLoop out rest st1 = Ret st' →
            dcur st' = dcur st ∧
            current st' = Some (fold_left dhcpField rest (dhcpField d line)) ∧
            (∀ v, v ∈ dhcpNames rest → dm st' !! v = Some (dcur st)) ∧
            (∀ v, dhcpNameOf line = Some v → dm st' !! v = Some (dcur st)))
    as Hgo.
  { intros st1 Hst1 Hloop. destruct Hst1 as (Hc1 & _ & Hf1 & _ & Hdm1 & _).
    destruct (IH st1 (dhcpField d line) Hnb (Hf1 d Hcur) Hloop) as (Hc & Hr & Hn).
    rewrite Hc1 in Hc, Hn. split_and!; try done.
    intros v Hv. rewrite Hv in Hdm1.
    eapply dhcpLoop_mono; [exact Hloop|]. rewrite Hdm1. by rewrite lookup_insert_eq. }
  destruct (dhcpNameOf line) as [w|] eqn:Hn; [destruct (dm st !! w) eqn:Em|].
  - destruct Hstep as [e ->]. done.
  - destruct Hstep as (st1 & -> & Hst1). cbn [mbind outcome_bind]. intros Hloop.
    destruct (Hgo st1 Hst1 Hloop) as (H1 & H2 & H3 & H4). split_and!; try done.
    intros v [->|Hv]%elem_of_cons; [by apply H4|by apply H3].
  - destruct Hstep as (st1 & -> & Hst1). cbn [mbind outcome_bind]. intros Hloop.
    destruct (Hgo st1 Hst1 Hloop) as (H1 & H2 & H3 & H4). by split_and!.
Qed.

Lemma dhcpLoop_app out l1 l2 st :
  dhcpLoop out (l1 ++ l2) st = (st1 ← dhcpLoop out l1 st; dhcpLoop out l2 st1).
Proof.
  revert st. induction l1 as [|line rest IH]; intros st; [done|].
  cbn [app Listing.dhcpLoop].
  destruct (dhcpLine out st line); cbn [mbind outcome_bind]; [apply IH|done..].
Qed.

(** After a blank line, or at the start, [dhcp] points to a fresh
    record. *)
Lemma dhcpLoop_fresh out pre st' :
  pre = [] ∨ (∃ p, pre = p ++ [""]) →
  dhcpLoop out pre dhcpInit = Ret st' →
  current st' = Some zeroDHCP.
Proof.
  intros [->|[p ->]].
  - by intros [= <-].
  - rewrite dhcpLoop_app.
    destruct (dhcpLoop out p dhcpInit) as [st1| |]; cbn [mbind outcome_bind];
      [|done..].
    cbn [Listing.dhcpLoop]. rewrite dhcpLine_blank. cbn [mbind outcome_bind].
    intros [= <-]. unfold current. cbn [dheap dcur].
    rewrite lookup_app_r by lia. by rewrite Nat.sub_diag.
Qed.

Lemma dhcpNames_app l1 l2 : dhcpNames (l1 ++ l2) = dhcpNames l1 ++ dhcpNames l2.
Proof. apply omap_app. Qed.

(** [DHCPs] keeps the last record of a listing even when no blank line
    follows it: the listing being free of duplicate names and read to
    its end, the map returned holds, under each name the last block
    gives, the record that block describes. *)
Lemma DHCPs_keeps_last_record out pre block :
  scan out = (pre ++ block, None) →
  pre = [] ∨ (∃ p, pre = p ++ [""]) →
  Forall (λ l, l ≠ "") block →
  NoDup (dhcpNames (pre ++ block)) →
  ∃ m, DHCPs (Ret out) = Ret m ∧
       ∀ v, v ∈ dhcpNames block → m !! v = Some (dhcpRecordOf block).
Proof.
  intros Hscan Hpre Hblock Hnd.
  unfold Listing.DHCPs. cbn [mbind outcome_bind]. rewrite Hscan.
  destruct (dhcpLoop_distinct out (pre ++ block) dhcpInit Hnd) as [st' Hst'].
  { intros v _. apply lookup_empty. }
  rewrite Hst'. cbn [mbind outcome_bind]. eexists. split; [reflexivity|].
  intros v Hv. rewrite dhcpLoop_app in Hst'.
  destruct (dhcpLoop out pre dhcpInit) as [st1| |] eqn:E1;
    cbn [mbind outcome_bind] in Hst'; [|done..].
  pose proof (dhcpLoop_fresh out pre st1 Hpre E1) as Hfresh.
  destruct (dhcpLoop_block out block st1 st' zeroDHCP Hblock Hfresh Hst')
    as (Hc & Hr & Hn).
  unfold Listing.derefDHCPs. rewrite lookup_omap, (Hn v Hv). cbn.
  unfold current in Hr. by rewrite <- Hc.
Qed.

(** C2 on the code: [NATNets] files a record only at the blank line
    that ends it, so the second network of [natListing], which no blank
    line follows, is missing from the map; [DHCPs] files a record when
    it reads its name and keeps it. *)
Theorem NATNets_drops_last_record :
  Listing.NATNets ParseIP ParseCIDRMask stringYes (Ret natListing) =
    Ret {[ "natnet1" :=
             mkNATNet "natnet1" (mkIPNet (ParseIP "10.0.2.1") []) zeroIPNet
                      false (String.eqb "Yes" stringYes) ]} ∧
  (scan natListing).1 !! 5%nat = Some "Name:         natnet2" ∧
  Listing.DHCPs asciiToLower ParseIP To4 ParseIPv4Mask stringYes (Ret dhcpListing) =
    Ret {[ "HostInterfaceNetworking-vboxnet0" :=
             mkDHCP "HostInterfaceNetworking-vboxnet0"
                    (mkIPNet (To4 (ParseIP "192.168.56.100"))
                             (ParseIPv4Mask "255.255.255.0"))
                    (To4 (ParseIP "192.168.56.101"))
                    (To4 (ParseIP "192.168.56.254"))
                    (String.eqb "No" stringYes);
           "HostInterfaceNetworking-vboxnet5" :=
             mkDHCP "HostInterfaceNetworking-vboxnet5"
                    (mkIPNet (To4 (ParseIP "192.168.61.1"))
                             (ParseIPv4Mask "255.255.255.0"))
                    (To4 (ParseIP "192.168.61.50"))
                    (To4 (ParseIP "192.168.61.200"))
                    (String.eqb "Yes" stringYes) ]}.
Proof. split_and!; vm_compute; reflexivity. Qed.

(** C3 on the code: [NATNets] has no check for a name given twice, the
    later record of [natListingDuplicate] replaces the earlier one and
    no error is returned; [DHCPs] returns its error. *)
Theorem NATNets_overwrites_duplicate :
  Listing.NATNets ParseIP ParseCIDRMask stringYes (Ret natListingDuplicate) =
    Ret {[ "natnet1" :=
             mkNATNet "natnet1" (mkIPNet (ParseIP "10.0.3.1") []) zeroIPNet
                      false (String.eqb "No" stringYes) ]} ∧
  Listing.DHCPs asciiToLower ParseIP To4 ParseIPv4Mask stringYes
                (Ret dhcpListingDuplicate) =
    Fail (ErrDhcpAlreadyParsed "HostInterfaceNetworking-vboxnet0"
                               ["HostInterfaceNetworking-vboxnet0"]
                               dhcpListingDuplicate).
Proof. split_and!; vm_compute; reflexivity. Qed.

End WithParsers.
End ListingFacts.

Module CmdLineOrder.
Import CmdLine CmdLineFacts.

Lemma firstOccurrences_elem ks k : k ∈ firstOccurrences ks ↔ k ∈ ks.
Proof.
  induction ks as [|x r IH]; simpl; [done|].
  rewrite !elem_of_cons, list_elem_of_filter, IH.
  destruct (decide (k = x)); tauto.
Qed.

Lemma firstOccurrences_NoDup ks : NoDup ks → firstOccurrences ks = ks.
Proof.
  induction ks as [|x r IH]; simpl; [done|].
  intros [Hx Hr]%NoDup_cons. rewrite IH by done. f_equal.
  clear IH Hr. induction r as [|y r IH]; [done|].
  rewrite filter_cons_True.
  - f_equal. apply IH. intros H. apply Hx. by right.
  - intros ->. apply Hx. left.
Qed.

(** The slice [orderK] after scanning [l] from a state that satisfies the
    invariant. *)
Lemma scan_order l st :
  (fold_left scanArg l st).2 =
  st.2 ++ filter (λ x, is_Some (st.1 !! x) → False) (firstOccurrences (K <$> l)).
Proof.
  revert st. induction l as [|a r IH]; intros [m o]; simpl.
  - by rewrite app_nil_r.
  - rewrite IH. cbn [fst snd]. destruct (m !! K a) eqn:E.
    + rewrite filter_cons_False by (rewrite E; intros H; apply H; eauto).
      f_equal. rewrite list_filter_filter. apply list_filter_iff. intros x.
      destruct (decide (K a = x)) as [<-|Hne].
      * rewrite lookup_insert_eq, E. intuition (eauto; congruence).
      * rewrite lookup_insert_ne by done. intuition (eauto; congruence).
    + rewrite filter_cons_True by (rewrite E; by intros [? ?]).
      rewrite <- app_assoc. cbn [app]. do 2 f_equal.
      rewrite list_filter_filter. apply list_filter_iff. intros x.
      destruct (decide (K a = x)) as [<-|Hne].
      * rewrite lookup_insert_eq. intuition (eauto; congruence).
      * rewrite lookup_insert_ne by done. intuition (eauto; congruence).
Qed.

Lemma scanAll_order c :
  (scanAll c).2 = firstOccurrences (K <$> (args c ++ overrides c)).
Proof.
  unfold scanAll.
  assert (fold_left scanArg (overrides c) (fold_left scanArg (args c) (∅, []))
          = fold_left scanArg (args c ++ overrides c) (∅, [])) as ->
    by (by rewrite fold_left_app).
  rewrite scan_order. cbn [fst snd app].
  induction (firstOccurrences _) as [|x l IH]; [done|].
  rewrite filter_cons_True by (rewrite lookup_empty; by intros [? ?]).
  by f_equal.
Qed.

Lemma fragments_keys c :
  fst <$> fragments c = filter (λ k, survives c k = true) (scanAll c).2.
Proof.
  unfold fragments. pose proof (scanAll_lookup c) as Hlk.
  pose proof (scanAll_inv c) as [_ Hdom].
  destruct (scanAll c) as [m o]. cbn [fst snd] in *.
  assert (∀ k, k ∈ o → is_Some (m !! k)) as Hin by (intros k; apply Hdom).
  clear Hdom. induction o as [|k ks IH]; [done|].
  cbn [omap list_omap].
  destruct (Hin k ltac:(left)) as [a Ha].
  assert (survives c k = negb (Del a)) as Hs
    by (unfold survives; by rewrite <- Hlk, Ha).
  rewrite Ha. cbn [default from_option id].
  destruct (Del a) eqn:Ed; cbn [negb] in Hs.
  - rewrite filter_cons_False by congruence.
    apply IH. intros k' Hk'. apply Hin. by right.
  - rewrite filter_cons_True by done.
    rewrite fmap_cons. cbn [fst]. f_equal. apply IH. intros k' Hk'. apply Hin. by right.
Qed.

(** X1.  [Args] emits the keys in the order in which they first occur,
    reading the base sequence and then the overrides: the keys of its
    fragments are these first occurrences, without the keys whose stored
    argument is missing or deleted. *)
Theorem Args_first_seen_order (c : CmdArgs) :
  (scanAll c).2 = firstOccurrences (K <$> (args c ++ overrides c)) ∧
  fst <$> fragments c =
    filter (λ k, survives c k = true)
           (firstOccurrences (K <$> (args c ++ overrides c))) ∧
  Args c = concat (snd <$> fragments c).
Proof.
  split_and!.
  - apply scanAll_order.
  - by rewrite fragments_keys, scanAll_order.
  - apply Args_fragments.
Qed.

Lemma lastWithKey_NoDup l a :
  NoDup (K <$> l) → a ∈ l → lastWithKey (K a) l = Some a.
Proof.
  induction l as [|b r IH]; [by intros _ H; inversion H|].
  rewrite fmap_cons. intros [Hb Hr]%NoDup_cons [->|Hin]%elem_of_cons; simpl.
  - assert (lastWithKey (K b) r = None) as ->.
    { apply lastWithKey_None. intros x Hx Hk. apply Hb.
      apply list_elem_of_fmap. by exists x. }
    by rewrite String.eqb_refl.
  - by rewrite IH.
Qed.

Lemma Args_concat_distinct (c : CmdArgs) :
  NoDup (K <$> (args c ++ overrides c)) →
  Forall (λ a, Del a = false) (args c ++ overrides c) →
  Args c = concat (render <$> (args c ++ overrides c)).
Proof.
  intros Hnd Hdel. rewrite Args_fragments. f_equal.
  unfold fragments. pose proof (scanAll_lookup c) as Hlk.
  pose proof (scanAll_order c) as Hord.
  destruct (scanAll c) as [m o]. cbn [fst snd] in *.
  rewrite Hord, firstOccurrences_NoDup by done.
  assert (∀ a, a ∈ args c ++ overrides c → winner c (K a) = Some a) as Hw.
  { intros a Ha. unfold winner.
    rewrite fmap_app in Hnd. apply NoDup_app in Hnd as (Hn1 & Hdisj & Hn2).
    apply elem_of_app in Ha as [Ha|Ha].
    - assert (lastWithKey (K a) (overrides c) = None) as ->.
      { apply lastWithKey_None. intros x Hx Hk.
        apply (Hdisj (K a)); apply list_elem_of_fmap; eauto. }
      by apply lastWithKey_NoDup.
    - by rewrite lastWithKey_NoDup. }
  rewrite Forall_forall in Hdel. clear Hnd Hord.
  revert Hw Hdel. generalize (args c ++ overrides c). intros l Hw Hdel.
  induction l as [|a l IH]; [done|].
  rewrite !fmap_cons. cbn [omap list_omap].
  rewrite Hlk, (Hw a) by left. cbn [default from_option id].
  rewrite (Hdel a) by left. rewrite fmap_cons. cbn [snd]. f_equal.
  apply IH.
  - intros x Hx. apply Hw. by right.
  - intros x Hx. apply Hdel. by right.
Qed.

(** X2.  When the keys of the base sequence and of the overrides are
    pairwise distinct and no argument is deleted, nothing is merged or
    dropped: [Args] is the arguments rendered one after the other, base
    sequence first. *)
Theorem Args_distinct_keys (c : CmdArgs) :
  NoDup (K <$> (args c ++ overrides c)) →
  Forall (λ a, Del a = false) (args c ++ overrides c) →
  Args c = concat (render <$> (args c ++ overrides c)).
Proof. apply Args_concat_distinct. Qed.

Lemma Args_distinct_keys_witness :
  Args distinctArgs = ["--cpus"; "1"; "--nested"; "--vram"; "16"].
Proof.
  rewrite (Args_distinct_keys distinctArgs); [reflexivity| |].
  - vm_compute. repeat (apply NoDup_cons_2; [set_solver|]). apply NoDup_nil_2.
  - vm_compute. repeat constructor.
Defined.

Lemma winner_AppendOverride c a k :
  winner (AppendOverride [a] c) k =
  if String.eqb (K a) k then Some a else winner c k.
Proof.
  unfold winner, AppendOverride. cbn [overrides args].
  rewrite lastWithKey_app. cbn [lastWithKey].
  destruct (String.eqb (K a) k); [done|].
  by destruct (lastWithKey k (overrides c)).
Qed.

Lemma omap_ext_elem {A B} (f g : A → option B) (l : list A) :
  (∀ x, x ∈ l → f x = g x) → omap f l = omap g l.
Proof.
  induction l as [|x r IH]; intros H; [done|]. cbn [omap list_omap].
  rewrite (H x) by left. rewrite IH; [done|]. intros y Hy. apply H. by right.
Qed.

Lemma fragments_fragmentAt c : fragments c = omap (fragmentAt c) (scanAll c).2.
Proof.
  unfold fragments. pose proof (scanAll_lookup c) as Hlk.
  pose proof (scanAll_inv c) as [_ Hdom].
  destruct (scanAll c) as [m o]. cbn [fst snd] in *.
  apply omap_ext_elem. intros k Hk. unfold fragmentAt. rewrite <- Hlk.
  apply Hdom in Hk as [b Hb]. rewrite Hb. done.
Qed.

(** X3.  One more override leaves the keys given so far in their order
    and changes the fragment of its own key only: that fragment is
    replaced where it stands (or removed, for a deleted override), and a
    key not given before is added at the end. *)
Theorem override_replaces_in_place (c : CmdArgs) (a : CmdArg) :
  (scanAll (AppendOverride [a] c)).2 =
    (scanAll c).2 ++ (if bool_decide (K a ∈ (scanAll c).2) then [] else [K a]) ∧
  fragments (AppendOverride [a] c) =
    omap (λ k, if String.eqb (K a) k
               then (if Del a then None else Some (K a, render a))
               else fragmentAt c k)
         ((scanAll c).2 ++ (if bool_decide (K a ∈ (scanAll c).2) then [] else [K a])).
Proof.
  assert ((scanAll (AppendOverride [a] c)).2 =
          (scanAll c).2 ++ (if bool_decide (K a ∈ (scanAll c).2) then [] else [K a]))
    as Hord.
  { unfold scanAll, AppendOverride. cbn [args overrides].
    rewrite fold_left_app. cbn [fold_left].
    pose proof (scan_inv (overrides c) _ (scan_inv (args c) _ scanInv_init)) as [_ Hdom].
    destruct (fold_left scanArg (overrides c) _) as [m o]. cbn [fst snd] in *.
    unfold scanArg. cbn [snd]. destruct (m !! K a) eqn:E.
    - rewrite bool_decide_eq_true_2 by (apply Hdom; eauto). by rewrite app_nil_r.
    - rewrite bool_decide_eq_false_2; [done|]. intros [? ?]%Hdom. congruence. }
  split; [done|].
  rewrite fragments_fragmentAt, Hord. apply omap_ext_elem.
  intros k _. unfold fragmentAt at 1. rewrite winner_AppendOverride.
  destruct (String.eqb_spec (K a) k) as [<-|]; done.
Qed.

End CmdLineOrder.

Module UartSlices.
Import GoStr Uart GoStrFacts UartFacts.

Lemma compact_inv (uarts : UARTs) (i : nat) :
  (i ≤ length uarts)%nat →
  ∃ arr n, fold_left compactStep (seq 0 i) (Ret (uarts, 0%nat)) = Ret (arr, n) ∧
           (n ≤ i)%nat ∧ length arr = length uarts ∧
           take n arr = filter (λ u, IsOff u = false) (take i uarts) ∧
           drop i arr = drop i uarts.
Proof.
  induction i as [|i IH]; intros Hi.
  - exists uarts, 0%nat. cbn. rewrite !take_0. done.
  - destruct IH as (arr & n & Hf & Hn & Hlen & Htake & Hdrop); [lia|].
    rewrite seq_S, fold_left_app, Hf. cbn [fold_left Nat.add compactStep mbind outcome_bind fst snd].
    destruct (lookup_lt_is_Some_2 uarts i) as [u Hu]; [lia|].
    assert (Harr : arr !! i = Some u).
    { rewrite <- (take_drop i arr), lookup_app_r by (rewrite length_take; lia).
      rewrite Hdrop, length_take, lookup_drop.
      replace (i + (i - i `min` length arr))%nat with i by lia. done. }
    rewrite Harr.
    rewrite (take_S_r uarts i u Hu), filter_app.
    destruct (IsOff u) eqn:Hoff.
    + exists arr, n. split_and!; [done|lia|done| |].
      * rewrite Htake. rewrite filter_cons_False, filter_nil, app_nil_r; [done|].
        cbn. congruence.
      * replace (S i) with (i + 1)%nat by lia. rewrite <- !drop_drop, Hdrop. done.
    + destruct (decide (n < length arr)%nat) as [Hlt|Hge]; [|lia].
      exists (<[n := u]> arr), (S n).
      split_and!; [done|lia|by rewrite length_insert| |].
      * rewrite filter_cons_True, filter_nil by done.
        rewrite <- Htake.
        rewrite (take_S_r _ n u) by (apply list_lookup_insert_eq; lia).
        rewrite take_insert_ge by lia. done.
      * rewrite drop_insert_lt by lia.
        replace (S i) with (i + 1)%nat by lia. rewrite <- !drop_drop, Hdrop. done.
Qed.

(** X4.  [WithoutUARTHavingStateOff] never panics on an index, and the
    slice it leaves holds exactly the UARTs that are not off, in their
    original order. *)
Theorem WithoutUARTHavingStateOff_filter (uarts : UARTs) :
  WithoutUARTHavingStateOff uarts = Ret (filter (λ u, IsOff u = false) uarts).
Proof.
  unfold WithoutUARTHavingStateOff.
  destruct (compact_inv uarts (length uarts)) as (arr & n & -> & _ & _ & Ht & _); [lia|].
  cbn. rewrite Ht, firstn_all. done.
Qed.


Lemma IsSupportedKey_cases key :
  IsSupportedKey key = true →
  key = UART1 ∨ key = UART2 ∨ key = UART3 ∨ key = UART4.
Proof.
  unfold IsSupportedKey. rewrite !orb_true_iff, !String.eqb_eq. tauto.
Qed.

Lemma slots_insert m key u :
  IsSupportedKey key = true →
  ∃ n, ToRank key = Ret n ∧ (N.to_nat n - 1 < 4)%nat ∧
       <[(N.to_nat n - 1)%nat := u]> (slots m) = slots (<[key := u]> m).
Proof.
  intros Hk. apply IsSupportedKey_cases in Hk as [-> | [-> | [-> | ->]]];
    eexists; (split; [reflexivity|]); (split; [cbn; lia|]);
    unfold slots, slotOf; cbn; by simplify_map_eq.
Qed.

Lemma slots_insert_other m key u :
  IsSupportedKey key = false → slots (<[key := u]> m) = slots m.
Proof.
  intros Hk. unfold slots, slotOf.
  rewrite !lookup_insert_ne; [done|..]; intros ->; done.
Qed.

Lemma fromMap_fold (l : list (UARTKey * UART)) :
  NoDup l.*1 →
  fold_left fromMapStep l (Ret (NewUARTsAllOff, [])) =
    Ret (slots (list_to_map l),
         (λ kv, ErrMapKeyUnsupported kv.1) <$>
           filter (λ kv, IsSupportedKey kv.1 = false) l).
Proof.
  induction l as [|[k u] l IH] using rev_ind; intros Hnd; [done|].
  rewrite fmap_app in Hnd. apply NoDup_app in Hnd as (Hl & Hk & _).
  rewrite fold_left_app, IH by done. cbn [fold_left fromMapStep mbind outcome_bind fst snd].
  assert (Hmap : list_to_map (l ++ [(k, u)]) =@{gmap UARTKey UART} <[k := u]> (list_to_map l)).
  { rewrite list_to_map_snoc; [done|]. intros Hin. apply (Hk k Hin). cbn. set_solver. }
  rewrite Hmap, filter_app, fmap_app.
  destruct (IsSupportedKey k) eqn:Hs; cbn [negb].
  - destruct (slots_insert (list_to_map l) k u Hs) as (n & -> & Hlt & <-).
    cbn [mbind outcome_bind].
    rewrite decide_True by (cbn; lia).
    rewrite filter_cons_False, filter_nil by (cbn; congruence).
    cbn. by rewrite app_nil_r.
  - rewrite slots_insert_other by done.
    rewrite filter_cons_True, filter_nil by done. done.
Qed.

(** X5.  Whatever order the map is ranged over, [NewUARTsFromUARTMap]
    does not panic and returns four UARTs: slot [N] holds the UART the
    map has under [uart<N>], unchanged, or the off UART of that key when
    the map has none.  Each key outside the four is reported, and the
    error is nil exactly when the map has no such key. *)
Theorem NewUARTsFromUARTMap_slots (uartMap : gmap UARTKey UART)
        (order : list (UARTKey * UART)) :
  order ≡ₚ map_to_list uartMap →
  ∃ errs,
    NewUARTsFromUARTMap_in order =
      Ret ([slotOf uartMap UART1; slotOf uartMap UART2;
            slotOf uartMap UART3; slotOf uartMap UART4], errs) ∧
    errs = (λ kv, ErrMapKeyUnsupported kv.1) <$>
             filter (λ kv, IsSupportedKey kv.1 = false) order ∧
    (errs = [] ↔ ∀ key, is_Some (uartMap !! key) → IsSupportedKey key = true).
Proof.
  intros Hperm.
  assert (Hnd : NoDup order.*1).
  { rewrite Hperm. apply NoDup_fst_map_to_list. }
  assert (Hm : list_to_map order = uartMap).
  { rewrite <- (list_to_map_to_list uartMap). apply list_to_map_proper; [done|].
    done. }
  eexists. split; [|split; [reflexivity|]].
  - unfold NewUARTsFromUARTMap_in. rewrite fromMap_fold by done. rewrite Hm. done.
  - split.
    + intros Hnil key [u Hu].
      destruct (IsSupportedKey key) eqn:Hs; [done|].
      apply fmap_nil_inv in Hnil.
      assert (Hin : (key, u) ∈ filter (λ kv, IsSupportedKey kv.1 = false) order).
      { apply list_elem_of_filter. split; [done|].
        rewrite Hperm. by apply elem_of_map_to_list. }
      rewrite Hnil in Hin. by apply elem_of_nil in Hin.
    + intros Hall.
      destruct (filter _ order) as [|[k u] r] eqn:Hf; [done|]. exfalso.
      assert (Hin : (k, u) ∈ filter (λ kv, IsSupportedKey kv.1 = false) order).
      { rewrite Hf. apply list_elem_of_here. }
      apply list_elem_of_filter in Hin as [Hk Hin]. cbn in Hk.
      rewrite Hperm in Hin. apply elem_of_map_to_list in Hin.
      rewrite Hall in Hk by eauto. done.
Qed.

Lemma NewUARTsFromUARTMap_slots_witness :
  ∃ errs,
    NewUARTsFromUARTMap uartMapBadKey =
      Ret ([UARTOffFromKey UART1; UARTOffFromKey UART2;
            mkUART COM3 UARTT16450 UARTModeDisconnected "" UART3;
            UARTOffFromKey UART4], errs) ∧
    errs ≠ [].
Proof.
  destruct (NewUARTsFromUARTMap_slots uartMapBadKey (map_to_list uartMapBadKey))
    as (errs & H & He & Hiff); [reflexivity|].
  exists errs. split; [exact H|].
  intros Hnil. destruct Hiff as [Hiff _].
  assert (Hs : IsSupportedKey "uart7" = true).
  { apply (Hiff Hnil). vm_compute. eauto. }
  discriminate Hs.
Defined.

End UartSlices.

Module UartDecode.
Import GoStr Uart GoStrFacts UartFacts UartSlices.

(** X6.  [ToRank] and [UARTKeyFromRank] are inverse to each other on the
    four keys and the ranks 1 to 4; [ToRank] panics on exactly the keys
    [IsSupportedKey] rejects, and [UARTKeyFromRank] answers every other
    rank with an error. *)
Theorem rank_key_roundtrip :
  (∀ key n, ToRank key = Ret n ↔ UARTKeyFromRank n = Ret key) ∧
  (∀ key, ToRank key = Crash ↔ IsSupportedKey key = false) ∧
  (∀ n, (1 ≤ n ≤ 4)%N ↔ ∃ key, UARTKeyFromRank n = Ret key) ∧
  (∀ n, ¬ (1 ≤ n ≤ 4)%N ↔ UARTKeyFromRank n = Fail (ErrRank n)).
Proof.
  split_and!.
  - intros key n. split.
    + intros H. by destruct (ToRank_cases _ _ H) as [[-> ->]|[[-> ->]|[[-> ->]|[-> ->]]]].
    + destruct n as [|[[|[]|]|[[]|[]|]|]]; cbn; intros H; by simplify_eq.
  - intros key. unfold ToRank, IsSupportedKey.
    destruct (String.eqb key UART1), (String.eqb key UART2),
      (String.eqb key UART3), (String.eqb key UART4); cbn; split; congruence.
  - intros n. split.
    + intros Hn. destruct n as [|[[|[]|]|[[]|[]|]|]]; cbn; try lia; eauto.
    + intros [key H]. destruct n as [|[[|[]|]|[[]|[]|]|]]; cbn in H; try lia; done.
  - intros n. split.
    + intros Hn. destruct n as [|[[|[]|]|[[]|[]|]|]]; cbn; try done; lia.
    + intros H Hn. destruct n as [|[[|[]|]|[[]|[]|]|]]; cbn in H; try done; lia.
Qed.

(** *** The keys of decoded UARTs *)

Lemma initMode_fields u props u' :
  initUARTModeFromVMInfoMap u props = Ret u' →
  Key u' = Key u ∧ ComConfig u' = ComConfig u ∧ Type_ u' = Type_ u.
Proof.
  unfold initUARTModeFromVMInfoMap. destruct (ToRank (Key u)) as [n| |]; [|done..].
  cbn [mbind outcome_bind].
  destruct (props !! withRank "uartmode" n) as [v|]; [|intros; by simplify_eq].
  destruct (String.eqb UARTModeDisconnected v); [intros; by simplify_eq|].
  destruct (Split "," v) as [|mode [|data [|? ?]]]; try done.
  destruct (isKnownMode mode); [|done]. intros; by simplify_eq.
Qed.

Lemma initType_fields u props u' :
  initUARTTypeFromVMInfoMap u props = Ret u' →
  Key u' = Key u ∧ ComConfig u' = ComConfig u ∧ Mode u' = Mode u ∧
  ModeData u' = ModeData u.
Proof.
  unfold initUARTTypeFromVMInfoMap. destruct (ToRank (Key u)) as [n| |]; [|done..].
  cbn [mbind outcome_bind].
  destruct (props !! withRank "uarttype" n) as [v|]; [|intros; by simplify_eq].
  destruct (IsSupportedUARTType v); [|done]. intros; by simplify_eq.
Qed.

Lemma newUARTAt_key props i u :
  newUARTAt props i = Ret u → UARTKeyFromRank i = Ret (Key u).
Proof.
  unfold newUARTAt. destruct (UARTKeyFromRank i) as [key| |]; [|done..].
  cbn [mbind outcome_bind].
  destruct (props !! key) as [v|]; [|intros; by simplify_eq].
  destruct (String.eqb v "off"); [intros; by simplify_eq|].
  destruct (initFromVMInfoValue v) as [cc| |]; [|done..].
  cbn [mbind outcome_bind].
  destruct (initUARTModeFromVMInfoMap _ props) as [u1| |] eqn:H1; [|done..].
  cbn [mbind outcome_bind].
  intros H2. apply initMode_fields in H1 as (H1 & _). cbn in H1.
  apply initType_fields in H2 as (H2 & _). congruence.
Qed.

Lemma NewUARTs_inv props us :
  NewUARTs props = Ret us →
  ∃ u1 u2 u3 u4, us = [u1; u2; u3; u4] ∧
    newUARTAt props 1 = Ret u1 ∧ newUARTAt props 2 = Ret u2 ∧
    newUARTAt props 3 = Ret u3 ∧ newUARTAt props 4 = Ret u4.
Proof.
  unfold NewUARTs, NewUARTs_loop.
  destruct (newUARTAt props 1) as [u1| |]; cbn [mbind outcome_bind]; [|done..].
  destruct (newUARTAt props 2) as [u2| |]; cbn [mbind outcome_bind]; [|done..].
  destruct (newUARTAt props 3) as [u3| |]; cbn [mbind outcome_bind]; [|done..].
  destruct (newUARTAt props 4) as [u4| |]; cbn [mbind outcome_bind]; [|done..].
  intros H. simplify_eq. by exists u1, u2, u3, u4.
Qed.

Lemma commandParameters_ret u n :
  ToRank (Key u) = Ret n →
  ∃ rest, commandParameters u = Ret (withRank "--uart" n :: rest).
Proof.
  intros Hrank.
  unfold commandParameters, validate, commandFuncs, appendCommands,
    commandParameterUartN, commandParameterUARTModeN, commandParameterUARTTypeN.
  rewrite Hrank.
  destruct (IsOff u); cbn -[Split withRank String.append fmtHexPad fmtDec];
    rewrite !withRank_nonempty.
  - eauto.
  - destruct (String.eqb (Mode u) UARTModeDisconnected);
      cbn -[Split withRank String.append fmtHexPad fmtDec];
      rewrite !withRank_nonempty; eauto.
Qed.

(** X7.  Decoding composes with serializing: the UARTs a successful
    [NewUARTs] returns are four, keyed [uart1] to [uart4] in this order,
    and [ModifyVMCommandParameters] neither fails nor panics on them: it
    returns the tokens of [commandParameters] for the four slots one
    after the other, the tokens of slot [N] starting with [--uart<N>]. *)
Theorem decoded_UARTs_serialize (props : gmap string string) (us : UARTs) :
  NewUARTs props = Ret us →
  Key <$> us = KnownUARTKeys ∧
  ∃ r1 r2 r3 r4,
    commandParameters <$> us =
      [Ret ("--uart1" :: r1); Ret ("--uart2" :: r2);
       Ret ("--uart3" :: r3); Ret ("--uart4" :: r4)] ∧
    ModifyVMCommandParameters us =
      Ret (("--uart1" :: r1) ++ ("--uart2" :: r2) ++
           ("--uart3" :: r3) ++ ("--uart4" :: r4)).
Proof.
  intros H. apply NewUARTs_inv in H as (u1 & u2 & u3 & u4 & -> & H1 & H2 & H3 & H4).
  apply newUARTAt_key in H1, H2, H3, H4.
  change (Ret UART1 = Ret (Key u1)) in H1. change (Ret UART2 = Ret (Key u2)) in H2.
  change (Ret UART3 = Ret (Key u3)) in H3. change (Ret UART4 = Ret (Key u4)) in H4.
  injection H1 as H1. injection H2 as H2. injection H3 as H3. injection H4 as H4.
  split; [cbn [fmap list_fmap]; by rewrite <- H1, <- H2, <- H3, <- H4|].
  destruct (commandParameters_ret u1 1) as [r1 E1]; [by rewrite <- H1|].
  destruct (commandParameters_ret u2 2) as [r2 E2]; [by rewrite <- H2|].
  destruct (commandParameters_ret u3 3) as [r3 E3]; [by rewrite <- H3|].
  destruct (commandParameters_ret u4 4) as [r4 E4]; [by rewrite <- H4|].
  exists r1, r2, r3, r4.
  unfold ModifyVMCommandParameters, ModifyVMCommandParameters_loop.
  cbn [fmap list_fmap]. rewrite E1, E2, E3, E4. split; [done|].
  cbn [mbind outcome_bind]. f_equal. by rewrite app_nil_l, <- !app_assoc.
Qed.

Lemma decoded_UARTs_serialize_witness :
  ∃ us, NewUARTs propsTwoPorts = Ret us ∧
        Key <$> us = KnownUARTKeys ∧
        ∃ toks, ModifyVMCommandParameters us = Ret toks.
Proof.
  assert (H : ∃ us, NewUARTs propsTwoPorts = Ret us) by (vm_compute; eauto).
  destruct H as [us H]. exists us. split; [exact H|].
  destruct (decoded_UARTs_serialize propsTwoPorts us H) as (Hk & r1 & r2 & r3 & r4 & _ & Hm).
  split; [exact Hk|]. eexists. exact Hm.
Defined.

Lemma newUARTAt_off props i key :
  UARTKeyFromRank i = Ret key →
  props !! key = None ∨ props !! key = Some "off" →
  newUARTAt props i = Ret (UARTOffFromKey key).
Proof.
  intros Hk Hp. unfold newUARTAt. rewrite Hk. cbn [mbind outcome_bind].
  by destruct Hp as [-> | ->].
Qed.

(** X8.  When each of [uart1] to [uart4] is absent from the properties or
    set to [off], [NewUARTs] returns the four off UARTs, whatever else the
    map holds: the mode and type properties of such a slot are not read,
    so malformed ones raise no error. *)
Theorem NewUARTs_all_off (props : gmap string string) :
  (∀ key, key ∈ KnownUARTKeys →
          props !! key = None ∨ props !! key = Some "off") →
  NewUARTs props = Ret NewUARTsAllOff.
Proof.
  intros H. unfold NewUARTs, NewUARTs_loop.
  rewrite (newUARTAt_off props 1 UART1), (newUARTAt_off props 2 UART2),
    (newUARTAt_off props 3 UART3), (newUARTAt_off props 4 UART4);
    try done; apply H; unfold KnownUARTKeys;
    repeat first [apply list_elem_of_here | apply list_elem_of_further].
Qed.

Lemma NewUARTs_all_off_witness :
  propsAllOff !! "uartmode1" = Some "no,such,mode" ∧
  NewUARTs propsAllOff = Ret NewUARTsAllOff.
Proof.
  split; [reflexivity|]. apply NewUARTs_all_off.
  intros key Hk. unfold KnownUARTKeys in Hk.
  apply elem_of_cons in Hk as [-> | Hk]; [right; reflexivity|].
  apply elem_of_cons in Hk as [-> | Hk]; [right; reflexivity|].
  apply elem_of_cons in Hk as [-> | Hk]; [left; reflexivity|].
  apply elem_of_cons in Hk as [-> | Hk]; [left; reflexivity|].
  by apply elem_of_nil in Hk.
Defined.

(** *** What a decoded UART can hold *)

Lemma parseLoop_le fn s0 base maxVal s n v :
  (n ≤ maxVal)%N → parseLoop fn s0 base maxVal s n = Ret v → (v ≤ maxVal)%N.
Proof.
  revert n. induction s as [|c r IH]; intros n Hn; cbn [parseLoop].
  - intros H. by simplify_eq.
  - destruct (digitVal c) as [d|]; [|done].
    destruct (base <=? d)%N; [done|].
    destruct (maxVal <? n * base + d)%N eqn:Hlt; [done|].
    apply IH. by apply N.ltb_ge in Hlt.
Qed.

Lemma ParseUint_lt s base bitSize v :
  ParseUint s base bitSize = Ret v → (v < 2 ^ bitSize)%N.
Proof.
  unfold ParseUint. destruct s as [|c r]; [done|].
  intros H. apply parseLoop_le in H; [|lia].
  assert (0 < 2 ^ bitSize)%N by (apply N.neq_0_lt_0, N.pow_nonzero; lia). lia.
Qed.

Lemma Split_one sep s a : Split sep s = [a] → s = a ∧ hasByte sep s = false.
Proof.
  revert a. induction s as [|c r IH]; intros a; cbn [Split].
  - intros H. by simplify_eq.
  - unfold hasByte. cbn [list_ascii_of_string existsb].
    rewrite (Ascii.eqb_sym sep c).
    destruct (Ascii.eqb c sep).
    + intros H. simplify_eq. by destruct (Split_nonempty sep r).
    + destruct (Split sep r) as [|h t] eqn:Hs; [by destruct (Split_nonempty sep r)|].
      intros H. simplify_eq. destruct (IH h eq_refl) as [-> Hh]. done.
Qed.

Lemma Split_two sep s a b :
  Split sep s = [a; b] →
  s = a +:+ String sep b ∧ hasByte sep a = false ∧ hasByte sep b = false.
Proof.
  revert a. induction s as [|c r IH]; intros a; cbn [Split]; [done|].
  destruct (Ascii.eqb c sep) eqn:Hc.
  - intros H. injection H as <- H. apply Ascii.eqb_eq in Hc as ->.
    apply Split_one in H as [-> Hb]. by rewrite app_nil.
  - destruct (Split sep r) as [|h t] eqn:Hs; [done|].
    intros H. injection H as <- ->. destruct (IH h eq_refl) as (-> & Hh & Hb).
    split_and!; [by rewrite app_cons| |done].
    unfold hasByte in *. cbn [list_ascii_of_string existsb].
    by rewrite (Ascii.eqb_sym sep c), Hc.
Qed.

Lemma sliceFrom_not_fail n s e : sliceFrom n s ≠ Fail e.
Proof. revert s. induction n as [|n IH]; intros [|c r]; cbn; try done. Qed.

Lemma sliceFrom_two s hex :
  sliceFrom 2 s = Ret hex → ∃ a b, s = String a (String b hex).
Proof.
  destruct s as [|a [|b r]]; cbn; try done. intros H. simplify_eq. eauto.
Qed.

Lemma initFromVMInfoValue_ret v cc :
  initFromVMInfoValue v = Ret cc →
  ∃ s0 s1 hex, Split "," v = [s0; s1] ∧ sliceFrom 2 s0 = Ret hex ∧
    ParseUint hex 16 64 = Ret (Port cc) ∧ ParseUint s1 10 32 = Ret (IRQ cc).
Proof.
  unfold initFromVMInfoValue.
  destruct (Split "," v) as [|s0 [|s1 [|? ?]]] eqn:Hs; try done.
  destruct (sliceFrom 2 s0) as [hex| |] eqn:Hsl; [|done..]. cbn [mbind outcome_bind].
  destruct (ParseUint hex 16 64) as [p| |] eqn:Hp; [|done..];
    destruct (ParseUint s1 10 32) as [i| |] eqn:Hi; try done.
  intros H. injection H as <-. by exists s0, s1, hex.
Qed.

Lemma initMode_vocab u props u' :
  initUARTModeFromVMInfoMap u props = Ret u' →
  (Mode u' = Mode u ∨ isKnownMode (Mode u') = true) ∧
  (ModeData u' = ModeData u ∨ hasByte "," (ModeData u') = false).
Proof.
  unfold initUARTModeFromVMInfoMap. destruct (ToRank (Key u)) as [n| |]; [|done..].
  cbn [mbind outcome_bind].
  destruct (props !! withRank "uartmode" n) as [v|]; [|intros; simplify_eq; auto].
  destruct (String.eqb UARTModeDisconnected v); [intros; simplify_eq; auto|].
  destruct (Split "," v) as [|mode [|data [|? ?]]] eqn:Hs; try done.
  destruct (isKnownMode mode) eqn:Hm; [|done]. intros H. simplify_eq. cbn.
  apply Split_two in Hs as (_ & _ & Hd). auto.
Qed.

Lemma initType_vocab u props u' :
  initUARTTypeFromVMInfoMap u props = Ret u' →
  Type_ u' = Type_ u ∨ IsSupportedUARTType (Type_ u') = true.
Proof.
  unfold initUARTTypeFromVMInfoMap. destruct (ToRank (Key u)) as [n| |]; [|done..].
  cbn [mbind outcome_bind].
  destruct (props !! withRank "uarttype" n) as [v|]; [|intros; simplify_eq; auto].
  destruct (IsSupportedUARTType v) eqn:Hv; [|done]. intros; simplify_eq; auto.
Qed.

Lemma inVocabulary_intro u :
  (Type_ u = "" ∨ IsSupportedUARTType (Type_ u) = true) →
  (Mode u = "" ∨ isKnownMode (Mode u) = true) →
  hasByte "," (ModeData u) = false →
  (Port (ComConfig u) < 2 ^ 64)%N → (IRQ (ComConfig u) < 2 ^ 32)%N →
  inVocabulary u = true.
Proof.
  intros Ht Hm Hd Hp Hi. unfold inVocabulary.
  rewrite Hd. apply N.ltb_lt in Hp, Hi. rewrite Hp, Hi.
  destruct Ht as [-> | ->], Hm as [-> | ->]; cbn [String.eqb orb andb negb]; 
    rewrite ?orb_true_r; done.
Qed.

Lemma newUARTAt_inVocabulary props i u :
  newUARTAt props i = Ret u → inVocabulary u = true.
Proof.
  unfold newUARTAt. destruct (UARTKeyFromRank i) as [key| |]; [|done..].
  cbn [mbind outcome_bind].
  destruct (props !! key) as [v|]; [|intros; by simplify_eq].
  destruct (String.eqb v "off"); [intros; by simplify_eq|].
  destruct (initFromVMInfoValue v) as [cc| |] eqn:Hcc; [|done..].
  cbn [mbind outcome_bind].
  destruct (initUARTModeFromVMInfoMap _ props) as [u1| |] eqn:H1; [|done..].
  cbn [mbind outcome_bind]. intros H2.
  apply initFromVMInfoValue_ret in Hcc as (s0 & s1 & hex & _ & _ & Hp & Hi).
  apply ParseUint_lt in Hp, Hi.
  pose proof (initMode_fields _ _ _ H1) as (_ & Hc1 & Ht1).
  pose proof (initMode_vocab _ _ _ H1) as (Hm1 & Hd1).
  pose proof (initType_fields _ _ _ H2) as (_ & Hc2 & Hm2 & Hd2).
  pose proof (initType_vocab _ _ _ H2) as Ht2.
  cbn in Hc1, Ht1, Hm1, Hd1.
  apply inVocabulary_intro.
  - rewrite Ht1 in Ht2. exact Ht2.
  - rewrite Hm2. exact Hm1.
  - rewrite Hd2. by destruct Hd1 as [-> | ->].
  - by rewrite Hc2, Hc1.
  - by rewrite Hc2, Hc1.
Qed.

(** X9.  Every UART a successful [NewUARTs] returns has a type and a
    mode that are empty or in the supported vocabulary, mode data
    without comma, an I/O base below [2^64] and an IRQ below [2^32]. *)
Theorem NewUARTs_in_vocabulary (props : gmap string string) (us : UARTs) :
  NewUARTs props = Ret us → Forall (λ u, inVocabulary u = true) us.
Proof.
  intros H. apply NewUARTs_inv in H as (u1 & u2 & u3 & u4 & -> & H1 & H2 & H3 & H4).
  repeat constructor; by eapply newUARTAt_inVocabulary.
Qed.

Lemma NewUARTs_in_vocabulary_witness :
  ∃ us, NewUARTs propsTwoPorts = Ret us ∧ Forall (λ u, inVocabulary u = true) us.
Proof.
  assert (H : ∃ us, NewUARTs propsTwoPorts = Ret us) by (vm_compute; eauto).
  destruct H as [us H]. exists us. split; [exact H|].
  exact (NewUARTs_in_vocabulary propsTwoPorts us H).
Defined.

(** X10.  How [initFromVMInfoValue] ends, for any value.  It panics
    exactly when the value has one comma with fewer than two bytes before
    it.  It reports a format error when the number of commas is not one.
    When it succeeds the value is two arbitrary bytes, hexadecimal
    digits, a comma and decimal digits: the first two bytes are dropped
    without a look, the I/O base fits 64 bits and the IRQ 32 bits. *)
Theorem initFromVMInfoValue_outcomes (v : string) :
  (initFromVMInfoValue v = Crash ↔
     ∃ s0 s1, Split "," v = [s0; s1] ∧ (String.length s0 < 2)%nat) ∧
  (length (Split "," v) ≠ 2%nat ↔
     initFromVMInfoValue v = Fail (ErrUartBadFormat v)) ∧
  (∀ cc, initFromVMInfoValue v = Ret cc →
     ∃ a b hex irq,
       v = String a (String b hex) +:+ "," +:+ irq ∧
       ParseUint hex 16 64 = Ret (Port cc) ∧ ParseUint irq 10 32 = Ret (IRQ cc) ∧
       (Port cc < 2 ^ 64)%N ∧ (IRQ cc < 2 ^ 32)%N).
Proof.
  split_and!.
  - unfold initFromVMInfoValue.
    destruct (Split "," v) as [|s0 [|s1 [|? ?]]] eqn:Hs;
      try (split; [done|intros (? & ? & ? & _); done]).
    split.
    + intros H. exists s0, s1. split; [done|].
      destruct s0 as [|a [|b r]]; cbn; try lia.
      cbn [sliceFrom mbind outcome_bind] in H.
      destruct (ParseUint r 16 64), (ParseUint s1 10 32); done.
    + intros (t0 & t1 & Heq & Hlen). simplify_eq.
      destruct t0 as [|a [|b r]]; cbn in Hlen; try lia; done.
  - unfold initFromVMInfoValue.
    destruct (Split "," v) as [|s0 [|s1 [|? ?]]] eqn:Hs; cbn [length];
      try (split; [done|lia]).
    split; [done|]. intros H. exfalso.
    destruct (sliceFrom 2 s0) as [hex| |] eqn:Hsl; cbn [mbind outcome_bind] in H;
      [|by destruct (sliceFrom_not_fail _ _ _ Hsl)|done].
    destruct (ParseUint hex 16 64), (ParseUint s1 10 32); done.
  - intros cc H.
    apply initFromVMInfoValue_ret in H as (s0 & s1 & hex & Hs & Hsl & Hp & Hi).
    apply Split_two in Hs as (-> & _ & _).
    apply sliceFrom_two in Hsl as (a & b & ->).
    exists a, b, hex, s1. split_and!; [|done|done|by eapply ParseUint_lt..].
    by rewrite !app_cons.
Qed.

End UartDecode.

Module UartModes.
Import GoStr Uart GoStrFacts UartFacts UartSlices UartDecode.

Lemma NewUART_mode (Sscanf0x : string → outcome N)
      (keyStr typeStr portStr irqStr modeStr modeDataStr : string) u err :
  NewUART Sscanf0x keyStr typeStr portStr irqStr modeStr modeDataStr = (Some u, err) →
  Mode u = (UARTModeFromStringIfSupported modeStr).1.
Proof.
  unfold NewUART. destruct (IsSupportedKey keyStr); cbn [negb]; [|done].
  destruct (UARTModeFromStringIfSupported modeStr) as [mode e]. cbn [fst].
  destruct (negb (String.eqb portStr "") && negb (String.eqb irqStr "")).
  - cbn [UARTTypeFromStringIfSupported]. intros H. injection H as <- _. done.
  - destruct (_ || _); cbn; intros H; injection H as <- _; done.
Qed.

Lemma mode_cases (modeStr : string) :
  (isKnownMode modeStr = false ∧
   UARTModeFromStringIfSupported modeStr = ("", Some (ErrModeFromString modeStr))) ∨
  (isKnownMode modeStr = true ∧ modeStr = UARTModeClient ∧
   UARTModeFromStringIfSupported modeStr = (UARTModeServer, None)) ∨
  (isKnownMode modeStr = true ∧ modeStr ≠ UARTModeClient ∧
   UARTModeFromStringIfSupported modeStr = (modeStr, None)).
Proof.
  unfold UARTModeFromStringIfSupported, isKnownMode,
    UARTModeClient, UARTModeDisconnected, UARTModeFile, UARTModeServer,
    UARTModeTCPClient, UARTModeTCPServer.
  destruct (String.eqb_spec modeStr "server") as [-> | _]; [right; right; done|].
  destruct (String.eqb_spec modeStr "client") as [-> | N2]; [right; left; done|].
  destruct (String.eqb_spec modeStr "tcpserver") as [-> | _]; [right; right; done|].
  destruct (String.eqb_spec modeStr "tcpclient") as [-> | _]; [right; right; done|].
  destruct (String.eqb_spec modeStr "file") as [-> | _]; [right; right; done|].
  destruct (String.eqb_spec modeStr "disconnected") as [-> | _]; [right; right; done|].
  left. done.
Qed.

(** X11.  [UARTModeFromStringIfSupported] answers [client] with
    [server]: a UART built by [NewUART] is never in mode [client].  Any
    other of the six mode names is kept as given, and an unknown name
    leaves the mode empty.  The decoder of the machine properties does
    keep [client]. *)
Theorem constructor_never_client (Sscanf0x : string → outcome N)
        (keyStr typeStr portStr irqStr modeStr modeDataStr : string)
        (u : UART) (err : option error) :
  NewUART Sscanf0x keyStr typeStr portStr irqStr modeStr modeDataStr = (Some u, err) →
  Mode u ≠ UARTModeClient ∧
  (isKnownMode modeStr = true → modeStr ≠ UARTModeClient → Mode u = modeStr) ∧
  (modeStr = UARTModeClient → Mode u = UARTModeServer) ∧
  (isKnownMode modeStr = false → Mode u = "") ∧
  (∀ u0 props n data,
     ToRank (Key u0) = Ret n →
     props !! withRank "uartmode" n = Some ("client," +:+ data) →
     hasByte "," data = false →
     initUARTModeFromVMInfoMap u0 props =
       Ret (mkUART (ComConfig u0) (Type_ u0) UARTModeClient data (Key u0))).
Proof.
  intros H. apply NewUART_mode in H. rewrite H. clear H.
  split_and!.
  - destruct (mode_cases modeStr) as [(_ & ->) | [(_ & _ & ->) | (_ & Hne & ->)]]; done.
  - intros Hk Hne.
    destruct (mode_cases modeStr) as [(Hk' & _) | [(_ & Heq & _) | (_ & _ & ->)]];
      [congruence|done|done].
  - intros ->. done.
  - intros Hk.
    destruct (mode_cases modeStr) as [(_ & ->) | [(Hk' & _) | (Hk' & _)]];
      [done|congruence..].
  - intros u0 props n data Hr Hp Hd.
    apply (modeValue_decode u0 (mkUART (ComConfig u0) (Type_ u0) UARTModeClient data (Key u0))
             props n Hr); [exact Hp|done|done|done].
Qed.

Lemma constructor_never_client_witness :
  ∃ u, NewUART scanHex "uart1" "16550A" "0x3f8" "4" "client" "/tmp/pipe"
         = (Some u, None) ∧
       Mode u = UARTModeServer.
Proof.
  eexists. split; [reflexivity|].
  eapply (constructor_never_client scanHex "uart1" "16550A" "0x3f8" "4" "client" "/tmp/pipe");
    reflexivity.
Defined.

End UartModes.

Module StorageDecode.
Import GoStr Storage GoStrFacts StorageFacts.

Lemma seq_sorted a n : StronglySorted lt (seq a n).
Proof.
  revert a. induction n as [|n IH]; intros a; cbn; constructor; [apply IH|].
  apply list.Forall_forall. intros x Hx. apply elem_of_seq in Hx. lia.
Qed.

Lemma slots_sorted a n m :
  StronglySorted lexLt (p ← seq a n; d ← seq 0 m; [(p, d)]).
Proof.
  revert a. induction n as [|n IH]; intros a; [constructor|].
  cbn [seq]. rewrite bind_cons. apply StronglySorted_app_2; [| |apply IH].
  - intros x y Hx Hy.
    apply list_elem_of_bind in Hx as (d & Hx & _).
    apply list_elem_of_singleton in Hx as ->.
    apply list_elem_of_bind in Hy as (p & Hy & Hp).
    apply list_elem_of_bind in Hy as (d' & Hy & _).
    apply list_elem_of_singleton in Hy as ->.
    apply elem_of_seq in Hp. left. cbn. lia.
  - assert (Heq : (d ← seq 0 m; [(a, d)]) = (λ d, (a, d)) <$> seq 0 m).
    { generalize (seq 0 m). intros l. induction l as [|x l IHl]; [done|].
      rewrite bind_cons, fmap_cons, IHl. done. }
    rewrite Heq. eapply StronglySorted_fmap; [|apply seq_sorted].
    intros x y Hlt. right. cbn. lia.
Qed.

Lemma omap_sorted {A B} (R : relation A) (R' : relation B) (f : A → option B) l :
  (∀ x y x' y', R x y → f x = Some x' → f y = Some y' → R' x' y') →
  StronglySorted R l → StronglySorted R' (omap f l).
Proof.
  intros Hf. induction 1 as [|x l Hs IH Hall]; cbn; [constructor|].
  destruct (f x) as [x'|] eqn:Hx; [|done].
  constructor; [done|]. apply list.Forall_forall. intros y' Hy.
  apply list_elem_of_omap in Hy as (y & Hy & Hfy).
  rewrite list.Forall_forall in Hall. eapply Hf; [|done..]. by apply Hall.
Qed.

Lemma mediumAt_Some name props p d sm :
  mediumAt name props p d = Some sm →
  Port sm = N.of_nat p ∧ Device sm = N.of_nat d ∧ DriveType sm = "" ∧
  props !! (name +:+ "-" +:+ Itoa p +:+ "-" +:+ Itoa d) = Some (Medium sm) ∧
  UUID sm = prop props (name +:+ "-ImageUUID" +:+ "-" +:+ Itoa p +:+ "-" +:+ Itoa d) ∧
  IsNone sm = false.
Proof.
  unfold mediumAt. destruct (props !! _) as [medium|] eqn:Hm; [|done].
  destruct (IsNone _) eqn:Hn; [done|]. intros H. injection H as <-. done.
Qed.

Section WithAlloc.
Variable maxCap : Z.

Lemma findStorageMedia_Ret name bus portCount props media :
  findStorageMedia maxCap name bus portCount props = Ret media →
  media = omap (λ pd : nat * nat, mediumAt name props pd.1 pd.2)
               (p ← seq 0 (Z.to_nat portCount);
                d ← seq 0 (maxDevicePerPort bus); [(p, d)]).
Proof.
  unfold findStorageMedia. destruct (_ || _); [done|]. intros H. by injection H as <-.
Qed.

(** X12.  The media [findStorageMedia] returns are in strictly ascending
    order of port then device, so no slot is listed twice.  A medium is
    listed exactly when its slot lies below the port count and the
    device limit of the bus, the map has the key [<name>-<port>-<device>]
    and the entry is not [none] without image UUID.  The drive type is
    always left empty. *)
Theorem findStorageMedia_sorted name bus portCount props media :
  findStorageMedia maxCap name bus portCount props = Ret media →
  StronglySorted slotLt media ∧
  (∀ sm, sm ∈ media ↔
         ∃ p d, (Z.of_nat p < portCount)%Z ∧ (d < maxDevicePerPort bus)%nat ∧
                mediumAt name props p d = Some sm) ∧
  Forall (λ sm, IsNone sm = false ∧ DriveType sm = "" ∧
                (Z.of_N (Port sm) < portCount)%Z ∧ (Device sm < 2)%N ∧
                props !! (name +:+ "-" +:+ fmtDec (Port sm) +:+ "-" +:+ fmtDec (Device sm))
                  = Some (Medium sm)) media.
Proof.
  intros H. apply findStorageMedia_Ret in H as ->.
  assert (Hchar : ∀ sm,
    sm ∈ omap (λ pd : nat * nat, mediumAt name props pd.1 pd.2)
               (p ← seq 0 (Z.to_nat portCount);
                d ← seq 0 (maxDevicePerPort bus); [(p, d)]) ↔
    ∃ p d, (Z.of_nat p < portCount)%Z ∧ (d < maxDevicePerPort bus)%nat ∧
           mediumAt name props p d = Some sm).
  { intros sm. rewrite list_elem_of_omap. split.
    - intros ([p d] & Hin & Hm). cbn in Hm.
      apply list_elem_of_bind in Hin as (p' & Hin & Hp).
      apply list_elem_of_bind in Hin as (d' & Hin & Hd).
      apply list_elem_of_singleton in Hin. injection Hin as -> ->.
      apply elem_of_seq in Hp, Hd. exists p', d'. split_and!; [lia|lia|done].
    - intros (p & d & Hp & Hd & Hm). exists (p, d). split; [|done].
      apply list_elem_of_bind. exists p. split; [|apply elem_of_seq; lia].
      apply list_elem_of_bind. exists d. split; [|apply elem_of_seq; lia].
      by apply list_elem_of_singleton. }
  split_and!.
  - eapply omap_sorted; [|apply slots_sorted].
    intros [p d] [p' d'] sm sm' Hlt Hm Hm'. cbn in Hm, Hm'.
    apply mediumAt_Some in Hm as (Hp & Hd & _), Hm' as (Hp' & Hd' & _).
    unfold slotLt. rewrite Hp, Hd, Hp', Hd'. unfold lexLt in Hlt. cbn in Hlt.
    destruct Hlt as [Hlt|[-> Hlt]].
    + left. lia.
    + right. split; [done|lia].
  - exact Hchar.
  - apply list.Forall_forall. intros sm Hsm. apply Hchar in Hsm as (p & d & Hp & Hd & Hm).
    apply mediumAt_Some in Hm as (HP & HD & HT & HM & _ & HN).
    rewrite HP, HD. split_and!; [done|done|lia| |exact HM].
    unfold maxDevicePerPort in Hd. destruct (_ || _); lia.
Qed.

End WithAlloc.

Lemma findStorageMedia_sorted_witness :
  ∃ media, findStorageMedia 64 "IDE" SysBusIDE 2 ideProps = Ret media ∧
           StronglySorted slotLt media ∧ length media = 2%nat.
Proof.
  assert (H : ∃ media, findStorageMedia 64 "IDE" SysBusIDE 2 ideProps = Ret media
                       ∧ length media = 2%nat)
    by (vm_compute; eauto).
  destruct H as (media & H & Hl). exists media. split; [exact H|].
  split; [|exact Hl].
  exact (proj1 (findStorageMedia_sorted 64 "IDE" SysBusIDE 2 ideProps media H)).
Defined.

Lemma deviceLoop_acc (ds : list StorageMedium) (media : list string) :
  fold_left (λ media d,
               if negb (String.eqb (Medium d) "") then media ++ [Medium d]
               else media) ds media =
  media ++ filter (λ m, m ≠ "") (Medium <$> ds).
Proof.
  revert media. induction ds as [|d ds IH]; intros media; cbn [fold_left fmap list_fmap].
  - cbn. by rewrite app_nil_r.
  - rewrite IH. destruct (String.eqb_spec (Medium d) "") as [He|Hne]; cbn [negb].
    + by rewrite filter_cons_False by (by intros ?).
    + rewrite filter_cons_True by done. by rewrite <- app_assoc.
Qed.

Lemma controllerLoop_acc (scs : StorageControllers) (media : list string) :
  fold_left
    (λ media sc,
       fold_left (λ media d,
                    if negb (String.eqb (Medium d) "") then media ++ [Medium d]
                    else media)
                 (Devices sc) media) scs media =
  media ++ filter (λ m, m ≠ "") (Medium <$> (scs ≫= Devices)).
Proof.
  revert media. induction scs as [|sc scs IH]; intros media; cbn [fold_left].
  - cbn. by rewrite app_nil_r.
  - rewrite IH, deviceLoop_acc, bind_cons, fmap_app, filter_app, <- app_assoc. done.
Qed.

(** X13.  [DeviceMedia] lists the media of all devices, controller by
    controller and in device order, leaving out exactly the empty ones:
    the result never holds the empty string, a device known by its UUID
    alone is not listed, and the media of two lists of controllers are
    the media of the first followed by those of the second. *)
Theorem DeviceMedia_flat (scs scs' : StorageControllers) :
  DeviceMedia scs = filter (λ m, m ≠ "") (Medium <$> (scs ≫= Devices)) ∧
  ("" ∉ DeviceMedia scs) ∧
  (∀ m, m ∈ DeviceMedia scs ↔
        m ≠ "" ∧ ∃ sc d, sc ∈ scs ∧ d ∈ Devices sc ∧ Medium d = m) ∧
  DeviceMedia (scs ++ scs') = DeviceMedia scs ++ DeviceMedia scs'.
Proof.
  assert (H : ∀ l, DeviceMedia l = filter (λ m, m ≠ "") (Medium <$> (l ≫= Devices))).
  { intros l. unfold DeviceMedia. by rewrite controllerLoop_acc, app_nil_l. }
  split_and!.
  - apply H.
  - rewrite H. intros [Hne _]%list_elem_of_filter. done.
  - intros m. rewrite H, list_elem_of_filter, list_elem_of_fmap. split.
    + intros (Hne & d & -> & Hd). split; [done|].
      apply list_elem_of_bind in Hd as (sc & Hd & Hsc). by exists sc, d.
    + intros (Hne & sc & d & Hsc & Hd & <-). split; [done|]. exists d. split; [done|].
      apply list_elem_of_bind. by exists sc.
  - rewrite !H, bind_app, fmap_app, filter_app. done.
Qed.

Section Controllers.
Variable maxCap : Z.

Lemma find_Ret nm iStr props sc :
  findStorageControllerByIndex maxCap nm iStr props = Ret sc →
  Name sc = nm ∧ HostIOCache sc = false ∧
  Bootable sc = String.eqb (prop props ("storagecontrollerbootable" +:+ iStr)) "on" ∧
  ∃ portCount bc,
    Atoi (prop props ("storagecontrollerportcount" +:+ iStr)) = Ret portCount ∧
    vmInfogStrorageControllerTypeToBusAndChipset
      (prop props ("storagecontrollertype" +:+ iStr)) = Ret bc ∧
    SysBus sc = bc.1 ∧ Chipset sc = bc.2 ∧ Ports sc = uintOfInt portCount ∧
    findStorageMedia maxCap nm bc.1 portCount props = Ret (Devices sc).
Proof.
  unfold findStorageControllerByIndex.
  destruct (Atoi _) as [pc| |] eqn:Hpc; [|done..].
  destruct (vmInfogStrorageControllerTypeToBusAndChipset _) as [bc| |] eqn:Hbc;
    cbn [mbind outcome_bind]; [|done..].
  destruct (findStorageMedia maxCap nm bc.1 pc props) as [media| |] eqn:Hm;
    cbn [mbind outcome_bind]; [|done..].
  intros H. injection H as <-. cbn. split_and!; try done. by exists pc, bc.
Qed.

(** The loop stops at the first controller that does not decode. *)
Lemma loop_first_failure props idxs1 i idxs2 acc nm :
  props !! ("storagecontrollername" +:+ Itoa i) = Some nm →
  (∀ j nm', j ∈ idxs1 →
     props !! ("storagecontrollername" +:+ Itoa j) = Some nm' →
     is_ret (findStorageControllerByIndex maxCap nm' (Itoa j) props) = true) →
  is_ret (findStorageControllerByIndex maxCap nm (Itoa i) props) = false →
  NewStorageControllers_loop maxCap props (idxs1 ++ i :: idxs2) acc =
    failureOf (findStorageControllerByIndex maxCap nm (Itoa i) props).
Proof.
  intros Hnm Hok Hbad. revert acc.
  induction idxs1 as [|j r IH]; intros acc; cbn [app NewStorageControllers_loop].
  - rewrite Hnm.
    destruct (findStorageControllerByIndex maxCap nm (Itoa i) props); done.
  - destruct (props !! ("storagecontrollername" +:+ Itoa j)) as [nm'|] eqn:Hj.
    + pose proof (Hok j nm' ltac:(left) Hj) as Hr.
      destruct (findStorageControllerByIndex maxCap nm' (Itoa j) props); [|done..].
      cbn [mbind outcome_bind]. apply IH. intros j' nm'' Hin. apply Hok. by right.
    + apply IH. intros j' nm'' Hin. apply Hok. by right.
Qed.

Lemma seq_split_at i n :
  (i < n)%nat → seq 0 n = seq 0 i ++ i :: seq (S i) (n - S i).
Proof.
  intros Hi. replace n with (i + S (n - S i))%nat at 1 by lia.
  rewrite seq_app. done.
Qed.

(** X14.  [NewStorageControllersFromProps] returns the failure of the
    first controller, in index order, that does not decode; later
    controllers are not examined.  For one controller the port count is
    checked before the type: a port count that is no integer is the
    error reported, whatever the type, and a controller without port
    count property fails on the empty string. *)
Theorem first_failing_controller (props : gmap string string) (i : nat) (nm : string) :
  (i < 8)%nat →
  props !! ("storagecontrollername" +:+ Itoa i) = Some nm →
  (∀ j nm', (j < i)%nat →
     props !! ("storagecontrollername" +:+ Itoa j) = Some nm' →
     is_ret (findStorageControllerByIndex maxCap nm' (Itoa j) props) = true) →
  is_ret (findStorageControllerByIndex maxCap nm (Itoa i) props) = false →
  NewStorageControllersFromProps maxCap props =
    failureOf (findStorageControllerByIndex maxCap nm (Itoa i) props) ∧
  (∀ e, Atoi (prop props ("storagecontrollerportcount" +:+ Itoa i)) = Fail e →
        NewStorageControllersFromProps maxCap props =
          Fail (ErrPortCount (prop props ("storagecontrollerportcount" +:+ Itoa i)) e)) ∧
  (props !! ("storagecontrollerportcount" +:+ Itoa i) = None →
   NewStorageControllersFromProps maxCap props =
     Fail (ErrPortCount "" (ErrSyntax "Atoi" ""))).
Proof.
  intros Hi Hnm Hok Hbad.
  assert (Hnew : NewStorageControllersFromProps maxCap props =
    failureOf (findStorageControllerByIndex maxCap nm (Itoa i) props)).
  { unfold NewStorageControllersFromProps. rewrite (seq_split_at i 8 Hi).
    apply loop_first_failure; [done| |done].
    intros j nm' Hj. apply Hok. apply elem_of_seq in Hj. lia. }
  split_and!; [done| |].
  - intros e He. rewrite Hnew. unfold findStorageControllerByIndex. by rewrite He.
  - intros Hnone. rewrite Hnew. unfold findStorageControllerByIndex, prop.
    rewrite Hnone. done.
Qed.

(** X15.  A negative port count makes the decoder panic: for a
    controller of a supported type whose port count property reads as an
    integer from [-2^62] up to [-1], [findStorageMedia] asks [make] for a
    negative capacity, so [NewStorageControllersFromProps] panics when
    the controllers before it decode. *)
Theorem negative_port_count_panics (props : gmap string string) (i : nat)
        (nm : string) (portCount : Z) :
  (i < 8)%nat →
  props !! ("storagecontrollername" +:+ Itoa i) = Some nm →
  (∀ j nm', (j < i)%nat →
     props !! ("storagecontrollername" +:+ Itoa j) = Some nm' →
     is_ret (findStorageControllerByIndex maxCap nm' (Itoa j) props) = true) →
  Atoi (prop props ("storagecontrollerportcount" +:+ Itoa i)) = Ret portCount →
  (- 2 ^ 62 ≤ portCount < 0)%Z →
  is_ret (vmInfogStrorageControllerTypeToBusAndChipset
            (prop props ("storagecontrollertype" +:+ Itoa i))) = true →
  NewStorageControllersFromProps maxCap props = Crash.
Proof.
  intros Hi Hnm Hok Hpc Hneg Hty.
  assert (Hfind : findStorageControllerByIndex maxCap nm (Itoa i) props = Crash).
  { unfold findStorageControllerByIndex. rewrite Hpc.
    destruct (vmInfogStrorageControllerTypeToBusAndChipset _) as [bc| |]; [|done..].
    cbn [mbind outcome_bind]. unfold findStorageMedia.
    rewrite wrapInt_small by lia.
    destruct (Z.ltb_spec (portCount * 2) 0); [done|lia]. }
  unfold NewStorageControllersFromProps. rewrite (seq_split_at i 8 Hi).
  rewrite (loop_first_failure props (seq 0 i) i _ [] nm); [by rewrite Hfind|done| |by rewrite Hfind].
  intros j nm' Hj. apply Hok. apply elem_of_seq in Hj. lia.
Qed.

Lemma loop_shape props idxs acc ctrls :
  NewStorageControllers_loop maxCap props idxs acc = Ret ctrls →
  ∃ more, ctrls = acc ++ more ∧
    Name <$> more = omap (λ i, props !! ("storagecontrollername" +:+ Itoa i)) idxs ∧
    Forall (λ sc, ∃ i, i ∈ idxs ∧
              props !! ("storagecontrollername" +:+ Itoa i) = Some (Name sc) ∧
              findStorageControllerByIndex maxCap (Name sc) (Itoa i) props = Ret sc) more.
Proof.
  revert acc. induction idxs as [|j r IH]; intros acc; cbn [NewStorageControllers_loop].
  - intros H. injection H as <-. exists []. by rewrite app_nil_r.
  - cbn [omap list_omap].
    destruct (props !! ("storagecontrollername" +:+ Itoa j)) as [nm|] eqn:Hnm.
    + destruct (findStorageControllerByIndex maxCap nm (Itoa j) props) as [sc| |] eqn:Hsc;
        cbn [mbind outcome_bind]; [|done..].
      intros (more & -> & Hn & Hall)%IH. exists (sc :: more).
      pose proof (find_Ret _ _ _ _ Hsc) as (Hname & _).
      split_and!; [by rewrite <- app_assoc|cbn; by rewrite Hname, Hn|].
      constructor.
      * exists j. split; [by left|]. by rewrite Hname.
      * eapply Forall_impl; [exact Hall|]. intros sc' (i & Hi & Hf). exists i.
        split; [by right|done].
    + intros (more & -> & Hn & Hall)%IH. exists more. split_and!; [done|done|].
      eapply Forall_impl; [exact Hall|]. intros sc' (i & Hi & Hf). exists i.
      split; [by right|done].
Qed.

Lemma omap_length_le {A B} (f : A → option B) (l : list A) :
  (length (omap f l) ≤ length l)%nat.
Proof.
  induction l as [|x l IH]; cbn; [done|]. destruct (f x); cbn; lia.
Qed.

(** X16.  What a successful [NewStorageControllersFromProps] returns:
    one controller for each of the indices 0 to 7 that has a
    [storagecontrollername<i>] property, in ascending index order and
    under that name, so at most eight and none when no such property
    exists; indices from 8 on are not looked at.  The host I/O cache flag
    is always false, a controller is bootable exactly when its property
    is [on], and its devices are in ascending slot order. *)
Theorem NewStorageControllers_shape (props : gmap string string)
        (ctrls : StorageControllers) :
  NewStorageControllersFromProps maxCap props = Ret ctrls →
  Name <$> ctrls =
    omap (λ i, props !! ("storagecontrollername" +:+ Itoa i)) (seq 0 8) ∧
  (length ctrls ≤ 8)%nat ∧
  Forall (λ sc, HostIOCache sc = false ∧ StronglySorted slotLt (Devices sc) ∧
                ∃ i, (i < 8)%nat ∧
                  props !! ("storagecontrollername" +:+ Itoa i) = Some (Name sc) ∧
                  Bootable sc =
                    String.eqb (prop props ("storagecontrollerbootable" +:+ Itoa i)) "on")
         ctrls.
Proof.
  intros H. apply loop_shape in H as (more & -> & Hn & Hall). rewrite app_nil_l.
  split_and!; [done| |].
  - rewrite <- (length_fmap Name), Hn.
    etrans; [apply omap_length_le|]. by rewrite length_seq.
  - eapply Forall_impl; [exact Hall|]. intros sc (i & Hi & Hnm & Hf).
    pose proof (find_Ret _ _ _ _ Hf) as (_ & Hc & Hb & pc & bc & _ & _ & _ & _ & _ & Hm).
    split_and!; [done|by eapply findStorageMedia_sorted|].
    apply elem_of_seq in Hi. exists i. split_and!; [lia|done|done].
Qed.

End Controllers.

Lemma first_failing_controller_witness :
  NewStorageControllersFromProps 64 badTypeAndCountProps =
    Fail (ErrPortCount "" (ErrSyntax "Atoi" "")).
Proof.
  apply (first_failing_controller 64 badTypeAndCountProps 3 "X");
    [lia|reflexivity| |reflexivity|reflexivity].
  intros j nm' Hj Hnm.
  destruct j as [|[|[|j]]]; [|discriminate Hnm..|lia].
  injection Hnm as <-. reflexivity.
Defined.

Lemma negative_port_count_panics_witness :
  NewStorageControllersFromProps 64 negativePortCountProps = Crash.
Proof.
  apply (negative_port_count_panics 64 negativePortCountProps 1 "SATA" (-1));
    [lia|reflexivity| |reflexivity|lia|reflexivity].
  intros j nm' Hj Hnm. destruct j as [|j]; [discriminate Hnm|lia].
Defined.

Lemma NewStorageControllers_shape_witness :
  ∃ ctrls, NewStorageControllersFromProps 64 ideProps = Ret ctrls ∧
           Name <$> ctrls = ["IDE"] ∧
           Forall (λ sc, StronglySorted slotLt (Devices sc)) ctrls.
Proof.
  assert (H : ∃ ctrls, NewStorageControllersFromProps 64 ideProps = Ret ctrls)
    by (vm_compute; eauto).
  destruct H as (ctrls & H). exists ctrls. split; [exact H|].
  destruct (NewStorageControllers_shape 64 ideProps ctrls H) as (Hn & _ & Hall).
  split; [rewrite Hn; reflexivity|].
  eapply Forall_impl; [exact Hall|]. intros sc (_ & Hs & _). exact Hs.
Defined.

End StorageDecode.

Module VMInfoFacts.
Import GoStr Listing VMInfo GoStrFacts.

Lemma lastSplit_none (delim : string → option string) (b : ascii) s :
  (∀ t, is_Some (delim t) → ∃ r, t = String b r) →
  hasByte b s = false → lastSplit delim s = None.
Proof.
  intros Hd. induction s as [|c r IH]; [done|].
  unfold hasByte. cbn [list_ascii_of_string existsb lastSplit].
  intros [Hc Hr]%orb_false_elim. rewrite (IH Hr).
  destruct (delim (String c r)) as [v|] eqn:Hv; [|done].
  destruct (Hd (String c r)) as [r' Hr']; [by rewrite Hv|].
  injection Hr' as -> _. by rewrite Ascii.eqb_refl in Hc.
Qed.

Lemma afterByte_head b t : is_Some (afterByte b t) → ∃ r, t = String b r.
Proof.
  destruct t as [|c r]; cbn; [by intros [? ?]|].
  destruct (Ascii.eqb_spec c b) as [->|]; [eauto|by intros [? ?]].
Qed.

Lemma afterQuoteEquals_head t : is_Some (afterQuoteEquals t) → ∃ r, t = String quote r.
Proof.
  unfold afterQuoteEquals. destruct (afterByte quote t) eqn:H; [|by intros [? ?]].
  intros _. apply afterByte_head. by rewrite H.
Qed.

(** The match at the end of [a] is the last one when none follows. *)
Lemma lastSplit_at delim a c t r :
  delim (String c t) = Some r → lastSplit delim t = None →
  lastSplit delim (a +:+ String c t) = Some (a, r).
Proof.
  intros Hd Hn. induction a as [|x a IH].
  - rewrite app_nil. cbn [lastSplit]. by rewrite Hn, Hd.
  - rewrite app_cons. cbn [lastSplit]. by rewrite IH.
Qed.

Lemma valueGroups_quoted v :
  hasByte quote v = false → valueGroups (q +:+ v +:+ q) = (v, "").
Proof.
  intros Hv. unfold valueGroups, q. rewrite app_cons, app_nil.
  cbn [afterByte]. rewrite Ascii.eqb_refl.
  rewrite (lastSplit_at (afterByte quote) v quote "" ""); [done| |done].
  cbn. by rewrite Ascii.eqb_refl.
Qed.

Lemma valueGroups_bare v :
  hasByte quote v = false → valueGroups v = ("", v).
Proof.
  intros Hv. unfold valueGroups. destruct v as [|c r]; [done|].
  cbn [afterByte]. unfold hasByte in Hv. cbn in Hv.
  apply orb_false_elim in Hv as [Hc _]. rewrite Ascii.eqb_sym in Hc. by rewrite Hc.
Qed.

Lemma hasByte_cons b c r : hasByte b (String c r) = Ascii.eqb b c || hasByte b r.
Proof. done. Qed.

Lemma lastSplit_closing v :
  hasByte quote v = false → lastSplit afterQuoteEquals (v +:+ q) = None.
Proof.
  intros Hv. induction v as [|c r IH].
  - done.
  - rewrite hasByte_cons in Hv. apply orb_false_elim in Hv as [Hc Hr].
    rewrite app_cons. cbn [lastSplit]. rewrite (IH Hr).
    unfold afterQuoteEquals. cbn [afterByte]. rewrite Ascii.eqb_sym in Hc. by rewrite Hc.
Qed.

Lemma quoted_key_split k v :
  hasByte quote v = false → afterByte "=" v = None →
  lastSplit afterQuoteEquals (k +:+ q +:+ "=" +:+ q +:+ v +:+ q) =
    Some (k, q +:+ v +:+ q).
Proof.
  intros Hv Hv0. unfold q at 1. rewrite (app_cons quote "" _), app_nil.
  change ("=" +:+ q +:+ v +:+ q) with (String "=" (String quote (v +:+ q))).
  apply lastSplit_at.
  - unfold afterQuoteEquals. cbn [afterByte]. by rewrite Ascii.eqb_refl.
  - cbn [lastSplit]. rewrite (lastSplit_closing v Hv).
    unfold afterQuoteEquals. cbn [afterByte]. rewrite Ascii.eqb_refl.
    destruct v as [|c r]; [done|]. rewrite app_cons. cbn [afterByte] in *.
    destruct (Ascii.eqb c "="); done.
Qed.

Lemma val_select v : (if String.eqb v "" then "" else v) = v.
Proof. by destruct v. Qed.

Lemma bare_head k rest :
  k ≠ "" → hasByte quote k = false → afterByte quote (k +:+ rest) = None.
Proof.
  destruct k as [|c k]; [done|]. intros _ Hq. rewrite app_cons. cbn [afterByte].
  rewrite hasByte_cons in Hq. apply orb_false_elim in Hq as [Hc _].
  rewrite Ascii.eqb_sym in Hc. by rewrite Hc.
Qed.

(** X17.  A line of [showvminfo --machinereadable] is read back: with a
    key that is not empty and a key and value free of double quotes,
    the quoted form of the line yields the key and the value when the
    value does not start with an equals sign, and the form with a bare
    key, with the value quoted or bare, when neither holds an equals
    sign. *)
Theorem vminfoKeyVal_roundtrip (k v : string) :
  k ≠ "" → hasByte quote k = false → hasByte quote v = false →
  (afterByte "=" v = None → vminfoKeyVal (quotedLine k v) = Some (k, v)) ∧
  (hasByte "=" k = false → hasByte "=" v = false →
     vminfoKeyVal (bareLine k v) = Some (k, v) ∧
     vminfoKeyVal (k +:+ "=" +:+ v) = Some (k, v)).
Proof.
  intros Hk Hkq Hvq. split.
  - intros Hv0. unfold vminfoKeyVal, reVMInfoLine, quotedLine.
    unfold q at 1. rewrite (app_cons quote "" _), app_nil.
    cbn [afterByte]. rewrite Ascii.eqb_refl.
    rewrite quoted_key_split by done.
    destruct k as [|c k]; [done|].
    rewrite valueGroups_quoted by done. cbn [fst snd].
    by rewrite !val_select.
  - intros Hke Hve.
    assert (Hsplit : ∀ rest, hasByte "=" rest = false →
      lastSplit (afterByte "=") (k +:+ "=" +:+ rest) = Some (k, rest)).
    { intros rest Hr. change ("=" +:+ rest) with (String "="%char rest).
      apply lastSplit_at; [reflexivity|].
      eapply lastSplit_none; [apply afterByte_head|done]. }
    split.
    + unfold vminfoKeyVal, reVMInfoLine, bareLine.
      rewrite bare_head by done.
      rewrite Hsplit by (rewrite !hasByte_app, Hve; done).
      destruct k as [|c k]; [done|].
      rewrite valueGroups_quoted by done. cbn [fst snd].
      by rewrite !val_select.
    + unfold vminfoKeyVal, reVMInfoLine.
      rewrite bare_head by done.
      rewrite Hsplit by done.
      destruct k as [|c k]; [done|].
      rewrite valueGroups_bare by done. done.
Qed.

Lemma vminfoKeyVal_roundtrip_witness :
  vminfoKeyVal (quotedLine "IDE-0-0" "/vm/a=b.vdi") = Some ("IDE-0-0", "/vm/a=b.vdi") ∧
  vminfoKeyVal (bareLine "memory" "2048") = Some ("memory", "2048").
Proof.
  split.
  - apply (vminfoKeyVal_roundtrip "IDE-0-0" "/vm/a=b.vdi"); done.
  - apply (vminfoKeyVal_roundtrip "memory" "2048"); done.
Defined.

(** X18.  With a bare key the line is cut at its last equals sign, also
    inside a quoted value: for [key="v1=v2"] the key taken is
    [key="v1] and the value [v2"]. *)
Theorem vminfoKeyVal_equals_in_value (k v1 v2 : string) :
  k ≠ "" → hasByte quote k = false →
  hasByte quote v2 = false → hasByte "=" v2 = false →
  vminfoKeyVal (bareLine k (v1 +:+ "=" +:+ v2)) =
    Some (k +:+ "=" +:+ q +:+ v1, v2 +:+ q).
Proof.
  intros Hk Hkq Hvq Hve. unfold vminfoKeyVal, reVMInfoLine, bareLine.
  rewrite bare_head by done.
  assert (Hline : k +:+ "=" +:+ q +:+ (v1 +:+ "=" +:+ v2) +:+ q =
                  (k +:+ "=" +:+ q +:+ v1) +:+ String "="%char (v2 +:+ q)).
  { rewrite !app_assoc_str. done. }
  rewrite Hline.
  rewrite (lastSplit_at (afterByte "=") _ "="%char (v2 +:+ q) (v2 +:+ q));
    [|reflexivity
     |eapply lastSplit_none; [apply afterByte_head|by rewrite hasByte_app, Hve]].
  destruct k as [|c k]; [done|]. rewrite !app_cons. cbn [fst snd String.eqb].
  assert (Hval : valueGroups (v2 +:+ q) = ("", v2 +:+ q)).
  { destruct v2 as [|c2 r2]; [done|]. rewrite app_cons. unfold valueGroups.
    cbn [afterByte]. rewrite hasByte_cons in Hvq.
    apply orb_false_elim in Hvq as [Hc _]. rewrite Ascii.eqb_sym in Hc. by rewrite Hc. }
  rewrite Hval. done.
Qed.

Lemma vminfoKeyVal_equals_in_value_witness :
  vminfoKeyVal (bareLine "CfgFile" "/vm/a=b.vbox") =
    Some ("CfgFile=" +:+ q +:+ "/vm/a", "b.vbox" +:+ q).
Proof.
  apply (vminfoKeyVal_equals_in_value "CfgFile" "/vm/a" "b.vbox"); done.
Defined.

(** *** The property map *)

Lemma lastSplit_absent (delim : string → option string) (b : ascii) s :
  (∀ t, is_Some (delim t) → hasByte b t = true) →
  hasByte b s = false → lastSplit delim s = None.
Proof.
  intros Hd. induction s as [|c r IH]; [done|]. intros Hs.
  pose proof Hs as Hs'. rewrite hasByte_cons in Hs'.
  apply orb_false_elim in Hs' as [_ Hr].
  cbn [lastSplit]. rewrite (IH Hr).
  destruct (delim (String c r)) as [v|] eqn:Hv; [|done].
  rewrite Hd in Hs by (by rewrite Hv). done.
Qed.

Lemma afterQuoteEquals_has t : is_Some (afterQuoteEquals t) → hasByte "=" t = true.
Proof.
  unfold afterQuoteEquals. destruct t as [|c [|c' r]]; cbn [afterByte].
  - by intros [? ?].
  - destruct (Ascii.eqb c quote); by intros [? ?].
  - destruct (Ascii.eqb c quote); cbn [afterByte]; [|by intros [? ?]].
    destruct (Ascii.eqb_spec c' "=") as [->|]; [|by intros [? ?]].
    intros _. rewrite !hasByte_cons. cbn. by rewrite orb_true_r.
Qed.

Lemma lastSplit_present b s :
  hasByte b s = true → ∃ k v, lastSplit (afterByte b) s = Some (k, v).
Proof.
  induction s as [|c r IH]; [done|]. rewrite hasByte_cons. cbn [lastSplit].
  destruct (hasByte b r) eqn:Hr.
  - intros _. destruct (IH eq_refl) as (k & v & ->). eauto.
  - rewrite orb_false_r. intros Hc.
    rewrite (lastSplit_absent (afterByte b) b r); [|intros t [x Hx]%afterByte_head|done].
    + cbn [afterByte]. rewrite Ascii.eqb_sym in Hc. rewrite Hc. eauto.
    + rewrite Hx, hasByte_cons, Ascii.eqb_refl. done.
Qed.

Lemma vminfoKeyVal_None line :
  vminfoKeyVal line = None ↔
  match line with
  | EmptyString => True
  | String _ r => hasByte "=" r = false
  end.
Proof.
  destruct line as [|c r]; [done|]. split.
  - intros H. destruct (hasByte "=" r) eqn:Hr; [exfalso|done].
    unfold vminfoKeyVal, reVMInfoLine in H.
    destruct (match afterByte quote (String c r) with
              | Some t => _ | None => None end) as [[k v]|]; [done|].
    cbn [lastSplit] in H.
    destruct (lastSplit_present "=" r Hr) as (k & v & Hkv). by rewrite Hkv in H.
  - intros Hr. unfold vminfoKeyVal, reVMInfoLine.
    assert (Hq : lastSplit afterQuoteEquals r = None).
    { eapply lastSplit_absent; [apply afterQuoteEquals_has|done]. }
    assert (He : lastSplit (afterByte "=") r = None).
    { eapply lastSplit_absent; [|done]. intros t [x ->]%afterByte_head.
      by rewrite hasByte_cons, Ascii.eqb_refl. }
    cbn [afterByte lastSplit]. rewrite He.
    destruct (Ascii.eqb c quote); [rewrite Hq|]; destruct (Ascii.eqb c "="); done.
Qed.

Lemma fold_vminfoStep lines m :
  fold_left vminfoStep lines m =
  list_to_map (reverse (omap vminfoKeyVal lines)) ∪ m.
Proof.
  revert m. induction lines as [|l r IH]; intros m; cbn [fold_left omap list_omap].
  - cbn. by rewrite (left_id_L ∅ (∪)).
  - rewrite IH. unfold vminfoStep. destruct (vminfoKeyVal l) as [[k v]|]; [|done].
    rewrite reverse_cons, list_to_map_app. cbn [list_to_map foldr fst snd].
    rewrite <- (assoc_L (∪)). f_equal.
    by rewrite insert_union_singleton_l.
Qed.

Lemma fold_vminfoStep_other lines m k :
  (∀ l, l ∈ lines → fst <$> vminfoKeyVal l ≠ Some k) →
  fold_left vminfoStep lines m !! k = m !! k.
Proof.
  revert m. induction lines as [|l r IH]; intros m Hno; [done|].
  cbn [fold_left]. rewrite IH by (intros l' Hl'; apply Hno; by right).
  unfold vminfoStep. pose proof (Hno l ltac:(left)) as Hl.
  destruct (vminfoKeyVal l) as [[k' v']|]; [|done]. cbn in *.
  rewrite lookup_insert_ne; [done|]. intros ->. done.
Qed.

(** X19.  [vminfoAsPropMap] keeps, for each key, the value of the last
    line that sets it, and skips exactly the lines that have no equals
    sign after their first byte.  It fails only when the scanner does,
    with the scanner's error. *)
Theorem vminfoAsPropMap_last_wins (vmInfo : string) :
  (∀ err, (scan vmInfo).2 = Some err →
          vminfoAsPropMap vmInfo = ErrParsingVMInfo err) ∧
  ((scan vmInfo).2 = None →
   vminfoAsPropMap vmInfo =
     PropMap (list_to_map (reverse (omap vminfoKeyVal (scan vmInfo).1))) ∧
   ∀ pre line post k v,
     (scan vmInfo).1 = pre ++ line :: post →
     vminfoKeyVal line = Some (k, v) →
     (∀ l, l ∈ post → fst <$> vminfoKeyVal l ≠ Some k) →
     ∃ propMap, vminfoAsPropMap vmInfo = PropMap propMap ∧ propMap !! k = Some v) ∧
  (∀ line, vminfoKeyVal line = None ↔
           match line with
           | EmptyString => True
           | String _ r => hasByte "=" r = false
           end).
Proof.
  split_and!.
  - intros err He. unfold vminfoAsPropMap. by rewrite He.
  - intros He. unfold vminfoAsPropMap. rewrite He. split.
    + by rewrite fold_vminfoStep, (right_id_L ∅ (∪)).
    + intros pre line post k v Hl Hkv Hpost. eexists. split; [done|].
      rewrite Hl, fold_left_app. cbn [fold_left].
      rewrite fold_vminfoStep_other by done.
      unfold vminfoStep at 1. rewrite Hkv. cbn. by rewrite lookup_insert_eq.
  - apply vminfoKeyVal_None.
Qed.

End VMInfoFacts.

Module DhcpRecords.
Import GoStr Listing GoStrFacts ListingFacts.

Section WithParsers.
Variable ToLower : string → string.
Variable ParseIP : string → IP.
Variable To4 : IP → IP.
Variable ParseIPv4Mask : string → IPMask.
Variable stringYes : string.

Abbreviation dhcpLine := (dhcpLine ToLower ParseIP To4 ParseIPv4Mask stringYes).
Abbreviation dhcpLoop := (dhcpLoop ToLower ParseIP To4 ParseIPv4Mask stringYes).
Abbreviation DHCPs := (DHCPs ToLower ParseIP To4 ParseIPv4Mask stringYes).
Abbreviation dhcpField := (dhcpField ToLower ParseIP To4 ParseIPv4Mask stringYes).
Abbreviation dhcpRecordOf := (dhcpRecordOf ToLower ParseIP To4 ParseIPv4Mask stringYes).
Abbreviation dhcpNameOf := (dhcpNameOf ToLower).
Abbreviation dhcpNames := (dhcpNames ToLower).
Abbreviation stepsTo := (stepsTo ToLower ParseIP To4 ParseIPv4Mask stringYes).

(** What one line does to the state, blank or not. *)
Lemma dhcpLine_inv out st line st' :
  lastPtr st → ptrsValid st →
  dhcpLine out st line = Ret st' →
  lastPtr st' ∧ ptrsValid st' ∧ (dcur st ≤ dcur st')%nat ∧
  (∀ p, (p < dcur st)%nat → dheap st' !! p = dheap st !! p) ∧
  (line = "" → S (dcur st) = dcur st' ∧
               dheap st' !! dcur st = dheap st !! dcur st) ∧
  (∀ v, is_Some (dm st' !! v) ↔ is_Some (dm st !! v) ∨ dhcpNameOf line = Some v).
Proof.
  intros Hlast Hval. unfold lastPtr, ptrsValid in *.
  destruct (decide (line = "")) as [->|Hne].
  - rewrite dhcpLine_blank. intros [= <-]. cbn [dm dheap dcur].
    rewrite List.length_app. cbn [length].
    split_and!; [lia| |lia| | |].
    + intros v p Hv. apply Hval in Hv. lia.
    + intros p Hp. apply lookup_app_l. lia.
    + intros _. split; [lia|]. apply lookup_app_l. lia.
    + intros v. rewrite dhcpNameOf_blank. naive_solver.
  - pose proof (dhcpLine_nonblank ToLower ParseIP To4 ParseIPv4Mask stringYes out st line Hne)
      as Hstep.
    assert (∀ st1, dhcpLine out st line = Ret st1 → stepsTo st line st1) as Hsteps.
    { intros st1 H1. destruct (dhcpNameOf line) as [w|];
        [destruct (dm st !! w)|].
      - destruct Hstep as [e He]. congruence.
      - destruct Hstep as (st2 & He & Hs). congruence.
      - destruct Hstep as (st2 & He & Hs). congruence. }
    intros H. apply Hsteps in H as (Hc & Hl & _ & Hoth & Hdm & Hnew).
    rewrite Hc, Hl. split_and!; [done| |done| |done|].
    + intros v p. rewrite Hdm. destruct (dhcpNameOf line) as [w|]; [|apply Hval].
      destruct (decide (v = w)) as [->|Hvw].
      * rewrite lookup_insert_eq. intros [= <-]. lia.
      * rewrite lookup_insert_ne by done. apply Hval.
    + intros p Hp. apply Hoth. lia.
    + intros v. rewrite Hdm. destruct (dhcpNameOf line) as [w|]; [|naive_solver].
      destruct (decide (v = w)) as [->|Hvw].
      * rewrite lookup_insert_eq. naive_solver.
      * rewrite lookup_insert_ne by done. naive_solver.
Qed.

Lemma dhcpLoop_inv out lines st st' :
  lastPtr st → ptrsValid st →
  dhcpLoop out lines st = Ret st' →
  lastPtr st' ∧ ptrsValid st' ∧ (dcur st ≤ dcur st')%nat ∧
  (∀ p, (p < dcur st)%nat → dheap st' !! p = dheap st !! p) ∧
  (∀ v, is_Some (dm st' !! v) ↔ is_Some (dm st !! v) ∨ v ∈ dhcpNames lines).
Proof.
  revert st. induction lines as [|line rest IH]; intros st Hlast Hval.
  { intros [= <-]. split_and!; try done. intros v. rewrite elem_of_nil. naive_solver. }
  cbn [Listing.dhcpLoop].
  destruct (dhcpLine out st line) as [st1| |] eqn:H1; cbn [mbind outcome_bind]; [|done..].
  intros Hloop.
  destruct (dhcpLine_inv out st line st1 Hlast Hval H1) as (Hl1 & Hv1 & Hc1 & Hh1 & _ & Hd1).
  destruct (IH st1 Hl1 Hv1 Hloop) as (Hl & Hv & Hc & Hh & Hd).
  split_and!; [done|done|lia| |].
  - intros p Hp. rewrite Hh by lia. by apply Hh1.
  - intros v. rewrite Hd, Hd1. unfold Listing.dhcpNames. cbn [omap list_omap].
    destruct (Listing.dhcpNameOf ToLower line) as [w|] eqn:Hw.
    + rewrite elem_of_cons. naive_solver.
    + naive_solver.
Qed.

Lemma dhcpInit_inv : lastPtr dhcpInit ∧ ptrsValid dhcpInit.
Proof. split; [done|]. intros v p. cbn [dm dhcpInit]. by rewrite lookup_empty. Qed.

(** After a blank line the record filled so far is out of reach. *)
Lemma dhcpLoop_after_blank out post st st' :
  lastPtr st → ptrsValid st →
  post = [] ∨ (∃ p, post = "" :: p) →
  dhcpLoop out post st = Ret st' →
  dheap st' !! dcur st = dheap st !! dcur st.
Proof.
  intros Hlast Hval [->|[p ->]].
  - by intros [= <-].
  - cbn [Listing.dhcpLoop].
    destruct (dhcpLine out st "") as [st1| |] eqn:H1; cbn [mbind outcome_bind]; [|done..].
    intros Hloop.
    destruct (dhcpLine_inv out st "" st1 Hlast Hval H1) as (Hl1 & Hv1 & _ & _ & Hb & _).
    destruct (Hb eq_refl) as [Hc Hh].
    destruct (dhcpLoop_inv out p st1 st' Hl1 Hv1 Hloop) as (_ & _ & _ & Hfro & _).
    rewrite Hfro by lia. done.
Qed.

(** X20.  [DHCPs] returns, for every block of a listing, the record the
    block describes under each name the block gives: for a listing
    without duplicate names that is read to its end, and a block of
    non-blank lines that starts the listing or follows a blank line and
    that ends the listing or is followed by a blank line. *)
Theorem DHCPs_block_records (out : string) (pre block post : list string) :
  scan out = (pre ++ block ++ post, None) →
  pre = [] ∨ (∃ p, pre = p ++ [""]) →
  Forall (λ l, l ≠ "") block →
  post = [] ∨ (∃ p, post = "" :: p) →
  NoDup (dhcpNames (pre ++ block ++ post)) →
  ∃ m, DHCPs (Ret out) = Ret m ∧
       ∀ v, v ∈ dhcpNames block → m !! v = Some (dhcpRecordOf block).
Proof.
  intros Hscan Hpre Hblock Hpost Hnd.
  unfold Listing.DHCPs. cbn [mbind outcome_bind]. rewrite Hscan.
  destruct (dhcpLoop_distinct ToLower ParseIP To4 ParseIPv4Mask stringYes
              out (pre ++ block ++ post) dhcpInit Hnd) as [st' Hst'].
  { intros v _. apply lookup_empty. }
  rewrite Hst'. cbn [mbind outcome_bind]. eexists. split; [reflexivity|].
  intros v Hv. rewrite dhcpLoop_app in Hst'.
  destruct (dhcpLoop out pre dhcpInit) as [st1| |] eqn:E1;
    cbn [mbind outcome_bind] in Hst'; [|done..].
  rewrite dhcpLoop_app in Hst'.
  destruct (dhcpLoop out block st1) as [st2| |] eqn:E2;
    cbn [mbind outcome_bind] in Hst'; [|done..].
  pose proof (dhcpLoop_fresh ToLower ParseIP To4 ParseIPv4Mask stringYes out pre st1 Hpre E1)
    as Hfresh.
  destruct (dhcpLoop_block ToLower ParseIP To4 ParseIPv4Mask stringYes
              out block st1 st2 zeroDHCP Hblock Hfresh E2) as (Hc & Hr & Hn).
  destruct dhcpInit_inv as [Hl0 Hv0].
  destruct (dhcpLoop_inv out pre dhcpInit st1 Hl0 Hv0 E1) as (Hl1 & Hv1 & _).
  destruct (dhcpLoop_inv out block st1 st2 Hl1 Hv1 E2) as (Hl2 & Hv2 & _).
  pose proof (dhcpLoop_after_blank out post st2 st' Hl2 Hv2 Hpost Hst') as Hkeep.
  unfold Listing.derefDHCPs. rewrite lookup_omap.
  rewrite (dhcpLoop_mono ToLower ParseIP To4 ParseIPv4Mask stringYes
             out post st2 st' v (dcur st1) Hst' (Hn v Hv)).
  cbn. rewrite <- Hc, Hkeep. exact Hr.
Qed.

(** X21.  [DHCPs] succeeds exactly when the listing is read to its end
    and gives no name twice, and the map it then returns has exactly the
    names of the listing as keys. *)
Theorem DHCPs_succeeds_iff (out : string) :
  ((∃ m, DHCPs (Ret out) = Ret m) ↔
   (scan out).2 = None ∧ NoDup (dhcpNames (scan out).1)) ∧
  (∀ m, DHCPs (Ret out) = Ret m →
        ∀ v, is_Some (m !! v) ↔ v ∈ dhcpNames (scan out).1).
Proof.
  unfold Listing.DHCPs. cbn [mbind outcome_bind].
  destruct (scan out) as [lines scanErr]. cbn [fst snd].
  split.
  - split.
    + intros [m Hm].
      destruct (decide (NoDup (dhcpNames lines))) as [Hnd|Hdup].
      * destruct (dhcpLoop out lines dhcpInit); cbn [mbind outcome_bind] in Hm; [|done..].
        destruct scanErr; [done|]. done.
      * destruct (dhcpLoop_duplicate ToLower ParseIP To4 ParseIPv4Mask stringYes
                    out lines dhcpInit (or_intror Hdup)) as [e He].
        rewrite He in Hm. done.
    + intros [-> Hnd].
      destruct (dhcpLoop_distinct ToLower ParseIP To4 ParseIPv4Mask stringYes
                  out lines dhcpInit Hnd) as [st' Hst'].
      { intros v _. apply lookup_empty. }
      rewrite Hst'. cbn [mbind outcome_bind]. eauto.
  - intros m.
    destruct (dhcpLoop out lines dhcpInit) as [st'| |] eqn:Hst';
      cbn [mbind outcome_bind]; [|done..].
    destruct scanErr; [done|]. intros [= <-] v.
    destruct dhcpInit_inv as [Hl0 Hv0].
    destruct (dhcpLoop_inv out lines dhcpInit st' Hl0 Hv0 Hst') as (_ & Hval & _ & _ & Hdom).
    unfold Listing.derefDHCPs. rewrite lookup_omap.
    transitivity (is_Some (dm st' !! v)).
    + destruct (dm st' !! v) as [p|] eqn:Hp; cbn.
      * split; [eauto|]. intros _. apply lookup_lt_is_Some_2. by eapply Hval.
      * split; intros [? ?]; done.
    + rewrite Hdom. cbn [dm dhcpInit]. rewrite lookup_empty. split; [|eauto].
      intros [[? ?]|?]; done.
Qed.

End WithParsers.

Lemma DHCPs_block_records_witness :
  ∃ m, Listing.DHCPs asciiToLower (λ _, []) id (λ _, []) "Yes" (Ret dhcpListing) = Ret m ∧
       is_Some (m !! "HostInterfaceNetworking-vboxnet0").
Proof.
  destruct (DHCPs_block_records asciiToLower (λ _, []) id (λ _, []) "Yes" dhcpListing
              [] (take 6 (scan dhcpListing).1) (drop 6 (scan dhcpListing).1))
    as (m & Hm & Hrec).
  - vm_compute. reflexivity.
  - left. reflexivity.
  - vm_compute. repeat (constructor; [discriminate|]). constructor.
  - right. vm_compute. eexists. reflexivity.
  - vm_compute. repeat (apply NoDup_cons_2; [set_solver|]). apply NoDup_nil_2.
  - exists m. split; [exact Hm|].
    rewrite (Hrec "HostInterfaceNetworking-vboxnet0"); [eauto|].
    vm_compute. left.
Defined.

End DhcpRecords.

Module NatRecords.
Import GoStr Listing GoStrFacts ListingFacts.

Lemma lastColon_spaces sp v :
  allBytes isSpace sp = true → lastColon v = None → lastColon (sp +:+ v) = None.
Proof.
  intros Hsp Hv. induction sp as [|c r IH]; [by rewrite app_nil|].
  cbn [allBytes] in Hsp. apply andb_prop in Hsp as [Hc Hr].
  rewrite app_cons. cbn [lastColon]. rewrite (IH Hr).
  destruct (Ascii.eqb_spec c ":") as [->|]; [done|done].
Qed.

Lemma lastColon_at k rest :
  lastColon rest = None → startsWithSpace rest = true →
  lastColon (k +:+ ":" +:+ rest) = Some (k, rest).
Proof.
  intros Hn Hs. induction k as [|c k IH].
  - rewrite app_nil. change (":" +:+ rest) with (String ":"%char rest).
    cbn [lastColon]. rewrite Hn, Hs. done.
  - rewrite app_cons. cbn [lastColon]. by rewrite IH.
Qed.

Lemma dropSpaces_app sp v :
  allBytes isSpace sp = true → startsWithSpace v = false → dropSpaces (sp +:+ v) = v.
Proof.
  intros Hsp Hv. induction sp as [|c r IH].
  - rewrite app_nil. destruct v as [|c r]; [done|]. cbn in *. by rewrite Hv.
  - cbn [allBytes] in Hsp. apply andb_prop in Hsp as [Hc Hr].
    rewrite app_cons. cbn [dropSpaces]. rewrite Hc. by apply IH.
Qed.

(** X22.  A line [key: value] of a listing is read back by the line
    pattern of [DHCPs] and [NATNets]: the key is everything before the
    last colon that a space follows, so it may itself hold colons and
    spaces, and the value is what follows the spaces, for a value that
    neither starts with a space nor holds a colon followed by a
    space. *)
Theorem reColonLine_roundtrip (k sp v : string) :
  k ≠ "" → sp ≠ "" → allBytes isSpace sp = true →
  startsWithSpace v = false → lastColon v = None →
  reColonLine (k +:+ ":" +:+ sp +:+ v) = Some (k, v).
Proof.
  intros Hk Hsp Hall Hv Hlast. unfold reColonLine.
  rewrite lastColon_at.
  - destruct k as [|c k]; [done|]. by rewrite dropSpaces_app.
  - by apply lastColon_spaces.
  - destruct sp as [|c r]; [done|]. rewrite app_cons. cbn in *.
    by apply andb_prop in Hall as [-> _].
Qed.

Lemma reColonLine_roundtrip_witness :
  reColonLine "IPv6 Prefix: fd17:625c:f037:2::/64" =
    Some ("IPv6 Prefix", "fd17:625c:f037:2::/64") ∧
  reColonLine "Name: lab: east" = Some ("Name: lab", "east").
Proof.
  split.
  - apply (reColonLine_roundtrip "IPv6 Prefix" " " "fd17:625c:f037:2::/64"); done.
  - apply (reColonLine_roundtrip "Name: lab" " " "east"); done.
Defined.

Section WithParsers.
Variable ParseIP : string → IP.
Variable ParseCIDRMask : string → outcome IPMask.
Variable stringYes : string.

Abbreviation natLine := (natLine ParseIP ParseCIDRMask stringYes).
Abbreviation natLoop := (natLoop ParseIP ParseCIDRMask stringYes).
Abbreviation NATNets := (NATNets ParseIP ParseCIDRMask stringYes).

(** A line that is not blank leaves the map as it is, and changes the
    name of the record being filled only when it gives one. *)
Lemma natLine_nonblank st line st' :
  line ≠ "" → natLine st line = Ret st' →
  st'.1 = st.1 ∧
  Name st'.2 = default (Name st.2) (natNameOf line).
Proof.
  intros Hne. destruct st as [m n]. unfold Listing.natLine, natNameOf.
  destruct (String.eqb_spec line "") as [|_]; [done|].
  destruct (reColonLine line) as [[key val]|]; [|intros [= <-]; done].
  destruct (String.eqb key "Name" || String.eqb key "NetworkName");
    [intros [= <-]; done|].
  destruct (String.eqb key "IP" || String.eqb key "Gateway");
    [intros [= <-]; done|].
  destruct (String.eqb key "Network").
  { destruct (ParseCIDRMask val); cbn [mbind outcome_bind]; [|done..].
    intros [= <-]; done. }
  destruct (String.eqb key "IPv6 Prefix").
  { destruct (ParseCIDRMask val); cbn [mbind outcome_bind]; [|done..].
    intros [= <-]; done. }
  destruct (String.eqb key "DHCP Enabled"); [intros [= <-]; done|].
  destruct (String.eqb key "Enabled"); [intros [= <-]; done|].
  intros [= <-]; done.
Qed.

Lemma natLine_blank st : natLine st "" = Ret (<[Name st.2 := st.2]> st.1, zeroNATNet).
Proof. by destruct st. Qed.

Lemma natLoop_app l1 l2 st :
  natLoop (l1 ++ l2) st = (st1 ← natLoop l1 st; natLoop l2 st1).
Proof.
  revert st. induction l1 as [|l r IH]; intros st; [done|].
  cbn [app Listing.natLoop]. destruct (natLine st l); cbn [mbind outcome_bind]; [|done..].
  apply IH.
Qed.

Lemma natLoop_block block st st' :
  Forall (λ l, l ≠ "") block → natLoop block st = Ret st' → st'.1 = st.1.
Proof.
  revert st. induction block as [|l r IH]; intros st Hnb; [by intros [= <-]|].
  apply Forall_cons in Hnb as [Hl Hr]. cbn [Listing.natLoop].
  destruct (natLine st l) as [st1| |] eqn:H1; cbn [mbind outcome_bind]; [|done..].
  intros Hloop. rewrite (IH st1 Hr Hloop).
  by destruct (natLine_nonblank st l st1 Hl H1).
Qed.


Lemma natLoop_keys lines st st' k :
  natLoop lines st = Ret st' → is_Some (st.1 !! k) → is_Some (st'.1 !! k).
Proof.
  revert st. induction lines as [|l r IH]; intros st; [by intros [= <-]|].
  cbn [Listing.natLoop].
  destruct (natLine st l) as [st1| |] eqn:H1; cbn [mbind outcome_bind]; [|done..].
  intros Hloop Hk. apply (IH st1 Hloop).
  destruct (decide (l = "")) as [->|Hne].
  - rewrite natLine_blank in H1. injection H1 as <-. cbn [fst].
    rewrite lookup_insert_is_Some. destruct (decide (Name st.2 = k)); auto.
  - destruct (natLine_nonblank st l st1 Hne H1) as [-> _]. done.
Qed.

Lemma natLoop_fresh pre st :
  pre = [] ∨ (∃ p, pre = p ++ [""]) →
  natLoop pre (∅, zeroNATNet) = Ret st → st.2 = zeroNATNet.
Proof.
  intros [->|[p ->]]; [by intros [= <-]|].
  rewrite natLoop_app. destruct (natLoop p (∅, zeroNATNet)) as [st1| |];
    cbn [mbind outcome_bind]; [|done..].
  cbn [Listing.natLoop]. rewrite natLine_blank. cbn [mbind outcome_bind].
  by intros [= <-].
Qed.

Lemma natLoop_nameless block st st' :
  Forall (λ l, l ≠ "" ∧ natNameOf l = None) block →
  natLoop block st = Ret st' → Name st'.2 = Name st.2.
Proof.
  revert st. induction block as [|l r IH]; intros st Hb; [by intros [= <-]|].
  apply Forall_cons in Hb as [[Hl Hn] Hr]. cbn [Listing.natLoop].
  destruct (natLine st l) as [st1| |] eqn:H1; cbn [mbind outcome_bind]; [|done..].
  intros Hloop. rewrite (IH st1 Hr Hloop).
  destruct (natLine_nonblank st l st1 Hl H1) as [_ ->]. by rewrite Hn.
Qed.

(** X24.  A blank line files the record being filled even when no line
    has named it: a block without name, at the start of the listing or
    after a blank line and itself followed by a blank line, leaves an
    entry under the empty name in the map [NATNets] returns.  Two blank
    lines in a row, or a blank first line, are such a block. *)
Theorem NATNets_nameless_block (out : string) (pre block post : list string)
        (m : gmap string NATNet) :
  scan out = (pre ++ block ++ "" :: post, None) →
  pre = [] ∨ (∃ p, pre = p ++ [""]) →
  Forall (λ l, l ≠ "" ∧ natNameOf l = None) block →
  NATNets (Ret out) = Ret m →
  is_Some (m !! "").
Proof.
  intros Hscan Hpre Hblock. unfold Listing.NATNets. cbn [mbind outcome_bind].
  rewrite Hscan, natLoop_app.
  destruct (natLoop pre (∅, zeroNATNet)) as [st1| |] eqn:H1;
    cbn [mbind outcome_bind]; [|done..].
  rewrite natLoop_app.
  destruct (natLoop block st1) as [st2| |] eqn:H2; cbn [mbind outcome_bind]; [|done..].
  cbn [Listing.natLoop]. rewrite natLine_blank. cbn [mbind outcome_bind].
  destruct (natLoop post _) as [st3| |] eqn:H3; cbn [mbind outcome_bind]; [|done..].
  intros [= <-]. eapply natLoop_keys; [exact H3|]. cbn [fst].
  rewrite (natLoop_nameless block st1 st2 Hblock H2).
  rewrite (natLoop_fresh pre st1 Hpre H1). cbn [Name zeroNATNet].
  rewrite lookup_insert_eq. eauto.
Qed.

End WithParsers.


Lemma NATNets_nameless_block_witness :
  ∃ m, Listing.NATNets (λ _, []) (λ _, Ret []) "Yes" (Ret natListingHeading) = Ret m ∧
       is_Some (m !! "") ∧ is_Some (m !! "natnet1").
Proof.
  assert (H : ∃ m, Listing.NATNets (λ _, []) (λ _, Ret []) "Yes" (Ret natListingHeading)
                     = Ret m ∧ is_Some (m !! "natnet1")).
  { vm_compute. eexists. split; [reflexivity|eauto]. }
  destruct H as (m & Hm & H1). exists m. split; [exact Hm|]. split; [|exact H1].
  apply (NATNets_nameless_block (λ _, []) (λ _, Ret []) "Yes" natListingHeading
           [] ["NAT Networks:"] (drop 2 (scan natListingHeading).1) m);
    [vm_compute; reflexivity|by left| |exact Hm].
  constructor; [|constructor]. split; [discriminate|reflexivity].
Defined.

End NatRecords.
